(** * ape: the bytecode compiler and its virtual machine

    A shallow embedding of the compiler/VM core of the ape language
    (packages [operation], [data], [symbols], [ast], [compiler] and [vm])
    and the properties of it that the specification states.

    Conventions of the embedding.
    - A Go [byte] is a [Byte.byte]; an instruction stream is a [list byte].
    - A Go [int] used as an index or a counter is a [Z].  These never leave
      the range of a 64-bit integer in the code below (they are bounded by
      slice lengths and 16-bit operands), so no wrap-around is written for
      them.  An [int64] payload of [data.Integer] wraps, see [vm.int64].
    - A Go function that returns an [error] returns a [result]: [Ok], or
      [Err] with the error, or [Panic] when the Go runtime would panic
      (index out of range, integer division by zero, nil dereference).
    - Methods that mutate their receiver ([*Compiler], [*VM], [*Stack])
      are computations of the state-and-error monad [M]. *)

From Stdlib Require Import ZArith List String Ascii Lia Bool DecimalString.
From Stdlib.Strings Require Import Byte.
From stdpp Require Import base gmap list strings sorting.

#[local] Set Warnings "-register-all".
#[local] Open Scope string_scope.
#[local] Open Scope list_scope.
#[local] Open Scope Z_scope.

(* ================================================================= *)
(** ** Errors, panics and the state-and-error monad *)

(** The run-time panics of Go that the code below can reach. *)
Inductive panic : Type :=
| IndexOutOfRange
| SliceBoundsOutOfRange
| IntegerDivideByZero
| NilDereference
| InterfaceConversion
| InvalidInstruction.

(** The type tags of [data.Data] values.  Only [INTEGER_TYPE] is named in
    the sources at hand; the others follow the variants of the data model. *)
Inductive DataType : Type :=
| INTEGER_TYPE | BOOLEAN_TYPE | STRING_TYPE | NULL_TYPE | ARRAY_TYPE
| HASH_TYPE | COMPILED_FUNCTION_TYPE | BUILTIN_TYPE | CLOSURE_TYPE.

#[global] Instance DataType_eq_dec : EqDecision DataType.
Proof. solve_decision. Defined.

(** An argument of [fmt.Errorf]. *)
Inductive fmtArg : Type :=
| ArgInt (n : Z)
| ArgStr (s : string)
| ArgType (t : DataType).

(** [fmt.Errorf(format, args...)]: an error is kept as its format string
    and its arguments; [error_message] renders it. *)
Record error : Type := Errorf { format : string; args : list fmtArg }.

Inductive result (A : Type) : Type :=
| Ok (a : A)
| Err (e : error)
| Panic (p : panic).
Arguments Ok {A} a.
Arguments Err {A} e.
Arguments Panic {A} p.

(** Decimal rendering of an integer, as [%d] prints it. *)
Definition decimal (n : Z) : string :=
  match n with
  | Z.neg p => String.append "-" (NilZero.string_of_uint (Pos.to_uint p))
  | _ => NilZero.string_of_uint (N.to_uint (Z.to_N n))
  end.

Definition render_arg (tag : DataType -> string) (a : fmtArg) : string :=
  match a with
  | ArgInt n => decimal n
  | ArgStr s => s
  | ArgType t => tag t
  end.

(** [fmt.Sprintf] restricted to the verbs [%d] and [%s] that the code
    uses; [tag] gives the text of a type tag (the [data] package that
    declares the tags is not part of the sources at hand). *)
Fixpoint sprintf (tag : DataType -> string) (f : string) (l : list fmtArg) : string :=
  match f with
  | EmptyString => EmptyString
  | String "%"%char (String v rest) =>
      match l with
      | a :: l' => String.append (render_arg tag a) (sprintf tag rest l')
      | [] => String "%"%char (String v (sprintf tag rest []))
      end
  | String ch rest => String ch (sprintf tag rest l)
  end.

Definition error_message (tag : DataType -> string) (e : error) : string :=
  sprintf tag (format e) (args e).

(** Computations over a state [S] that may fail or panic. *)
Definition M (S A : Type) : Type := S -> result (A * S).

Definition ret {S A : Type} (a : A) : M S A := fun s => Ok (a, s).

Definition bind {S A B : Type} (m : M S A) (k : A -> M S B) : M S B :=
  fun s =>
    match m s with
    | Ok (a, s') => k a s'
    | Err e => Err e
    | Panic p => Panic p
    end.

Definition throw {S A : Type} (e : error) : M S A := fun _ => Err e.
Definition raise {S A : Type} (p : panic) : M S A := fun _ => Panic p.
Definition get {S : Type} : M S S := fun s => Ok (s, s).
Definition gets {S A : Type} (f : S -> A) : M S A := fun s => Ok (f s, s).
Definition put {S : Type} (s : S) : M S unit := fun _ => Ok (tt, s).
Definition modify {S : Type} (f : S -> S) : M S unit := fun s => Ok (tt, f s).

(** Lifting of a partial read: [None] is the Go panic [p]. *)
Definition orPanic {S A : Type} (p : panic) (o : option A) : M S A :=
  match o with
  | Some a => ret a
  | None => raise p
  end.

Notation "'let*' x ':=' m 'in' k" := (bind m (fun x => k))
  (at level 10, x name, m at level 100, k at level 200).
Notation "m '>>' k" := (bind m (fun _ => k))
  (at level 90, right associativity).

(** [forEach f l]: [for _, x := range l { f(x) }], stopping at the first
    error. *)
Definition forEach {S A : Type} (f : A -> M S unit) : list A -> M S unit :=
  fix go (l : list A) : M S unit :=
    match l with
    | [] => ret tt
    | x :: l' => f x >> go l'
    end.

(** [l[i]] for a Go [int] index: [None] when the index is out of range. *)
Definition index {A : Type} (l : list A) (i : Z) : option A :=
  if decide (0 <= i) then l !! Z.to_nat i else None.

(** [l[i] = x] for an index known to be in range. *)
Definition setIndex {A : Type} (l : list A) (i : Z) (x : A) : list A :=
  <[Z.to_nat i := x]> l.

Definition len {A : Type} (l : list A) : Z := Z.of_nat (length l).

(** [l[i:]] and [l[:i]]; [None] when the bound is out of range. *)
Definition sliceFrom {A : Type} (l : list A) (i : Z) : option (list A) :=
  if decide (0 <= i <= len l) then Some (drop (Z.to_nat i) l) else None.

Definition sliceTo {A : Type} (l : list A) (i : Z) : option (list A) :=
  if decide (0 <= i <= len l) then Some (take (Z.to_nat i) l) else None.

#[global] Instance byte_eq_dec : EqDecision byte := Byte.byte_eq_dec.
#[global] Instance byte_countable : Countable byte :=
  inj_countable Byte.to_N Byte.of_N Byte.of_to_N.

(** The numeric value of a byte, and the byte of a number (its low eight
    bits, as the Go conversion [byte(n)]). *)
Definition byteZ (b : byte) : Z := Z.of_N (Byte.to_N b).

Definition toByte (n : Z) : byte :=
  match Byte.of_N (Z.to_N (n mod 256)) with
  | Some b => b
  | None => x00
  end.

(* ================================================================= *)
(** ** Package [operation] *)

Module operation.

Abbreviation Opcode := byte (only parsing).
Abbreviation Instruction := (list byte) (only parsing).

(** Modelled from the spec: the [const] block that declares the opcodes is
    not part of the sources at hand.  The opcodes are those of the
    encoding table of the spec (section 4.1), numbered in the order of
    that table.  The statements below name the constants and do not rely on
    the numbers, only on their being distinct.  [True] and [False] are
    [True_] and [False_] here. *)
Definition Constant : Opcode := x00.
Definition Pop : Opcode := x01.
Definition Add : Opcode := x02.
Definition Sub : Opcode := x03.
Definition Mul : Opcode := x04.
Definition Div : Opcode := x05.
Definition True_ : Opcode := x06.
Definition False_ : Opcode := x07.
Definition Null : Opcode := x08.
Definition Equal : Opcode := x09.
Definition NotEqual : Opcode := x0a.
Definition GreaterThan : Opcode := x0b.
Definition Bang : Opcode := x0c.
Definition Minus : Opcode := x0d.
Definition Jump : Opcode := x0e.
Definition JumpNotTruthy : Opcode := x0f.
Definition SetGlobal : Opcode := x10.
Definition GetGlobal : Opcode := x11.
Definition SetLocal : Opcode := x12.
Definition GetLocal : Opcode := x13.
Definition GetBuiltin : Opcode := x14.
Definition GetFree : Opcode := x15.
Definition Array : Opcode := x16.
Definition Hash : Opcode := x17.
Definition Index : Opcode := x18.
Definition Call : Opcode := x19.
Definition ReturnValue : Opcode := x1a.
Definition Return : Opcode := x1b.
Definition Closure : Opcode := x1c.

(** The opcodes of the encoding table of the spec. *)
Definition opcodes : list Opcode :=
  [ Constant; Pop; Add; Sub; Mul; Div; True_; False_; Null; Equal; NotEqual;
    GreaterThan; Bang; Minus; Jump; JumpNotTruthy; SetGlobal; GetGlobal;
    SetLocal; GetLocal; GetBuiltin; GetFree; Array; Hash; Index; Call;
    ReturnValue; Return; Closure ].

(** [type Operation struct] *)
Record Operation : Type := { Name : string; OperandSizes : list Z }.

(** [var operations]: the map from opcodes to operations, with the two
    entries that operation.go gives it. *)
Definition operations : gmap byte Operation :=
  {[ Constant := {| Name := "Constant"; OperandSizes := [2] |};
     Add := {| Name := "Add"; OperandSizes := [] |} ]}.

(** [func Lookup(value byte)], which returns an operation or an error. *)
Definition Lookup (value : byte) : result Operation :=
  let opcode : Opcode := value in
  match operations !! opcode with
  | Some operation => Ok operation
  | None => Err (Errorf "Undefined Opcode: %d" [ArgInt (byteZ opcode)])
  end.

(** Modelled from the spec: the operand widths of the encoding table of
    section 4.1, which [NewInstruction] (not part of the sources at hand)
    encodes by.  [None] for a byte that is no opcode of the table. *)
Definition operandWidths (op : Opcode) : option (list Z) :=
  if decide (op ∈ [Constant; Jump; JumpNotTruthy; SetGlobal; GetGlobal; Array; Hash])
  then Some [2]
  else if decide (op ∈ [SetLocal; GetLocal; GetBuiltin; GetFree; Call])
  then Some [1]
  else if decide (op = Closure) then Some [2; 1]
  else if decide (op ∈ opcodes) then Some []
  else None.

(** Big-endian encoding of one operand in [w] bytes. *)
Definition putOperand (w : Z) (o : Z) : list byte :=
  if decide (w = 2) then [toByte (o / 256); toByte o]
  else if decide (w = 1) then [toByte o]
  else [].

(** An operand fits its width. *)
Definition fits (w : Z) (o : Z) : bool :=
  (0 <=? o) && (o <? 2 ^ (8 * w)).

Fixpoint putOperands (ws : list Z) (os : list Z) : option (list byte) :=
  match ws, os with
  | [], [] => Some []
  | w :: ws', o :: os' =>
      if fits w o
      then match putOperands ws' os' with
           | Some bs => Some (putOperand w o ++ bs)
           | None => None
           end
      else None
  | _, _ => None
  end.

(** Modelled from the spec: [NewInstruction] is not part of the sources at
    hand.  "new-instruction(op, operands...) validates that the operand
    count and magnitudes fit the declared widths; big-endian."  The Go
    function returns the bytes alone (see its call sites in the compiler),
    so a failed validation has no error value to return: [None] here, which
    the callers below turn into a panic. *)
Definition NewInstruction (op : Opcode) (operands : list Z) : option (list byte) :=
  match operandWidths op with
  | Some ws =>
      match putOperands ws operands with
      | Some bs => Some (op :: bs)
      | None => None
      end
  | None => None
  end.

(** Modelled from the spec: "[read-u16] and [read-u8] mirror this": the
    big-endian value of the first two bytes, and the first byte; [None]
    where Go panics on a slice that is too short. *)
Definition ReadUint16 (ins : list byte) : option Z :=
  match ins with
  | hi :: lo :: _ => Some (256 * byteZ hi + byteZ lo)
  | _ => None
  end.

Definition ReadUint8 (ins : list byte) : option Z :=
  match ins with
  | b :: _ => Some (byteZ b)
  | [] => None
  end.

End operation.

(* ================================================================= *)
(** ** Package [data] *)

Module data.

(** [data.CompiledFunction], with the three fields the compiler fills in. *)
Record CompiledFunction : Type :=
  { Instructions : list byte; LocalCount : Z; ParamCount : Z }.

(** Modelled from the spec: the [data] package is not part of the sources
    at hand.  The variants are those of the data model of the spec
    (section 3); [Fn] is a [*data.CompiledFunction] seen as a
    [data.Data].  A [Builtin] stands for a host function and is kept by
    its name. *)
Inductive Data : Type :=
| Integer (Value : Z)
| Boolean (Value : bool)
| String_ (Value : string)
| Null
| Array (Elements : list (option Data))
| Hash (Pairs : list (Data * option Data))
| Fn (fn : CompiledFunction)
| Builtin (Name : string)
| Closure (fn : CompiledFunction) (Free : list Data).

(** The method [Type()] of a value. *)
Definition Type_ (d : Data) : DataType :=
  match d with
  | Integer _ => INTEGER_TYPE
  | Boolean _ => BOOLEAN_TYPE
  | String_ _ => STRING_TYPE
  | Null => NULL_TYPE
  | Array _ => ARRAY_TYPE
  | Hash _ => HASH_TYPE
  | Fn _ => COMPILED_FUNCTION_TYPE
  | Builtin _ => BUILTIN_TYPE
  | Closure _ _ => CLOSURE_TYPE
  end.

End data.

(** A Go interface value of type [data.Data]: [None] is [nil]. *)
Abbreviation value := (option data.Data) (only parsing).

(* ================================================================= *)
(** ** Package [symbols] *)

Module symbols.

Inductive SymbolScope : Type :=
| GlobalScope | LocalScope | BuiltinScope | FreeScope.

#[global] Instance SymbolScope_eq_dec : EqDecision SymbolScope.
Proof. solve_decision. Defined.

(** "Symbol: (name, scope, index)". *)
Record Symbol : Type := { Name : string; Scope : SymbolScope; Index : Z }.

(** Modelled from the spec: the [symbols] package is not part of the
    sources at hand; the compiler reads the fields [Outer], [Free] and
    [DefinitionCount] of a table.  A table is a chain through [Outer]; an
    update of an enclosing table (a capture made by [Resolve]) is kept in
    the chain. *)
Inductive SymbolTable : Type :=
  mkSymbolTable
    { Outer : option SymbolTable;
      store : gmap string Symbol;
      DefinitionCount : Z;
      Free : list Symbol }.

Definition New : SymbolTable :=
  {| Outer := None; store := ∅; DefinitionCount := 0; Free := [] |}.

Definition NewEnclosed (outer : option SymbolTable) : SymbolTable :=
  {| Outer := outer; store := ∅; DefinitionCount := 0; Free := [] |}.

(** "define(name): assigns the next index in the current table; scope is
    Global if the table has no outer, else Local.  Rebinding an existing
    name overwrites." *)
Definition Define (name : string) (s : SymbolTable) : Symbol * SymbolTable :=
  let symbol :=
    {| Name := name;
       Scope := match Outer s with None => GlobalScope | Some _ => LocalScope end;
       Index := DefinitionCount s |} in
  (symbol,
   {| Outer := Outer s; store := <[name := symbol]> (store s);
      DefinitionCount := DefinitionCount s + 1; Free := Free s |}).

(** "define-builtin(index, name): scope = Builtin, explicit index." *)
Definition DefineBuiltin (idx : Z) (name : string) (s : SymbolTable)
    : Symbol * SymbolTable :=
  let symbol := {| Name := name; Scope := BuiltinScope; Index := idx |} in
  (symbol,
   {| Outer := Outer s; store := <[name := symbol]> (store s);
      DefinitionCount := DefinitionCount s; Free := Free s |}).

(** "define-free(original): records original in the table's free list;
    returns a Symbol with scope = Free and index = position in free."  The
    symbol is stored under its name, so that the name resolves to the same
    capture from then on. *)
Definition defineFree (original : Symbol) (s : SymbolTable) : Symbol * SymbolTable :=
  let symbol :=
    {| Name := Name original; Scope := FreeScope; Index := len (Free s) |} in
  (symbol,
   {| Outer := Outer s; store := <[Name original := symbol]> (store s);
      DefinitionCount := DefinitionCount s; Free := Free s ++ [original] |}).

Definition setOuter (o : option SymbolTable) (s : SymbolTable) : SymbolTable :=
  {| Outer := o; store := store s; DefinitionCount := DefinitionCount s;
     Free := Free s |}.

(** "resolve(name): look up in current table.  On miss, recurse into outer;
    if outer returns a Global or Builtin symbol, propagate unchanged.
    Otherwise call define-free on the current table with that original
    symbol and return the Free-scoped symbol." *)
Fixpoint Resolve (name : string) (s : SymbolTable) : option Symbol * SymbolTable :=
  match s with
  | mkSymbolTable outer st count free =>
      match st !! name with
      | Some symbol => (Some symbol, s)
      | None =>
          match outer with
          | None => (None, s)
          | Some o =>
              let (found, o') := Resolve name o in
              let s' := mkSymbolTable (Some o') st count free in
              match found with
              | None => (None, s')
              | Some symbol =>
                  if decide (Scope symbol = GlobalScope \/ Scope symbol = BuiltinScope)
                  then (Some symbol, s')
                  else let (freeSymbol, s'') := defineFree symbol s' in
                       (Some freeSymbol, s'')
              end
          end
      end
  end.

End symbols.

(* ================================================================= *)
(** ** Package [ast] *)

Module ast.

(** Modelled from the spec: the [ast] package is not part of the sources
    at hand.  The variants and their fields are those that [Compile] reads
    ("AST contract consumed", section 6).  A block is the list of its
    statements.  The [Pairs] of a hash literal is a Go map keyed by the key
    nodes: the list gives its entries in the order in which [range] visits
    them in one run, an order that Go leaves unspecified, so that two
    lists that are permutations of each other stand for the same literal. *)
Inductive Expression : Type :=
| Identifier (Value : string)
| IntegerLiteral (Value : Z)
| Boolean (Value : bool)
| StringLiteral (Value : string)
| PrefixExpression (Operator : string) (Right : Expression)
| InfixExpression (Left : Expression) (Operator : string) (Right : Expression)
| ArrayLiteral (Elements : list Expression)
| HashLiteral (Pairs : list (Expression * Expression))
| IndexExpression (Left : Expression) (Index : Expression)
| IfExpression (Condition : Expression) (Consequent : list Statement)
    (Alternate : option (list Statement))
| FunctionLiteral (Parameters : list string) (Body : list Statement)
| CallExpression (Function : Expression) (Arguments : list Expression)
with Statement : Type :=
| ExpressionStatement (Expression_ : Expression)
| LetStatement (Name : string) (Value : Expression)
| ReturnStatement (ReturnValue : Expression).

(** The number of nodes of an expression and of a statement. *)
Fixpoint esize (e : Expression) : nat :=
  match e with
  | Identifier _ | IntegerLiteral _ | Boolean _ | StringLiteral _ => 1
  | PrefixExpression _ r => S (esize r)
  | InfixExpression l _ r => S (esize l + esize r)
  | ArrayLiteral elements => S (list_sum (map esize elements))
  | HashLiteral pairs =>
      S (list_sum (map (fun p : Expression * Expression =>
                          (esize (fst p) + esize (snd p))%nat) pairs))
  | IndexExpression l i => S (esize l + esize i)
  | IfExpression c consequent alternate =>
      S (esize c + list_sum (map ssize consequent)
         + match alternate with
           | None => 0
           | Some alt => list_sum (map ssize alt)
           end)
  | FunctionLiteral _ body => S (list_sum (map ssize body))
  | CallExpression f arguments => S (esize f + list_sum (map esize arguments))
  end
with ssize (s : Statement) : nat :=
  match s with
  | ExpressionStatement e => S (esize e)
  | LetStatement _ v => S (esize v)
  | ReturnStatement v => S (esize v)
  end.

(** [ast.Node]: what [Compile] is called on. *)
Inductive Node : Type :=
| Program (Statements : list Statement)
| BlockStatement (Statements : list Statement)
| Stmt (s : Statement)
| Expr (e : Expression).

End ast.

(* ================================================================= *)
(** ** Package [compiler] *)

Module compiler.

Import data.

(** [type Bytecode struct] *)
Record Bytecode : Type :=
  { Instructions : list byte; Constants : list Data }.

(** [type Emitted struct] *)
Record Emitted : Type := { Opcode : operation.Opcode; Position : Z }.

(** [type Scope struct] *)
Record Scope : Type :=
  { instructions : list byte; emitted : Emitted; prevEmitted : Emitted }.

(** [type Compiler struct]; [symbols] is a pointer, [None] when [nil]. *)
Record Compiler : Type :=
  { constants : list Data;
    symbols : option symbols.SymbolTable;
    scopes : list Scope;
    currentScope : Z }.

(** The zero value [Emitted{}]. *)
Definition noEmitted : Emitted := {| Opcode := x00; Position := 0 |}.

Definition emptyScope : Scope :=
  {| instructions := []; emitted := noEmitted; prevEmitted := noEmitted |}.

Definition setConstants (k : list Data) (c : Compiler) : Compiler :=
  {| constants := k; symbols := symbols c; scopes := scopes c;
     currentScope := currentScope c |}.

Definition setSymbols (t : option symbols.SymbolTable) (c : Compiler) : Compiler :=
  {| constants := constants c; symbols := t; scopes := scopes c;
     currentScope := currentScope c |}.

Definition setScopes (l : list Scope) (c : Compiler) : Compiler :=
  {| constants := constants c; symbols := symbols c; scopes := l;
     currentScope := currentScope c |}.

Definition setCurrentScope (n : Z) (c : Compiler) : Compiler :=
  {| constants := constants c; symbols := symbols c; scopes := scopes c;
     currentScope := n |}.

(** [c.scopes[c.currentScope]], read and written. *)
Definition scope : M Compiler Scope :=
  let* c := get in
  orPanic IndexOutOfRange (index (scopes c) (currentScope c)).

Definition setScope (s : Scope) : M Compiler unit :=
  let* _ := scope in
  modify (fun c => setScopes (setIndex (scopes c) (currentScope c) s) c).

(** A method of the table [c.symbols] points to, run in place. *)
Definition onSymbols {A : Type} (f : symbols.SymbolTable -> A * symbols.SymbolTable)
    : M Compiler A :=
  let* c := get in
  match symbols c with
  | Some t => let (a, t') := f t in put (setSymbols (Some t') c) >> ret a
  | None => raise NilDereference
  end.

(** [func (c) currentInstructions() operation.Instruction] *)
Definition currentInstructions : M Compiler (list byte) :=
  let* s := scope in ret (instructions s).

(** [func (c) addConstant(d data.Data) int] *)
Definition addConstant (d : Data) : M Compiler Z :=
  modify (fun c => setConstants (constants c ++ [d]) c) >>
  let* c := get in ret (len (constants c) - 1).

(** [func (c) addInstruction(ins []byte) int] *)
Definition addInstruction (ins : list byte) : M Compiler Z :=
  let* cur := currentInstructions in
  let pos := len cur in
  let* s := scope in
  setScope {| instructions := cur ++ ins; emitted := emitted s;
              prevEmitted := prevEmitted s |} >>
  ret pos.

(** [func (c) setEmitted(op operation.Opcode, pos int)] *)
Definition setEmitted (op : operation.Opcode) (pos : Z) : M Compiler unit :=
  let* s := scope in
  setScope {| instructions := instructions s;
              emitted := {| Opcode := op; Position := pos |};
              prevEmitted := emitted s |}.

(** [operation.NewInstruction(op, operands...)] at a call site of the
    compiler. *)
Definition newInstruction (op : operation.Opcode) (operands : list Z)
    : M Compiler (list byte) :=
  orPanic InvalidInstruction (operation.NewInstruction op operands).

(** [func (c) emit(op operation.Opcode, operands ...int) int] *)
Definition emit (op : operation.Opcode) (operands : list Z) : M Compiler Z :=
  let* ins := newInstruction op operands in
  let* pos := addInstruction ins in
  setEmitted op pos >>
  ret pos.

(** [func (c) isEmitted(code operation.Opcode) bool] *)
Definition isEmitted (code : operation.Opcode) : M Compiler bool :=
  let* cur := currentInstructions in
  if decide (len cur = 0) then ret false
  else let* s := scope in ret (bool_decide (Opcode (emitted s) = code)).

(** [func (c) preventPop()].  The Go slice expression [old[:pos]] is taken
    within the length of [old]. *)
Definition preventPop : M Compiler unit :=
  let* old := currentInstructions in
  let* s := scope in
  let* new := orPanic SliceBoundsOutOfRange (sliceTo old (Position (emitted s))) in
  setScope {| instructions := new; emitted := prevEmitted s;
              prevEmitted := prevEmitted s |}.

(** The bytes [ins] written over [l] from position [pos] on. *)
Fixpoint overwrite (l : list byte) (pos : Z) (ins : list byte) : list byte :=
  match ins with
  | [] => l
  | b :: ins' => overwrite (setIndex l pos b) (pos + 1) ins'
  end.

(** [func (c) changeInstruction(pos int, ins []byte)]: the bytes are
    written in place, and a write outside the stream panics. *)
Definition changeInstruction (pos : Z) (ins : list byte) : M Compiler unit :=
  let* cur := currentInstructions in
  if decide (ins = []) then ret tt
  else if decide (0 <= pos /\ pos + len ins <= len cur)
  then let* s := scope in
       setScope {| instructions := overwrite cur pos ins; emitted := emitted s;
                   prevEmitted := prevEmitted s |}
  else raise IndexOutOfRange.

(** [func (c) changeOperand(pos int, operand int)] *)
Definition changeOperand (pos : Z) (operand : Z) : M Compiler unit :=
  let* cur := currentInstructions in
  let* opcode := orPanic IndexOutOfRange (index cur pos) in
  let* ins := newInstruction opcode [operand] in
  changeInstruction pos ins.

(** [func (c) changeEmittedTo(code operation.Opcode)] *)
Definition changeEmittedTo (code : operation.Opcode) : M Compiler unit :=
  let* s := scope in
  let pos := Position (emitted s) in
  let* ins := newInstruction code [] in
  changeInstruction pos ins >>
  let* s := scope in
  setScope {| instructions := instructions s;
              emitted := {| Opcode := code; Position := Position (emitted s) |};
              prevEmitted := prevEmitted s |}.

(** [func (c) enterScope()] *)
Definition enterScope : M Compiler unit :=
  modify (fun c => setScopes (scopes c ++ [emptyScope]) c) >>
  modify (fun c => setCurrentScope (currentScope c + 1) c) >>
  modify (fun c => setSymbols (Some (symbols.NewEnclosed (symbols c))) c).

(** [func (c) leaveScope() operation.Instruction] *)
Definition leaveScope : M Compiler (list byte) :=
  let* ins := currentInstructions in
  let* c := get in
  let* rest := orPanic SliceBoundsOutOfRange (sliceTo (scopes c) (len (scopes c) - 1)) in
  put (setScopes rest c) >>
  modify (fun c => setCurrentScope (currentScope c - 1) c) >>
  let* c := get in
  match symbols c with
  | Some t => put (setSymbols (symbols.Outer t) c) >> ret ins
  | None => raise NilDereference
  end.

(** [func (c) loadSymbol(s symbols.Symbol)] *)
Definition loadSymbol (s : symbols.Symbol) : M Compiler unit :=
  match symbols.Scope s with
  | symbols.GlobalScope => let* _ := emit operation.GetGlobal [symbols.Index s] in ret tt
  | symbols.LocalScope => let* _ := emit operation.GetLocal [symbols.Index s] in ret tt
  | symbols.BuiltinScope => let* _ := emit operation.GetBuiltin [symbols.Index s] in ret tt
  | symbols.FreeScope => let* _ := emit operation.GetFree [symbols.Index s] in ret tt
  end.

(** [sort.Slice(keys, less)] of the Go library, as the insertion sort it
    runs on a slice of at most twelve elements: each element in turn moves
    left past the elements it is less than, which in the sorted front of
    the slice is to the place in front of the first element it is less
    than.  Elements of which neither is less than the other keep the order
    they came in.  On a slice whose keys are pairwise distinct the result
    does not depend on the order of the slice (see [sortSlice_unique]). *)
Fixpoint insertSorted {A : Type} (less : A -> A -> bool) (x : A) (l : list A) : list A :=
  match l with
  | [] => [x]
  | y :: l' => if less x y then x :: y :: l' else y :: insertSorted less x l'
  end.

Definition sortSlice {A : Type} (less : A -> A -> bool) (l : list A) : list A :=
  fold_left (fun sorted x => insertSorted less x sorted) l [].

(** The comparison of two keys by their texts, whatever travels with a
    key, and the order it sorts a slice into. *)
Definition lessKey {A : Type} (x y : string * A) : bool := String.ltb (fst x) (fst y).

Definition keyBefore {A : Type} (x y : string * A) : Prop := lessKey x y = true.

(** *** The bookkeeping of the emitted instructions

    What the helpers of the compiler rely on, stated on the scope the
    compiler is in. *)

(** The number of bytes of an instruction of opcode [op]. *)
Definition size (op : operation.Opcode) : Z :=
  match operation.operandWidths op with
  | Some ws => 1 + fold_right Z.add 0 ws
  | None => 0
  end.

(** The current scope, its instructions and its two records of emitted
    instructions. *)
Definition theScope (c : Compiler) : Scope :=
  match index (scopes c) (currentScope c) with
  | Some s => s
  | None => emptyScope
  end.

Definition code (c : Compiler) : list byte := instructions (theScope c).
Definition last (c : Compiler) : Emitted := emitted (theScope c).
Definition prev (c : Compiler) : Emitted := prevEmitted (theScope c).

(** The scopes that enclose the current one. *)
Definition outer (c : Compiler) : list Scope :=
  take (Z.to_nat (currentScope c)) (scopes c).

(** The compiler [c] with [s] for its current scope. *)
Definition withScope (s : Scope) (c : Compiler) : Compiler :=
  setScopes (setIndex (scopes c) (currentScope c) s) c.

(** The record [e] is that of an instruction that sits in [ins] and ends
    at position [stop]. *)
Definition records (ins : list byte) (e : Emitted) (stop : Z) : Prop :=
  0 <= Position e /\
  Position e + size (Opcode e) = stop /\
  index ins (Position e) = Some (Opcode e).

(** The compiler is in its innermost scope; in a scope that is not empty
    the last emitted instruction is the one that ends the stream; and when
    that one is a [Pop], the instruction emitted before it is the one that
    sits in front of it, and is no [Pop]. *)
Definition innermost (c : Compiler) : Prop :=
  0 <= currentScope c /\ currentScope c + 1 = len (scopes c).

Definition wf (c : Compiler) : Prop :=
  innermost c /\
  (code c <> [] -> records (code c) (last c) (len (code c))) /\
  (code c <> [] -> Opcode (last c) = operation.Pop ->
   Opcode (prev c) <> operation.Pop /\
   records (code c) (prev c) (Position (last c))).

(** [c'] is [c] with instructions added to its current scope; the
    enclosing scopes are untouched. *)
Definition extends (c c' : Compiler) : Prop :=
  currentScope c' = currentScope c /\
  outer c' = outer c /\
  exists suffix, code c' = code c ++ suffix.

(** [c'] is [c] with at least one instruction added, the last emitted
    being one of those added, and, when that one is a [Pop], the one
    emitted before it as well. *)
Definition grows (c c' : Compiler) : Prop :=
  wf c' /\
  extends c c' /\
  len (code c) < len (code c') /\
  len (code c) <= Position (last c') /\
  (Opcode (last c') = operation.Pop -> len (code c) <= Position (prev c')).

(** [c'] is [c] but for its constants and its symbol table. *)
Definition sameShape (c c' : Compiler) : Prop :=
  scopes c' = scopes c /\ currentScope c' = currentScope c.

(** [isEmitted(operation.Pop)], as a test on the compiler. *)
Definition isEmittedB (op : operation.Opcode) (c : Compiler) : bool :=
  if decide (len (code c) = 0) then false
  else bool_decide (Opcode (last c) = op).

(** The instructions of [c] are [base] and [added], up to the [Pop] that
    [stripPop] takes back when it was the last emitted. *)
Definition uptoPop (c : Compiler) (base added : list byte) : Prop :=
  if isEmittedB operation.Pop c
  then code c = base ++ added ++ [operation.Pop]
  else code c = base ++ added.

(** The end of the body of a function literal whose compiler is [cb] when
    the body is compiled: a [Pop] that ends the stream becomes a
    [ReturnValue]; a stream whose last instruction is then no
    [ReturnValue] gets a [Return].  [ins] are the instructions of the
    function. *)
Definition functionEnd (cb : Compiler) (ins : list byte) : Prop :=
  if isEmittedB operation.Pop cb
  then exists pre, code cb = pre ++ [operation.Pop] /\
                   ins = pre ++ [operation.ReturnValue]
  else if isEmittedB operation.ReturnValue cb
  then ins = code cb /\ exists pre, code cb = pre ++ [operation.ReturnValue]
  else ins = code cb ++ [operation.Return].

(** A jump instruction: the opcode and its 16-bit target, high byte
    first. *)
Definition jumpTo (op : operation.Opcode) (target : Z) : list byte :=
  [op; toByte (target / 256); toByte target].

(** The constant [d] is added at the end of the pool of [c], and an
    instruction [Constant] whose operand reads back as the index of [d] is
    appended to the stream. *)
Definition constantLoaded (d : Data) (c c' : Compiler) : Prop :=
  constants c' = constants c ++ [d] /\
  len (constants c) < 65536 /\
  exists operand,
    code c' = code c ++ operation.Constant :: operand /\
    operation.ReadUint16 operand = Some (len (constants c)) /\
    index (constants c') (len (constants c)) = Some d.

(** The computation [m] leaves the constants of the pool where they are:
    it can only add constants at the end. *)
Definition appendsConstants {A : Type} (m : M Compiler A) : Prop :=
  forall c a c', m c = Ok (a, c') -> exists added, constants c' = constants c ++ added.

(** If the pop at the end of a block was emitted, take it back. *)
Definition stripPop : M Compiler unit :=
  let* popped := isEmitted operation.Pop in
  if popped then preventPop else ret tt.

Section Compile.

(** The method [String()] of an expression node (the [ast] package is not
    part of the sources at hand): its textual rendering. *)
Variable ExpressionString : ast.Expression -> string.

(** The names of [data.Builtins], in their order. *)
Variable Builtins : list string.

(** The keys of a hash literal with what compiling each key and its value
    does, sorted by the rendering of the key: [sort.Slice] on the keys and
    [node.Pairs[k]] for each of them. *)
Definition less (p q : string * M Compiler unit) : bool :=
  String.ltb (fst p) (fst q).

(** [func (c) Compile(node ast.Node) error]: the cases of the type switch
    for the expression nodes and for the statement nodes. *)
Fixpoint CompileExpression (node : ast.Expression) : M Compiler unit :=
  match node with
  | ast.InfixExpression lhs operator rhs =>
      if decide (operator = "<") then
        CompileExpression rhs >>
        CompileExpression lhs >>
        let* _ := emit operation.GreaterThan [] in
        ret tt
      else
        CompileExpression lhs >>
        CompileExpression rhs >>
        if decide (operator = "+") then let* _ := emit operation.Add [] in ret tt
        else if decide (operator = "-") then let* _ := emit operation.Sub [] in ret tt
        else if decide (operator = "*") then let* _ := emit operation.Mul [] in ret tt
        else if decide (operator = "/") then let* _ := emit operation.Div [] in ret tt
        else if decide (operator = ">") then let* _ := emit operation.GreaterThan [] in ret tt
        else if decide (operator = "==") then let* _ := emit operation.Equal [] in ret tt
        else if decide (operator = "!=") then let* _ := emit operation.NotEqual [] in ret tt
        else throw (Errorf "unknown operator %s" [ArgStr operator])
  | ast.PrefixExpression operator rhs =>
      CompileExpression rhs >>
      if decide (operator = "!") then let* _ := emit operation.Bang [] in ret tt
      else if decide (operator = "-") then let* _ := emit operation.Minus [] in ret tt
      else throw (Errorf "unknown operator %s" [ArgStr operator])
  | ast.IntegerLiteral v =>
      let integer := Integer v in
      let* i := addConstant integer in
      let* _ := emit operation.Constant [i] in
      ret tt
  | ast.Boolean v =>
      if v then let* _ := emit operation.True_ [] in ret tt
      else let* _ := emit operation.False_ [] in ret tt
  | ast.StringLiteral v =>
      let str := String_ v in
      let* i := addConstant str in
      let* _ := emit operation.Constant [i] in
      ret tt
  | ast.ArrayLiteral elements =>
      forEach CompileExpression elements >>
      let* _ := emit operation.Array [len elements] in
      ret tt
  | ast.HashLiteral pairs =>
      let keys :=
        map (fun p : ast.Expression * ast.Expression =>
               (ExpressionString (fst p),
                CompileExpression (fst p) >> CompileExpression (snd p)))
            pairs in
      forEach snd (sortSlice less keys) >>
      let* _ := emit operation.Hash [len pairs * 2] in
      ret tt
  | ast.IndexExpression lhs idx =>
      CompileExpression lhs >>
      CompileExpression idx >>
      let* _ := emit operation.Index [] in
      ret tt
  | ast.IfExpression condition consequent alternate =>
      CompileExpression condition >>
      let* jumpNotTruthyPos := emit operation.JumpNotTruthy [9999] in
      forEach CompileStatement consequent >>
      stripPop >>
      let* jumpPos := emit operation.Jump [9999] in
      let* cur := currentInstructions in
      let afterConsequentPos := len cur in
      changeOperand jumpNotTruthyPos afterConsequentPos >>
      match alternate with
      | None => let* _ := emit operation.Null [] in ret tt
      | Some alt => forEach CompileStatement alt >> stripPop
      end >>
      let* cur := currentInstructions in
      let afterAlternatePos := len cur in
      changeOperand jumpPos afterAlternatePos
  | ast.Identifier v =>
      let* found := onSymbols (symbols.Resolve v) in
      match found with
      | None => throw (Errorf "Variable %s is undefined" [ArgStr v])
      | Some symbol => loadSymbol symbol
      end
  | ast.FunctionLiteral parameters body =>
      enterScope >>
      forEach (fun p => let* _ := onSymbols (symbols.Define p) in ret tt) parameters >>
      forEach CompileStatement body >>
      let* popped := isEmitted operation.Pop in
      (if popped then changeEmittedTo operation.ReturnValue else ret tt) >>
      let* returned := isEmitted operation.ReturnValue in
      (if negb returned then let* _ := emit operation.Return [] in ret tt else ret tt) >>
      let* freeSymbols := onSymbols (fun t => (symbols.Free t, t)) in
      let* localCount := onSymbols (fun t => (symbols.DefinitionCount t, t)) in
      let* ins := leaveScope in
      forEach loadSymbol freeSymbols >>
      let compiled :=
        Fn {| data.Instructions := ins; LocalCount := localCount;
              ParamCount := len parameters |} in
      let* fnIndex := addConstant compiled in
      let* _ := emit operation.Closure [fnIndex; len freeSymbols] in
      ret tt
  | ast.CallExpression function arguments =>
      CompileExpression function >>
      forEach CompileExpression arguments >>
      let* _ := emit operation.Call [len arguments] in
      ret tt
  end
with CompileStatement (node : ast.Statement) : M Compiler unit :=
  match node with
  | ast.ExpressionStatement expression =>
      CompileExpression expression >>
      let* _ := emit operation.Pop [] in
      ret tt
  | ast.LetStatement name v =>
      let* symbol := onSymbols (symbols.Define name) in
      CompileExpression v >>
      if decide (symbols.Scope symbol = symbols.GlobalScope)
      then let* _ := emit operation.SetGlobal [symbols.Index symbol] in ret tt
      else let* _ := emit operation.SetLocal [symbols.Index symbol] in ret tt
  | ast.ReturnStatement returnValue =>
      CompileExpression returnValue >>
      let* _ := emit operation.ReturnValue [] in
      ret tt
  end.

(** What compiling a node does to the instructions of the scope it is
    compiled in: an expression adds instructions and does not end in a
    [Pop]; a statement adds instructions; a block adds instructions or, when
    it is empty, leaves the compiler as it is. *)
Definition expressionGrows (e : ast.Expression) : Prop :=
  forall c c', wf c -> CompileExpression e c = Ok (tt, c') ->
    grows c c' /\ Opcode (last c') <> operation.Pop.

Definition statementGrows (s : ast.Statement) : Prop :=
  forall c c', wf c -> CompileStatement s c = Ok (tt, c') -> grows c c'.

Definition blockGrows (b : list ast.Statement) : Prop :=
  forall c c', wf c -> forEach CompileStatement b c = Ok (tt, c') ->
    (b = [] /\ c' = c) \/ grows c c'.

(** The steps of [Compile] on an if-expression, from the compiler [c] to
    the compiler [c'].  The condition is compiled (up to [c1]);
    [JumpNotTruthy] is emitted with the placeholder operand 9999 (up to
    [c2]); the consequent is compiled (up to [c3]) and the [Pop] that its
    last statement emitted, if it did, is taken back, so that [consCode] is
    what the consequent adds; [Jump] is emitted with the placeholder 9999,
    and the operand of [JumpNotTruthy] is set to the position just past that
    [Jump], the length of the stream at that point (up to [c5]); without
    alternate [Null] is emitted, and otherwise the alternate is compiled (up
    to [c6]) with its trailing [Pop] taken back in the same way, [altCode]
    being what is added; and the operand of [Jump] is set to the length of
    the final stream. *)
Definition ifExpressionSteps (condition : ast.Expression)
    (consequent : list ast.Statement) (alternate : option (list ast.Statement))
    (c c' : Compiler) : Prop :=
  exists c1 c2 c3 c5 c6 consCode altCode,
    CompileExpression condition c = Ok (tt, c1) /\
    emit operation.JumpNotTruthy [9999] c1 = Ok (len (code c1), c2) /\
    code c2 = code c1 ++ jumpTo operation.JumpNotTruthy 9999 /\
    forEach (CompileStatement) consequent c2 = Ok (tt, c3) /\
    uptoPop c3 (code c2) consCode /\
    code c5 = code c1 ++ jumpTo operation.JumpNotTruthy (len (code c5)) ++ consCode
                ++ jumpTo operation.Jump 9999 /\
    match alternate with
    | None =>
        emit operation.Null [] c5 = Ok (len (code c5), c6) /\
        altCode = [operation.Null]
    | Some alt =>
        forEach (CompileStatement) alt c5 = Ok (tt, c6) /\
        uptoPop c6 (code c5) altCode
    end /\
    code c' = code c1 ++ jumpTo operation.JumpNotTruthy (len (code c5)) ++ consCode
                ++ jumpTo operation.Jump (len (code c')) ++ altCode /\
    len (code c') < 65536 /\
    grows c c' /\ Opcode (last c') <> operation.Pop.

(** The steps of [Compile] on a function literal, from the compiler [c] to
    the compiler [c'].  The body is compiled in a new scope (from [c0],
    with no instruction, up to [cb]); the instructions of the compiled
    function [fn], the constant added last, are those of the body ended as
    [functionEnd] says; for an empty body they are a [Return] alone; in
    every case they end in [ReturnValue] or in [Return]. *)
Definition functionLiteralSteps (parameters : list string)
    (body : list ast.Statement) (c c' : Compiler) : Prop :=
  exists c0 cb fn,
    (enterScope >>
     forEach (fun p => let* _ := onSymbols (symbols.Define p) in ret tt) parameters) c
      = Ok (tt, c0) /\
    code c0 = [] /\
    forEach (CompileStatement) body c0 = Ok (tt, cb) /\
    functionEnd cb (data.Instructions fn) /\
    constants c' = constants cb ++ [data.Fn fn] /\
    data.ParamCount fn = len parameters /\
    (body = [] -> data.Instructions fn = [operation.Return]) /\
    exists pre,
      data.Instructions fn = pre ++ [operation.ReturnValue] \/
      data.Instructions fn = pre ++ [operation.Return].

(** [Compile] on any node: a program and a block compile their statements
    in order. *)
Definition Compile (node : ast.Node) : M Compiler unit :=
  match node with
  | ast.Program statements => forEach CompileStatement statements
  | ast.BlockStatement statements => forEach CompileStatement statements
  | ast.Stmt s => CompileStatement s
  | ast.Expr e => CompileExpression e
  end.

(** [func New() ptr to Compiler] *)
Definition defineBuiltins : list string -> Z -> symbols.SymbolTable -> symbols.SymbolTable :=
  fix go (l : list string) (i : Z) (t : symbols.SymbolTable) : symbols.SymbolTable :=
    match l with
    | [] => t
    | name :: l' => go l' (i + 1) (snd (symbols.DefineBuiltin i name t))
    end.

Definition New : Compiler :=
  let rootScope := emptyScope in
  let symbolTable := defineBuiltins Builtins 0 symbols.New in
  {| constants := []; symbols := Some symbolTable; scopes := [rootScope];
     currentScope := 0 |}.

(** [func NewWithState(syms, consts)] *)
Definition NewWithState (syms : option symbols.SymbolTable) (consts : list Data)
    : Compiler :=
  setSymbols syms (setConstants consts New).

(** [func (c) Bytecode() ptr to Bytecode] *)
Definition Bytecode_ : M Compiler Bytecode :=
  let* ins := currentInstructions in
  let* c := get in
  ret {| Instructions := ins; Constants := constants c |}.

(** Compiling a node with a new compiler and taking the bytecode. *)
Definition compileNew (node : ast.Node) : result Bytecode :=
  match (Compile node >> Bytecode_) New with
  | Ok (b, _) => Ok b
  | Err e => Err e
  | Panic p => Panic p
  end.

End Compile.

End compiler.

(* ================================================================= *)
(** ** Package [vm] *)

Module vm.

Import data.

Definition GlobalsLimit : Z := 65536.
Definition StackLimit : Z := 2048.
Definition FrameLimit : Z := 1024.

(** The shared [TRUE], [FALSE] and [NULL] values. *)
Definition TRUE : Data := Boolean true.
Definition FALSE : Data := Boolean false.
Definition NULL : Data := Null.

(** Modelled from the spec: the [Stack] type is not part of the sources at
    hand; [Run] reads its fields [items] and [pointer].  "Fixed-capacity
    ordered sequence of Values [...] with a stack pointer pointing one past
    the top.  [push(v)] fails with stack overflow at capacity; [pop()]
    returns and decrements."  [top()] is the value [pop()] would return,
    left in place. *)
Module Stack.
Record t : Type := { items : list value; pointer : Z }.
End Stack.

Definition NewStack (limit : Z) : Stack.t :=
  {| Stack.items := replicate (Z.to_nat limit) None; Stack.pointer := 0 |}.

Definition push (v : value) : M Stack.t unit :=
  fun s =>
    if decide (len (Stack.items s) <= Stack.pointer s) then Err (Errorf "stack overflow" [])
    else if decide (Stack.pointer s < 0) then Panic IndexOutOfRange
    else Ok (tt, {| Stack.items := setIndex (Stack.items s) (Stack.pointer s) v;
                    Stack.pointer := Stack.pointer s + 1 |}).

Definition pop : M Stack.t value :=
  fun s =>
    match index (Stack.items s) (Stack.pointer s - 1) with
    | Some v => Ok (v, {| Stack.items := Stack.items s; Stack.pointer := Stack.pointer s - 1 |})
    | None => Panic IndexOutOfRange
    end.

Definition top : M Stack.t value :=
  fun s =>
    match index (Stack.items s) (Stack.pointer s - 1) with
    | Some v => Ok (v, s)
    | None => Panic IndexOutOfRange
    end.

Module Frame.
(** Modelled from the spec: "Call frame (runtime): (compiled function
    reference, instruction pointer, frame pointer)". *)
Record t : Type :=
  { fn : CompiledFunction; pointer : Z; framePointer : Z }.
End Frame.

(** Modelled from the spec: [NewFrame] is not part of the sources at hand.
    The main loop increments the instruction pointer before it reads an
    opcode, so a new frame starts one before its first instruction. *)
Definition NewFrame (fn : CompiledFunction) (framePointer : Z) : Frame.t :=
  {| Frame.fn := fn; Frame.pointer := -1; Frame.framePointer := framePointer |}.

(** Modelled from the spec: the [Frames] type is not part of the sources
    at hand: a stack of frames of capacity [limit], the current frame first.
    [Run] takes no result from [frames.push], so pushing beyond the
    capacity is the Go panic of writing past the end of the array. *)
Record Frames : Type := { frameItems : list Frame.t; limit : Z }.

Definition NewFrames (limit : Z) : Frames :=
  {| frameItems := []; limit := limit |}.

(** [type VM struct] *)
Record VM : Type :=
  { constants : list Data;
    globals : list value;
    stack : Stack.t;
    frames : Frames }.

Definition setStack (s : Stack.t) (vm : VM) : VM :=
  {| constants := constants vm; globals := globals vm; stack := s; frames := frames vm |}.

Definition setFrames (f : Frames) (vm : VM) : VM :=
  {| constants := constants vm; globals := globals vm; stack := stack vm; frames := f |}.

Definition setGlobals (g : list value) (vm : VM) : VM :=
  {| constants := constants vm; globals := g; stack := stack vm; frames := frames vm |}.

Definition setFrameItems (l : list Frame.t) (vm : VM) : VM :=
  setFrames {| frameItems := l; limit := limit (frames vm) |} vm.

(** A method of [vm.stack] run on the stack of the machine. *)
Definition onStack {A : Type} (m : M Stack.t A) : M VM A :=
  fun vm =>
    match m (stack vm) with
    | Ok (a, s) => Ok (a, setStack s vm)
    | Err e => Err e
    | Panic p => Panic p
    end.

(** [vm.stack.pointer = p] *)
Definition setStackPointer (p : Z) : M VM unit :=
  modify (fun vm => setStack {| Stack.items := Stack.items (stack vm); Stack.pointer := p |} vm).

(** [vm.frames.current()], [vm.frames.push(f)] and [vm.frames.pop()]. *)
Definition current : M VM Frame.t :=
  fun vm =>
    match frameItems (frames vm) with
    | f :: _ => Ok (f, vm)
    | [] => Panic IndexOutOfRange
    end.

Definition pushFrame (f : Frame.t) : M VM unit :=
  fun vm =>
    if decide (limit (frames vm) <= len (frameItems (frames vm)))
    then Panic IndexOutOfRange
    else Ok (tt, setFrameItems (f :: frameItems (frames vm)) vm).

Definition popFrame : M VM Frame.t :=
  fun vm =>
    match frameItems (frames vm) with
    | f :: rest => Ok (f, setFrameItems rest vm)
    | [] => Panic IndexOutOfRange
    end.

(** The frame [f] with its instruction pointer at [p]. *)
Definition withPointer (p : Z) (f : Frame.t) : Frame.t :=
  {| Frame.fn := Frame.fn f; Frame.pointer := p;
     Frame.framePointer := Frame.framePointer f |}.

(** [vm.frames.current().pointer = p]: the current frame is updated in
    place. *)
Definition setPointer (p : Z) : M VM unit :=
  fun vm =>
    match frameItems (frames vm) with
    | f :: rest => Ok (tt, setFrameItems (withPointer p f :: rest) vm)
    | [] => Panic IndexOutOfRange
    end.

(** [vm.frames.current().pointer += d] *)
Definition addPointer (d : Z) : M VM unit :=
  let* f := current in setPointer (Frame.pointer f + d).

(** [func New(bytecode)]: the main frame runs the instructions of the
    program with frame pointer 0. *)
Definition New (instructions : list byte) (consts : list Data) : VM :=
  let mainFn := {| Instructions := instructions; LocalCount := 0; ParamCount := 0 |} in
  let mainFrame := NewFrame mainFn 0 in
  {| constants := consts;
     globals := replicate (Z.to_nat GlobalsLimit) None;
     stack := NewStack StackLimit;
     frames := {| frameItems := [mainFrame]; limit := FrameLimit |} |}.

(** [func NewWithGlobals(bytecode, globals)] *)
Definition NewWithGlobals (instructions : list byte) (consts : list Data)
    (globals : list value) : VM :=
  setGlobals globals (New instructions consts).

(** [func isTruthy(d data.Data) bool] *)
Definition isTruthy (d : value) : bool :=
  match d with
  | Some (Boolean v) => v
  | Some Null => false
  | _ => true
  end.

(** The value of an [int64] computation: wrap-around at 64 bits. *)
Definition int64 (z : Z) : Z := (z + 2 ^ 63) mod 2 ^ 64 - 2 ^ 63.

(** [left.Type()]: a method call on a [nil] interface panics. *)
Definition typeOf {S : Type} (d : value) : M S DataType :=
  match d with
  | Some v => ret (Type_ v)
  | None => raise NilDereference
  end.

(** [d.(ptr to data.Integer).Value]: the type assertion panics on any other
    value. *)
Definition integerValue {S : Type} (d : value) : M S Z :=
  match d with
  | Some (Integer v) => ret v
  | _ => raise InterfaceConversion
  end.

(** [func (vm) executeBinaryIntegerOp(op, left, right) error] *)
Definition executeBinaryIntegerOp (op : operation.Opcode) (left right : value) : M VM unit :=
  let* leftValue := integerValue left in
  let* rightValue := integerValue right in
  let* result :=
    if decide (op = operation.Add) then ret (int64 (leftValue + rightValue))
    else if decide (op = operation.Sub) then ret (int64 (leftValue - rightValue))
    else if decide (op = operation.Mul) then ret (int64 (leftValue * rightValue))
    else if decide (op = operation.Div) then
      if decide (rightValue = 0) then raise IntegerDivideByZero
      else ret (int64 (leftValue ÷ rightValue))
    else throw (Errorf "unknown integer operator: %d" [ArgInt (byteZ op)]) in
  onStack (push (Some (Integer result))).

(** [func (vm) executeBinaryOp(op) error] *)
Definition executeBinaryOp (op : operation.Opcode) : M VM unit :=
  let* right := onStack pop in
  let* left := onStack pop in
  let* leftType := typeOf left in
  let* rightType := typeOf right in
  if decide (leftType = INTEGER_TYPE /\ rightType = INTEGER_TYPE)
  then executeBinaryIntegerOp op left right
  else throw (Errorf "unsupported types for binary operation: %s %s"
                [ArgType leftType; ArgType rightType]).

(** Modelled from the spec: [executeBangOp] is not part of the sources at
    hand.  "Bang: pop, push !truthy". *)
Definition executeBangOp : M VM unit :=
  let* operand := onStack pop in
  onStack (push (Some (if isTruthy operand then FALSE else TRUE))).

(** Modelled from the spec: [executeMinusOp] is not part of the sources at
    hand.  "Minus: pop Integer, push negated"; any other operand is a type
    mismatch (the text of that error is not given by the spec). *)
Definition executeMinusOp : M VM unit :=
  let* operand := onStack pop in
  let* t := typeOf operand in
  if decide (t = INTEGER_TYPE)
  then let* v := integerValue operand in
       onStack (push (Some (Integer (int64 (- v)))))
  else throw (Errorf "unsupported type for negation: %s" [ArgType t]).

(** Equality of two values as [Equal] sees it: by value on Integer,
    Boolean and String, by identity on the shared [NULL]; values of
    different types, and the other variants, are unequal. *)
Definition sameValue (l r : Data) : bool :=
  match l, r with
  | Integer a, Integer b => a =? b
  | Boolean a, Boolean b => Bool.eqb a b
  | String_ a, String_ b => String.eqb a b
  | Null, Null => true
  | _, _ => false
  end.

Definition nativeBool (b : bool) : Data := if b then TRUE else FALSE.

(** Modelled from the spec: [executeComparison] is not part of the sources
    at hand.  "Equal/NotEqual work on any pair of same-typed primitive
    Values; cross-type compares false for Equal and true for NotEqual.
    GreaterThan is defined only on Integers; otherwise fail unknown
    operator." *)
Definition executeComparison (op : operation.Opcode) : M VM unit :=
  let* right := onStack pop in
  let* left := onStack pop in
  let* leftType := typeOf left in
  let* rightType := typeOf right in
  match left, right with
  | Some l, Some r =>
      if decide (op = operation.Equal)
      then onStack (push (Some (nativeBool (sameValue l r))))
      else if decide (op = operation.NotEqual)
      then onStack (push (Some (nativeBool (negb (sameValue l r)))))
      else match l, r with
           | Integer a, Integer b =>
               if decide (op = operation.GreaterThan)
               then onStack (push (Some (nativeBool (b <? a))))
               else throw (Errorf "unknown operator: %d" [ArgInt (byteZ op)])
           | _, _ =>
               throw (Errorf "unknown operator: %d (%s %s)"
                        [ArgInt (byteZ op); ArgType leftType; ArgType rightType])
           end
  | _, _ => raise NilDereference
  end.

(** Modelled from the spec: [buildArray] is not part of the sources at
    hand.  "Array n: pop n, push Array of n": the elements are the stack
    slots from [startIndex] up to [endIndex]. *)
Definition buildArray (startIndex endIndex : Z) : M VM Data :=
  let* vm := get in
  let* upto := orPanic SliceBoundsOutOfRange (sliceTo (Stack.items (stack vm)) endIndex) in
  let* elements := orPanic SliceBoundsOutOfRange (sliceFrom upto startIndex) in
  ret (Array elements).

(** The hashable values: Integer, Boolean and String. *)
Definition hashable (d : Data) : bool :=
  match d with
  | Integer _ | Boolean _ | String_ _ => true
  | _ => false
  end.

Fixpoint hashPairs (l : list value) : M VM (list (Data * value)) :=
  match l with
  | Some k :: v :: rest =>
      if hashable k
      then let* pairs := hashPairs rest in ret ((k, v) :: pairs)
      else throw (Errorf "unusable as hash key: %s" [ArgType (Type_ k)])
  | None :: _ :: _ => raise NilDereference
  | _ => ret []
  end.

(** Modelled from the spec: [buildHash] is not part of the sources at
    hand.  "Hash 2n: pop 2n, push Hash of n pairs"; a key that is not
    hashable fails with "unusable as hash key: <type>". *)
Definition buildHash (startIndex endIndex : Z) : M VM Data :=
  let* vm := get in
  let* upto := orPanic SliceBoundsOutOfRange (sliceTo (Stack.items (stack vm)) endIndex) in
  let* elements := orPanic SliceBoundsOutOfRange (sliceFrom upto startIndex) in
  let* pairs := hashPairs elements in
  ret (Hash pairs).

(** The value stored under a key, the last pair of that key winning. *)
Fixpoint hashGet (k : Data) (pairs : list (Data * value)) : option value :=
  match pairs with
  | [] => None
  | (k', v) :: rest =>
      match hashGet k rest with
      | Some w => Some w
      | None => if sameValue k k' then Some v else None
      end
  end.

(** Modelled from the spec: [executeIndexExpr] is not part of the sources
    at hand.  "Array[Integer] returns element or Null for out-of-range (does
    not fail).  Hash[hashable] returns stored value or Null; non-hashable
    key type fails unusable as hash key: <type>."  The text of the error for
    any other operand pair is not given by the spec. *)
Definition executeIndexExpr (left idx : value) : M VM unit :=
  match left, idx with
  | Some (Array elements), Some (Integer i) =>
      match index elements i with
      | Some v => onStack (push v)
      | None => onStack (push (Some NULL))
      end
  | Some (Hash pairs), Some k =>
      if hashable k
      then match hashGet k pairs with
           | Some v => onStack (push v)
           | None => onStack (push (Some NULL))
           end
      else throw (Errorf "unusable as hash key: %s" [ArgType (Type_ k)])
  | Some l, _ => throw (Errorf "index operator not supported: %s" [ArgType (Type_ l)])
  | None, _ => raise NilDereference
  end.

(** [operation.ReadUint16(instructions[pointer+1:])] and the same for
    [ReadUint8]. *)
Definition operand16 (instructions : list byte) (pointer : Z) : M VM Z :=
  let* rest := orPanic SliceBoundsOutOfRange (sliceFrom instructions (pointer + 1)) in
  orPanic IndexOutOfRange (operation.ReadUint16 rest).

Definition operand8 (instructions : list byte) (pointer : Z) : M VM Z :=
  let* rest := orPanic SliceBoundsOutOfRange (sliceFrom instructions (pointer + 1)) in
  orPanic IndexOutOfRange (operation.ReadUint8 rest).

(** The opcodes that have a [case] in the [switch] of [Run]. *)
Definition dispatched : list operation.Opcode :=
  [ operation.Pop; operation.Constant; operation.True_; operation.False_;
    operation.Bang; operation.Minus;
    operation.Add; operation.Sub; operation.Mul; operation.Div;
    operation.Equal; operation.NotEqual; operation.GreaterThan;
    operation.Jump; operation.JumpNotTruthy; operation.Null;
    operation.SetGlobal; operation.GetGlobal;
    operation.SetLocal; operation.GetLocal;
    operation.Array; operation.Hash; operation.Index;
    operation.Call; operation.ReturnValue; operation.Return ].

(** The [switch op] of [Run]: one branch for each [case], in the order of
    the source, and nothing to do when no case matches (the switch has no
    [default]).  [pointer] and [instructions] are the local variables of
    [Run], read before the switch. *)
Definition dispatch (op : operation.Opcode) (pointer : Z) (instructions : list byte)
    : M VM unit :=
  if decide (op = operation.Pop) then
    let* _ := onStack pop in ret tt
  else if decide (op = operation.Constant) then
    let* constIndex := operand16 instructions pointer in
    addPointer 2 >>
    let* vm := get in
    let* c := orPanic IndexOutOfRange (index (constants vm) constIndex) in
    onStack (push (Some c))
  else if decide (op = operation.True_) then
    onStack (push (Some TRUE))
  else if decide (op = operation.False_) then
    onStack (push (Some FALSE))
  else if decide (op = operation.Bang) then
    executeBangOp
  else if decide (op = operation.Minus) then
    executeMinusOp
  else if decide (op ∈ [operation.Add; operation.Sub; operation.Mul; operation.Div]) then
    executeBinaryOp op
  else if decide (op ∈ [operation.Equal; operation.NotEqual; operation.GreaterThan]) then
    executeComparison op
  else if decide (op = operation.Jump) then
    let* pos := operand16 instructions pointer in
    setPointer (pos - 1)
  else if decide (op = operation.JumpNotTruthy) then
    let* pos := operand16 instructions pointer in
    addPointer 2 >>
    let* condition := onStack pop in
    if negb (isTruthy condition) then setPointer (pos - 1) else ret tt
  else if decide (op = operation.Null) then
    onStack (push (Some NULL))
  else if decide (op = operation.SetGlobal) then
    let* idx := operand16 instructions pointer in
    addPointer 2 >>
    let* v := onStack pop in
    let* vm := get in
    let* _ := orPanic IndexOutOfRange (index (globals vm) idx) in
    put (setGlobals (setIndex (globals vm) idx v) vm)
  else if decide (op = operation.GetGlobal) then
    let* idx := operand16 instructions pointer in
    addPointer 2 >>
    let* vm := get in
    let* v := orPanic IndexOutOfRange (index (globals vm) idx) in
    onStack (push v)
  else if decide (op = operation.SetLocal) then
    let* localIndex := operand8 instructions pointer in
    addPointer 1 >>
    let* frame := current in
    let* v := onStack pop in
    let* vm := get in
    let slot := Frame.framePointer frame + localIndex in
    let* _ := orPanic IndexOutOfRange (index (Stack.items (stack vm)) slot) in
    put (setStack {| Stack.items := setIndex (Stack.items (stack vm)) slot v;
                     Stack.pointer := Stack.pointer (stack vm) |} vm)
  else if decide (op = operation.GetLocal) then
    let* localIndex := operand8 instructions pointer in
    addPointer 1 >>
    let* frame := current in
    let* vm := get in
    let* v := orPanic IndexOutOfRange
                (index (Stack.items (stack vm)) (Frame.framePointer frame + localIndex)) in
    onStack (push v)
  else if decide (op = operation.Array) then
    let* numElements := operand16 instructions pointer in
    addPointer 2 >>
    let* vm := get in
    let* array := buildArray (Stack.pointer (stack vm) - numElements) (Stack.pointer (stack vm)) in
    setStackPointer (Stack.pointer (stack vm) - numElements) >>
    onStack (push (Some array))
  else if decide (op = operation.Hash) then
    let* numElements := operand16 instructions pointer in
    addPointer 2 >>
    let* vm := get in
    let* hash := buildHash (Stack.pointer (stack vm) - numElements) (Stack.pointer (stack vm)) in
    setStackPointer (Stack.pointer (stack vm) - numElements) >>
    onStack (push (Some hash))
  else if decide (op = operation.Index) then
    let* idx := onStack pop in
    let* left := onStack pop in
    executeIndexExpr left idx
  else if decide (op = operation.Call) then
    addPointer 1 >>
    let* callee := onStack top in
    match callee with
    | Some (Fn fn) =>
        let* vm := get in
        let frame := NewFrame fn (Stack.pointer (stack vm)) in
        pushFrame frame >>
        setStackPointer (Frame.framePointer frame + LocalCount fn)
    | _ => throw (Errorf "calling non-function" [])
    end
  else if decide (op = operation.ReturnValue) then
    let* v := onStack pop in
    let* frame := popFrame in
    setStackPointer (Frame.framePointer frame - 1) >>
    onStack (push v)
  else if decide (op = operation.Return) then
    let* frame := popFrame in
    setStackPointer (Frame.framePointer frame - 1) >>
    onStack (push (Some NULL))
  else ret tt.

(** The body of the [for] loop of [Run]: advance the instruction pointer
    of the current frame, read the opcode there, dispatch. *)
Definition step : M VM unit :=
  addPointer 1 >>
  let* frame := current in
  let pointer := Frame.pointer frame in
  let instructions := Instructions (Frame.fn frame) in
  let* op := orPanic IndexOutOfRange (index instructions pointer) in
  dispatch op pointer instructions.

(** The condition of the [for] loop of [Run]. *)
Definition running (vm : VM) : result bool :=
  match frameItems (frames vm) with
  | f :: _ => Ok (Frame.pointer f <? len (Instructions (Frame.fn f)) - 1)
  | [] => Panic IndexOutOfRange
  end.

(** [func (vm) Run() error]: the loop, run for at most [fuel] iterations.
    [Some (Ok vm')] is the return of [nil] in the final state [vm'],
    [Some (Err e)] the return of the error [e], [Some (Panic p)] a panic,
    and [None] says that the loop is still running when the fuel is spent. *)
Fixpoint Run (fuel : nat) (vm : VM) : option (result VM) :=
  match running vm with
  | Ok false => Some (Ok vm)
  | Ok true =>
      match fuel with
      | O => None
      | S fuel' =>
          match step vm with
          | Ok (_, vm') => Run fuel' vm'
          | Err e => Some (Err e)
          | Panic p => Some (Panic p)
          end
      end
  | Err e => Some (Err e)
  | Panic p => Some (Panic p)
  end.

(** The bytes [bs] are the next ones that the frame [f] reads: they sit in
    its instructions right behind its instruction pointer. *)
Definition next (f : Frame.t) (bs : list byte) : Prop :=
  exists pre post,
    Instructions (Frame.fn f) = pre ++ bs ++ post /\ len pre = Frame.pointer f + 1.

(** [Run] has returned [nil]. *)
Definition returnsNil (r : option (result VM)) : bool :=
  match r with
  | Some (Ok _) => true
  | _ => false
  end.

(** The globals that [Run] leaves when it returns [nil]. *)
Definition globalsOf (r : option (result VM)) : list value :=
  match r with
  | Some (Ok m) => globals m
  | _ => []
  end.

(** What [Run] leaves when it returns [nil]: the stack pointer, and the
    slot at the stack pointer, where the value that the last [Pop] removed
    is still to be read. *)
Definition outcome (r : option (result VM)) : option (Z * value) :=
  match r with
  | Some (Ok m) =>
      match index (Stack.items (stack m)) (Stack.pointer (stack m)) with
      | Some v => Some (Stack.pointer (stack m), v)
      | None => None
      end
  | _ => None
  end.

End vm.

(* ================================================================= *)
(** ** Package [eval] *)

Module eval.

(** What the tree-walking evaluator returns: a value of the data model, or
    a [data.Error] with its message. *)
Inductive Object : Type :=
| Value (d : data.Data)
| Error (Message : string).

Section Prefix.

(** The text of the type tags, and the two evaluators that
    [evalPrefixExpression] hands over to ([evalBangOperatorExpression] and
    [evalMinusPrefixOperatorExpression] are not part of the sources at
    hand). *)
Variable tag : DataType -> string.
Variable evalBangOperatorExpression : value -> result Object.
Variable evalMinusPrefixOperatorExpression : value -> result Object.

(** [func evalError(str string, rest ...interface{}) ptr to data.Error] *)
Definition evalError (str : string) (rest : list fmtArg) : Object :=
  Error (sprintf tag str rest).

(** [func evalPrefixExpression(operator string, right data.Data) data.Data];
    the call [right.Type()] of the default case panics on a nil [right]. *)
Definition evalPrefixExpression (operator : string) (right : value) : result Object :=
  if decide (operator = "!") then evalBangOperatorExpression right
  else if decide (operator = "-") then evalMinusPrefixOperatorExpression right
  else match right with
       | Some d =>
           Ok (evalError "Unknown operator: %s%s"
                 [ArgStr operator; ArgType (data.Type_ d)])
       | None => Panic NilDereference
       end.

End Prefix.

End eval.

(* ================================================================= *)
(** ** Example programs and machines *)

Module examples.

Import data.

(** A machine whose stack holds [vs] and whose main frame runs [ins]. *)
Definition machine (ins : list byte) (consts : list Data) (vs : list value) : vm.VM :=
  vm.setStack {| vm.Stack.items := vs ++ replicate 4 None;
                 vm.Stack.pointer := len vs |} (vm.New ins consts).

Definition mainFrame (ins : list byte) : vm.Frame.t :=
  vm.NewFrame {| Instructions := ins; LocalCount := 0; ParamCount := 0 |} 0.

(** [Jump 4] in front of a byte that is skipped. *)
Definition jumpProgram : list byte :=
  [operation.Jump; x00; x04; operation.Pop; operation.Null].

(** [JumpNotTruthy 5] in front of a byte that is skipped. *)
Definition jumpNotTruthyProgram : list byte :=
  [operation.JumpNotTruthy; x00; x05; operation.Pop; operation.Pop; operation.Null].

(** A function of one parameter that returns Null. *)
Definition oneParameter : CompiledFunction :=
  {| Instructions := [operation.Return]; LocalCount := 1; ParamCount := 1 |}.

(** [f()] and [f(7)] for the constant [f] of index 0, as the compiler lays
    a call out: the callee, the arguments, [Call argc]. *)
Definition callNoArgument : list byte :=
  [operation.Constant; x00; x00; operation.Call; x00; operation.Pop].

Definition callOneArgument : list byte :=
  [operation.Constant; x00; x00; operation.Constant; x00; x01;
   operation.Call; x01; operation.Pop].

(** ["a" + "b"] *)
Definition addStrings : list byte :=
  [operation.Constant; x00; x00; operation.Constant; x00; x01; operation.Add;
   operation.Pop].

(** A rendering of expressions for the examples: a literal and an
    identifier are rendered by their text. *)
Definition render (e : ast.Expression) : string :=
  match e with
  | ast.Identifier v => v
  | ast.IntegerLiteral v => decimal v
  | ast.StringLiteral v => v
  | ast.Boolean v => if v then "true" else "false"
  | _ => ""
  end.

(** The compiler after it has compiled [e] as the first expression. *)
Definition compiled (e : ast.Expression) : compiler.Compiler :=
  match compiler.CompileExpression render e (compiler.New []) with
  | Ok (_, c) => c
  | _ => compiler.New []
  end.

(** [if (true) { 10 }] and [if (true) { 10 } else { 20 }] *)
Definition ifTrueTen : ast.Expression :=
  ast.IfExpression (ast.Boolean true)
    [ast.ExpressionStatement (ast.IntegerLiteral 10)] None.

Definition ifTrueTenElseTwenty : ast.Expression :=
  ast.IfExpression (ast.Boolean true)
    [ast.ExpressionStatement (ast.IntegerLiteral 10)]
    (Some [ast.ExpressionStatement (ast.IntegerLiteral 20)]).

(** [fn(a) { a }], [fn() { }] and [fn() { return 5; }] *)
Definition identity : ast.Expression :=
  ast.FunctionLiteral ["a"] [ast.ExpressionStatement (ast.Identifier "a")].

Definition emptyFunction : ast.Expression := ast.FunctionLiteral [] [].

Definition returnFive : ast.Expression :=
  ast.FunctionLiteral [] [ast.ReturnStatement (ast.IntegerLiteral 5)].

(** The hash literal [{1: "a", 1: "b"}], whose two keys are two nodes of the
    same text, with its entries in the two orders in which [range] can
    visit them. *)
Definition sameKeyTwice : list (ast.Expression * ast.Expression) :=
  [ (ast.IntegerLiteral 1, ast.StringLiteral "a");
    (ast.IntegerLiteral 1, ast.StringLiteral "b") ].

Definition sameKeyTwice' : list (ast.Expression * ast.Expression) :=
  [ (ast.IntegerLiteral 1, ast.StringLiteral "b");
    (ast.IntegerLiteral 1, ast.StringLiteral "a") ].

Definition hashProgram (pairs : list (ast.Expression * ast.Expression)) : ast.Node :=
  ast.Program [ast.ExpressionStatement (ast.HashLiteral pairs)].

(** The new compiler after one [emit]. *)
Definition afterEmit (op : operation.Opcode) (operands : list Z) : compiler.Compiler :=
  match compiler.emit op operands (compiler.New []) with
  | Ok (_, c) => c
  | _ => compiler.New []
  end.

(** The new compiler after it has compiled the statement [s]. *)
Definition compiledStatement (s : ast.Statement) : compiler.Compiler :=
  match compiler.CompileStatement render s (compiler.New []) with
  | Ok (_, c) => c
  | _ => compiler.New []
  end.

(** [{1: "a", 2: "b"}], with its entries in the two orders. *)
Definition twoKeys : list (ast.Expression * ast.Expression) :=
  [ (ast.IntegerLiteral 1, ast.StringLiteral "a");
    (ast.IntegerLiteral 2, ast.StringLiteral "b") ].

Definition twoKeys' : list (ast.Expression * ast.Expression) :=
  [ (ast.IntegerLiteral 2, ast.StringLiteral "b");
    (ast.IntegerLiteral 1, ast.StringLiteral "a") ].

(** A machine in a call: the frame of [fn], with frame pointer [fp], on
    top of the main frame. *)
Definition called (fn : CompiledFunction) (fp : Z) (ins : list byte)
    (consts : list Data) (vs : list value) : vm.VM :=
  vm.setFrameItems [vm.NewFrame fn fp; mainFrame ins] (machine ins consts vs).

(** A function that returns the value on top of the stack, and one that
    returns at once. *)
Definition returnsTop : CompiledFunction :=
  {| Instructions := [operation.ReturnValue]; LocalCount := 0; ParamCount := 0 |}.

Definition returnsAtOnce : CompiledFunction :=
  {| Instructions := [operation.Return]; LocalCount := 0; ParamCount := 0 |}.

End examples.

(* ================================================================= *)
(** * Properties *)

(* ================================================================= *)
(** ** The monad *)

Lemma bind_Ok {S A B : Type} (m : M S A) (k : A -> M S B) (s s' : S) (a : A) :
  m s = Ok (a, s') -> bind m k s = k a s'.
Proof. intros H. unfold bind. rewrite H. reflexivity. Qed.

Lemma bind_Ok_inv {S A B : Type} (m : M S A) (k : A -> M S B) (s s2 : S) (b : B) :
  bind m k s = Ok (b, s2) ->
  exists a s1, m s = Ok (a, s1) /\ k a s1 = Ok (b, s2).
Proof.
  unfold bind. destruct (m s) as [[a s1]| |]; try discriminate.
  intros H. exists a, s1. split; [reflexivity | exact H].
Qed.

Lemma index_Some {A : Type} (l : list A) (i : Z) (x : A) :
  index l i = Some x <-> 0 <= i /\ l !! Z.to_nat i = Some x.
Proof.
  unfold index. destruct (decide (0 <= i)); split.
  - intros H. split; assumption.
  - intros [_ H]. exact H.
  - discriminate.
  - intros [H _]. contradiction.
Qed.

Lemma index_lt {A : Type} (l : list A) (i : Z) (x : A) :
  index l i = Some x -> 0 <= i < len l.
Proof.
  intros H. apply index_Some in H as [H0 H]. apply lookup_lt_Some in H.
  unfold len. lia.
Qed.

Lemma index_is_Some {A : Type} (l : list A) (i : Z) :
  0 <= i < len l -> exists x, index l i = Some x.
Proof.
  unfold len. intros H.
  destruct (lookup_lt_is_Some_2 l (Z.to_nat i)) as [x Hx]; [lia |].
  exists x. apply index_Some. split; [lia | exact Hx].
Qed.

(** Membership in a list that is written out: by the position of the
    element, or from a hypothesis [E] that gives the element or a shorter
    list it is in. *)
Ltac elem_here :=
  repeat first [apply list_elem_of_here | apply list_elem_of_further].

Ltac in_list E :=
  first
    [ subst; solve [elem_here]
    | repeat (apply elem_of_cons in E as [E|E]; [subst; solve [elem_here] |]);
      apply elem_of_nil in E; contradiction ].

Ltac not_in_list E :=
  repeat (apply elem_of_cons in E as [E|E]; [discriminate E |]);
  apply elem_of_nil in E; contradiction.

(** The [switch] of [Run] on a given opcode: the cases before it are
    passed over, its own case is taken. *)
Ltac skip_cases :=
  repeat (rewrite decide_False
            by (first [discriminate | let E := fresh in intros E; not_in_list E])).

Ltac take_case :=
  unfold vm.dispatch; skip_cases;
  rewrite decide_True by (first [reflexivity | elem_here]).

(* ================================================================= *)
(** ** The main loop of the machine *)

(** The machine after the increment of the instruction pointer that opens
    an iteration of the loop of [Run]. *)
Lemma step_dispatch (m : vm.VM) (f : vm.Frame.t) (rest : list vm.Frame.t)
    (op : byte) :
  vm.frameItems (vm.frames m) = f :: rest ->
  index (data.Instructions (vm.Frame.fn f)) (vm.Frame.pointer f + 1) = Some op ->
  vm.step m =
    vm.dispatch op (vm.Frame.pointer f + 1) (data.Instructions (vm.Frame.fn f))
      (vm.setFrameItems (vm.withPointer (vm.Frame.pointer f + 1) f :: rest) m).
Proof.
  intros Hf Hop. unfold vm.step, vm.addPointer, vm.current, vm.setPointer, bind.
  rewrite Hf. cbn. rewrite Hf. cbn. rewrite Hop. reflexivity.
Qed.

(** An opcode without a [case] falls through the [switch]. *)
Lemma dispatch_undispatched (op : byte) (p : Z) (ins : list byte) (m : vm.VM) :
  op ∉ vm.dispatched -> vm.dispatch op p ins m = Ok (tt, m).
Proof.
  intros H. unfold vm.dispatch.
  repeat (case_decide as E; [exfalso; apply H; clear H; in_list E |]; clear E).
  reflexivity.
Qed.

Lemma withPointer_same (f : vm.Frame.t) : vm.withPointer (vm.Frame.pointer f) f = f.
Proof. destruct f. reflexivity. Qed.

Lemma running_eq (m : vm.VM) (f : vm.Frame.t) (rest : list vm.Frame.t) :
  vm.frameItems (vm.frames m) = f :: rest ->
  vm.running m =
    Ok (vm.Frame.pointer f <? len (data.Instructions (vm.Frame.fn f)) - 1).
Proof. intros Hf. unfold vm.running. rewrite Hf. reflexivity. Qed.

(** One iteration of the loop on an opcode without a [case]: nothing but
    the instruction pointer changes, and it moves by one byte. *)
Lemma step_undispatched (m : vm.VM) (f : vm.Frame.t) (rest : list vm.Frame.t)
    (op : byte) :
  vm.frameItems (vm.frames m) = f :: rest ->
  index (data.Instructions (vm.Frame.fn f)) (vm.Frame.pointer f + 1) = Some op ->
  op ∉ vm.dispatched ->
  vm.step m =
    Ok (tt, vm.setFrameItems (vm.withPointer (vm.Frame.pointer f + 1) f :: rest) m).
Proof.
  intros Hf Hop Hno. rewrite (step_dispatch m f rest op Hf Hop).
  apply dispatch_undispatched. exact Hno.
Qed.

(** C10.  The switch of [Run] has no default branch.  On any byte without
    a [case] (a byte that is no opcode at all included), whatever follows
    it, one iteration of the loop moves the instruction pointer of the
    current frame by one byte and changes nothing else, returns no error,
    and the loop goes on with the byte behind it.  So from any state in
    which every byte after the instruction pointer is without a [case], the
    loop goes over these bytes one at a time, changes nothing but the
    instruction pointer, and [Run] returns [nil]. *)
Theorem Run_undispatched_returns_nil (m : vm.VM) (f : vm.Frame.t)
    (rest : list vm.Frame.t) :
  vm.frameItems (vm.frames m) = f :: rest ->
  (forall op,
     index (data.Instructions (vm.Frame.fn f)) (vm.Frame.pointer f + 1) = Some op ->
     op ∉ vm.dispatched ->
     vm.step m =
       Ok (tt, vm.setFrameItems (vm.withPointer (vm.Frame.pointer f + 1) f :: rest) m) /\
     forall fuel,
       vm.Run (S fuel) m =
       vm.Run fuel (vm.setFrameItems (vm.withPointer (vm.Frame.pointer f + 1) f :: rest) m)) /\
  (-1 <= vm.Frame.pointer f ->
   (forall i b, vm.Frame.pointer f < i ->
      index (data.Instructions (vm.Frame.fn f)) i = Some b -> b ∉ vm.dispatched) ->
   exists fuel m',
     vm.Run fuel m = Some (Ok m') /\
     vm.stack m' = vm.stack m /\
     vm.globals m' = vm.globals m /\
     vm.constants m' = vm.constants m /\
     vm.frameItems (vm.frames m') =
       vm.withPointer
         (Z.max (vm.Frame.pointer f) (len (data.Instructions (vm.Frame.fn f)) - 1)) f
       :: rest).
Proof.
  intros Hf0. split.
  - intros op Hop Hno.
    pose proof (step_undispatched m f rest op Hf0 Hop Hno) as Hstep.
    split; [exact Hstep |]. intros fuel.
    pose proof (index_lt _ _ _ Hop) as Hlt.
    cbn [vm.Run]. rewrite (running_eq m f rest Hf0).
    destruct (Z.ltb_spec (vm.Frame.pointer f)
                (len (data.Instructions (vm.Frame.fn f)) - 1)) as [_|Hge];
      [| clear - Hlt Hge; lia].
    rewrite Hstep. reflexivity.
  - revert Hf0.
    remember (Z.to_nat (len (data.Instructions (vm.Frame.fn f)) - 1 - vm.Frame.pointer f))
      as k eqn:Hk.
    revert m f Hk. induction k as [|k IH]; intros m f Hk Hf Hp Hun.
    + exists 0%nat, m. cbn. rewrite (running_eq m f rest Hf).
      destruct (Z.ltb_spec (vm.Frame.pointer f)
                  (len (data.Instructions (vm.Frame.fn f)) - 1)) as [Hlt|Hge];
        [clear - Hk Hlt; lia |].
      repeat split; try reflexivity.
      rewrite Z.max_l by (clear - Hge; lia). rewrite withPointer_same. exact Hf.
    + destruct (index_is_Some (data.Instructions (vm.Frame.fn f)) (vm.Frame.pointer f + 1))
        as [op Hop]; [clear - Hk Hp; lia |].
      assert (Hno : op ∉ vm.dispatched)
        by (apply (Hun _ _ (Z.lt_succ_diag_r (vm.Frame.pointer f)) Hop)).
      pose proof (step_undispatched m f rest op Hf Hop Hno) as Hstep.
      destruct (IH (vm.setFrameItems (vm.withPointer (vm.Frame.pointer f + 1) f :: rest) m)
                   (vm.withPointer (vm.Frame.pointer f + 1) f))
        as (fuel & m' & Hrun & Hs & Hg & Hc & Hfr).
      * cbn. clear - Hk. lia.
      * reflexivity.
      * cbn. clear - Hp. lia.
      * cbn. intros i b Hi Hb. apply (Hun i b); [clear - Hi; lia | exact Hb].
      * exists (S fuel), m'. cbn. rewrite (running_eq m f rest Hf).
        destruct (Z.ltb_spec (vm.Frame.pointer f)
                    (len (data.Instructions (vm.Frame.fn f)) - 1)) as [Hlt|Hge];
          [| clear - Hk Hge; lia].
        rewrite Hstep. repeat split; try assumption.
        rewrite Hfr. cbn. f_equal. unfold vm.withPointer. cbn. f_equal.
        clear - Hlt. lia.
Qed.

Lemma Run_undispatched_returns_nil_witness :
  (vm.step (vm.New [xff; operation.True_; operation.False_] []) =
     Ok (tt, vm.setFrameItems
               [vm.withPointer 0 (examples.mainFrame [xff; operation.True_; operation.False_])]
               (vm.New [xff; operation.True_; operation.False_] [])) /\
   forall fuel,
     vm.Run (S fuel) (vm.New [xff; operation.True_; operation.False_] []) =
     vm.Run fuel
       (vm.setFrameItems
          [vm.withPointer 0 (examples.mainFrame [xff; operation.True_; operation.False_])]
          (vm.New [xff; operation.True_; operation.False_] []))) /\
  exists fuel m',
    vm.Run fuel (vm.New [xff; x14; x1c] []) = Some (Ok m') /\
    vm.stack m' = vm.stack (vm.New [xff; x14; x1c] []) /\
    vm.globals m' = vm.globals (vm.New [xff; x14; x1c] []) /\
    vm.constants m' = vm.constants (vm.New [xff; x14; x1c] []) /\
    vm.frameItems (vm.frames m') =
      [vm.withPointer 2
         (vm.NewFrame {| data.Instructions := [xff; x14; x1c]; data.LocalCount := 0;
                         data.ParamCount := 0 |} 0)].
Proof.
  split.
  - apply (proj1 (Run_undispatched_returns_nil
                    (vm.New [xff; operation.True_; operation.False_] [])
                    (examples.mainFrame [xff; operation.True_; operation.False_]) []
                    eq_refl) xff eq_refl).
    unfold vm.dispatched. vm_compute.
    intros H; repeat (inversion H as [|? ? ? H']; clear H; subst; rename H' into H);
      inversion H.
  - apply (proj2 (Run_undispatched_returns_nil (vm.New [xff; x14; x1c] [])
             (vm.NewFrame {| data.Instructions := [xff; x14; x1c]; data.LocalCount := 0;
                             data.ParamCount := 0 |} 0) [] eq_refl)).
    + cbn. lia.
    + cbn. intros i b Hi Hb. apply index_Some in Hb as [H0 Hb].
      destruct (Z.to_nat i) as [|[|[|n]]] eqn:E; cbn in Hb; try discriminate;
        injection Hb as <-; unfold vm.dispatched; vm_compute;
        intros H; repeat (inversion H as [|? ? ? H']; clear H; subst; rename H' into H);
        inversion H.
Defined.

(* ================================================================= *)
(** ** The stack and the operands *)

Lemma onStack_pop (m : vm.VM) (v : value) :
  index (vm.Stack.items (vm.stack m)) (vm.Stack.pointer (vm.stack m) - 1) = Some v ->
  vm.onStack vm.pop m =
    Ok (v, vm.setStack {| vm.Stack.items := vm.Stack.items (vm.stack m);
                          vm.Stack.pointer := vm.Stack.pointer (vm.stack m) - 1 |} m).
Proof. intros H. unfold vm.onStack, vm.pop. rewrite H. reflexivity. Qed.

Lemma onStack_top (m : vm.VM) (v : value) :
  index (vm.Stack.items (vm.stack m)) (vm.Stack.pointer (vm.stack m) - 1) = Some v ->
  vm.onStack vm.top m = Ok (v, vm.setStack (vm.stack m) m).
Proof. intros H. unfold vm.onStack, vm.top. rewrite H. reflexivity. Qed.

Lemma onStack_push (m : vm.VM) (v : value) :
  0 <= vm.Stack.pointer (vm.stack m) < len (vm.Stack.items (vm.stack m)) ->
  vm.onStack (vm.push v) m =
    Ok (tt, vm.setStack
              {| vm.Stack.items :=
                   setIndex (vm.Stack.items (vm.stack m)) (vm.Stack.pointer (vm.stack m)) v;
                 vm.Stack.pointer := vm.Stack.pointer (vm.stack m) + 1 |} m).
Proof.
  intros H. unfold vm.onStack, vm.push.
  destruct (decide _) as [E|_]; [lia |].
  destruct (decide _) as [E|_]; [lia |]. reflexivity.
Qed.

Lemma setStack_same (m : vm.VM) : vm.setStack (vm.stack m) m = m.
Proof. destruct m. reflexivity. Qed.

(** The 16-bit operand of the instruction at [p] is read from the two
    bytes that follow the opcode, the high byte first. *)
Lemma operand16_eq (ins : list byte) (p : Z) (hi lo : byte) (m : vm.VM) :
  index ins (p + 1) = Some hi ->
  index ins (p + 2) = Some lo ->
  vm.operand16 ins p m = Ok (256 * byteZ hi + byteZ lo, m).
Proof.
  intros Hhi Hlo.
  pose proof (index_lt _ _ _ Hhi) as Hr.
  apply index_Some in Hhi as [H1 Hhi]. apply index_Some in Hlo as [H2 Hlo].
  unfold vm.operand16, sliceFrom, bind.
  destruct (decide _) as [_|E]; [| lia]. cbn.
  rewrite (drop_S _ _ _ Hhi).
  replace (S (Z.to_nat (p + 1))) with (Z.to_nat (p + 2)) by lia.
  rewrite (drop_S _ _ _ Hlo). reflexivity.
Qed.

(* ================================================================= *)
(** ** Jumps *)

(** What is not truthy: the Boolean false and Null, nothing else. *)
Lemma isTruthy_false (d : value) :
  vm.isTruthy d = false <-> d = Some (data.Boolean false) \/ d = Some data.Null.
Proof.
  split.
  - destruct d as [[]|]; cbn; try discriminate.
    + intros ->. left. reflexivity.
    + intros _. right. reflexivity.
  - intros [-> | ->]; reflexivity.
Qed.

(** C7.  [Jump target] leaves the instruction pointer at [target - 1], so
    that the increment of the next iteration reads the opcode at [target];
    [JumpNotTruthy target] moves the pointer past its two operand bytes,
    pops the condition, and sets the pointer to [target - 1] exactly when
    the condition is not truthy; a value is truthy unless it is the Boolean
    false or Null. *)
Theorem jumps_set_pointer (m : vm.VM) (f : vm.Frame.t) (rest : list vm.Frame.t)
    (hi lo : byte) :
  vm.frameItems (vm.frames m) = f :: rest ->
  index (data.Instructions (vm.Frame.fn f)) (vm.Frame.pointer f + 2) = Some hi ->
  index (data.Instructions (vm.Frame.fn f)) (vm.Frame.pointer f + 3) = Some lo ->
  let ins := data.Instructions (vm.Frame.fn f) in
  let p := vm.Frame.pointer f + 1 in
  let target := 256 * byteZ hi + byteZ lo in
  (index ins p = Some operation.Jump ->
     vm.step m = Ok (tt, vm.setFrameItems (vm.withPointer (target - 1) f :: rest) m) /\
     forall op, index ins target = Some op ->
       vm.step (vm.setFrameItems (vm.withPointer (target - 1) f :: rest) m) =
         vm.dispatch op target ins
           (vm.setFrameItems (vm.withPointer target f :: rest) m)) /\
  (index ins p = Some operation.JumpNotTruthy ->
     forall condition,
       index (vm.Stack.items (vm.stack m)) (vm.Stack.pointer (vm.stack m) - 1)
         = Some condition ->
       vm.step m =
         Ok (tt,
             vm.setStack
               {| vm.Stack.items := vm.Stack.items (vm.stack m);
                  vm.Stack.pointer := vm.Stack.pointer (vm.stack m) - 1 |}
               (vm.setFrameItems
                  (vm.withPointer (if vm.isTruthy condition then p + 2 else target - 1) f
                   :: rest) m))) /\
  (forall d, vm.isTruthy d = false <->
             d = Some (data.Boolean false) \/ d = Some data.Null).
Proof.
  intros Hf Hhi Hlo ins p target.
  replace (vm.Frame.pointer f + 2) with (p + 1) in Hhi by (subst p; lia).
  replace (vm.Frame.pointer f + 3) with (p + 2) in Hlo by (subst p; lia).
  split; [| split].
  - intros Hop. split.
    + rewrite (step_dispatch m f rest _ Hf Hop). fold ins p.
      take_case. unfold bind. rewrite (operand16_eq ins p hi lo _ Hhi Hlo). reflexivity.
    + intros op Hop'.
      rewrite (step_dispatch _ (vm.withPointer (target - 1) f) rest op).
      * cbn. fold ins. replace (target - 1 + 1) with target by lia. reflexivity.
      * reflexivity.
      * cbn. fold ins. replace (target - 1 + 1) with target by lia. exact Hop'.
  - intros Hop condition Hc.
    rewrite (step_dispatch m f rest _ Hf Hop). fold ins p.
    take_case. unfold bind. rewrite (operand16_eq ins p hi lo _ Hhi Hlo).
    unfold vm.addPointer, vm.current, vm.setPointer, bind. cbn.
    rewrite (onStack_pop _ condition) by exact Hc. cbn.
    destruct (vm.isTruthy condition); cbn; reflexivity.
  - apply isTruthy_false.
Qed.

Lemma jumps_set_pointer_witness :
  vm.step (vm.New examples.jumpProgram []) =
    Ok (tt, vm.setFrameItems
              [vm.withPointer 3 (examples.mainFrame examples.jumpProgram)]
              (vm.New examples.jumpProgram [])) /\
  vm.step (examples.machine examples.jumpNotTruthyProgram [] [Some vm.FALSE]) =
    Ok (tt, vm.setStack
              {| vm.Stack.items := [Some vm.FALSE] ++ replicate 4 None;
                 vm.Stack.pointer := 0 |}
              (vm.setFrameItems
                 [vm.withPointer 4 (examples.mainFrame examples.jumpNotTruthyProgram)]
                 (examples.machine examples.jumpNotTruthyProgram [] [Some vm.FALSE]))) /\
  vm.step (examples.machine examples.jumpNotTruthyProgram [] [Some (data.Integer 0)]) =
    Ok (tt, vm.setStack
              {| vm.Stack.items := [Some (data.Integer 0)] ++ replicate 4 None;
                 vm.Stack.pointer := 0 |}
              (vm.setFrameItems
                 [vm.withPointer 2 (examples.mainFrame examples.jumpNotTruthyProgram)]
                 (examples.machine examples.jumpNotTruthyProgram [] [Some (data.Integer 0)]))).
Proof.
  split; [| split].
  - apply (jumps_set_pointer (vm.New examples.jumpProgram [])
             (examples.mainFrame examples.jumpProgram) [] x00 x04
             eq_refl eq_refl eq_refl).
    reflexivity.
  - apply (proj1 (proj2 (jumps_set_pointer
             (examples.machine examples.jumpNotTruthyProgram [] [Some vm.FALSE])
             (examples.mainFrame examples.jumpNotTruthyProgram) [] x00 x05
             eq_refl eq_refl eq_refl)) eq_refl (Some vm.FALSE) eq_refl).
  - apply (proj1 (proj2 (jumps_set_pointer
             (examples.machine examples.jumpNotTruthyProgram [] [Some (data.Integer 0)])
             (examples.mainFrame examples.jumpNotTruthyProgram) [] x00 x05
             eq_refl eq_refl eq_refl)) eq_refl (Some (data.Integer 0)) eq_refl).
Defined.

(* ================================================================= *)
(** ** Binary operations *)

(** The machine with the two operands of a binary operation popped. *)
Lemma executeBinaryOp_eq (m : vm.VM) (op : byte) (l r : data.Data) :
  index (vm.Stack.items (vm.stack m)) (vm.Stack.pointer (vm.stack m) - 1) = Some (Some r) ->
  index (vm.Stack.items (vm.stack m)) (vm.Stack.pointer (vm.stack m) - 2) = Some (Some l) ->
  vm.executeBinaryOp op m =
    (if decide (data.Type_ l = INTEGER_TYPE /\ data.Type_ r = INTEGER_TYPE)
     then vm.executeBinaryIntegerOp op (Some l) (Some r)
     else throw (Errorf "unsupported types for binary operation: %s %s"
                   [ArgType (data.Type_ l); ArgType (data.Type_ r)]))
      (vm.setStack {| vm.Stack.items := vm.Stack.items (vm.stack m);
                      vm.Stack.pointer := vm.Stack.pointer (vm.stack m) - 2 |} m).
Proof.
  intros Hr Hl. unfold vm.executeBinaryOp, bind.
  rewrite (onStack_pop m (Some r) Hr).
  rewrite (onStack_pop _ (Some l)).
  - cbn. replace (vm.Stack.pointer (vm.stack m) - 1 - 1)
      with (vm.Stack.pointer (vm.stack m) - 2) by lia.
    reflexivity.
  - cbn. replace (vm.Stack.pointer (vm.stack m) - 1 - 1)
      with (vm.Stack.pointer (vm.stack m) - 2) by lia.
    exact Hl.
Qed.

Lemma int64_in_range (z : Z) : - 2 ^ 63 <= z < 2 ^ 63 -> vm.int64 z = z.
Proof. intros H. unfold vm.int64. rewrite Z.mod_small by lia. lia. Qed.

(** The truncated quotient of two 64-bit integers is a 64-bit integer, but
    for the least integer divided by -1. *)
Lemma quot_in_range (l r : Z) :
  - 2 ^ 63 <= l < 2 ^ 63 -> - 2 ^ 63 <= r < 2 ^ 63 -> r <> 0 ->
  ~ (l = - 2 ^ 63 /\ r = -1) ->
  - 2 ^ 63 <= l ÷ r < 2 ^ 63.
Proof.
  intros Hl Hr Hr0 Hmin.
  assert (Hq : Z.abs (l ÷ r) = Z.abs l / Z.abs r).
  { rewrite <- Z.quot_abs by exact Hr0. apply Z.quot_div_nonneg; lia. }
  assert (Habs : Z.abs (l ÷ r) <= Z.abs l).
  { rewrite Hq. apply Z.div_le_upper_bound; [lia | nia]. }
  destruct (Z.eq_dec l (- 2 ^ 63)) as [->|Hne]; [| lia].
  assert (r <> -1) by (intros ->; apply Hmin; split; reflexivity).
  destruct (Z.eq_dec r 1) as [->|Hr1]; [rewrite Z.quot_1_r; lia |].
  assert (Z.abs (- 2 ^ 63 ÷ r) < 2 ^ 63); [| lia].
  rewrite Hq. apply Z.div_lt_upper_bound; lia.
Qed.

(** C9.  Division by zero is unguarded.  When [Div] executes on two
    Integers, a right operand 0 is the Go panic of an integer division by
    zero: the iteration returns no error, and neither does [Run]; a right
    operand other than 0 pushes the quotient truncated toward zero, in
    64-bit arithmetic (the least integer divided by -1 wraps to itself,
    every other quotient is exact). *)
Theorem division_by_zero_unguarded (m : vm.VM) (f : vm.Frame.t)
    (rest : list vm.Frame.t) (l r : Z) :
  vm.frameItems (vm.frames m) = f :: rest ->
  index (data.Instructions (vm.Frame.fn f)) (vm.Frame.pointer f + 1)
    = Some operation.Div ->
  index (vm.Stack.items (vm.stack m)) (vm.Stack.pointer (vm.stack m) - 1)
    = Some (Some (data.Integer r)) ->
  index (vm.Stack.items (vm.stack m)) (vm.Stack.pointer (vm.stack m) - 2)
    = Some (Some (data.Integer l)) ->
  (r = 0 ->
     vm.step m = Panic IntegerDivideByZero /\
     forall fuel, vm.Run (S fuel) m = Some (Panic IntegerDivideByZero)) /\
  (r <> 0 ->
     vm.step m =
       Ok (tt,
           vm.setStack
             {| vm.Stack.items :=
                  setIndex (vm.Stack.items (vm.stack m))
                    (vm.Stack.pointer (vm.stack m) - 2)
                    (Some (data.Integer (vm.int64 (l ÷ r))));
                vm.Stack.pointer := vm.Stack.pointer (vm.stack m) - 1 |}
             (vm.setFrameItems (vm.withPointer (vm.Frame.pointer f + 1) f :: rest) m)) /\
     (- 2 ^ 63 <= l < 2 ^ 63 -> - 2 ^ 63 <= r < 2 ^ 63 ->
      ~ (l = - 2 ^ 63 /\ r = -1) -> vm.int64 (l ÷ r) = l ÷ r)).
Proof.
  intros Hf Hop Hr Hl.
  assert (Hstep : vm.step m =
            vm.executeBinaryIntegerOp operation.Div (Some (data.Integer l))
              (Some (data.Integer r))
              (vm.setStack
                 {| vm.Stack.items := vm.Stack.items (vm.stack m);
                    vm.Stack.pointer := vm.Stack.pointer (vm.stack m) - 2 |}
                 (vm.setFrameItems (vm.withPointer (vm.Frame.pointer f + 1) f :: rest) m))).
  { rewrite (step_dispatch m f rest _ Hf Hop). take_case.
    rewrite (executeBinaryOp_eq _ _ (data.Integer l) (data.Integer r)) by assumption.
    reflexivity. }
  pose proof (index_lt _ _ _ Hl) as Hl'. pose proof (index_lt _ _ _ Hop) as Hop'.
  split.
  - intros ->. assert (Hp : vm.step m = Panic IntegerDivideByZero).
    { rewrite Hstep. unfold vm.executeBinaryIntegerOp, bind. cbn.
      skip_cases. rewrite decide_True by reflexivity. reflexivity. }
    split; [exact Hp |].
    intros fuel. cbn. rewrite (running_eq m f rest Hf).
    destruct (Z.ltb_spec (vm.Frame.pointer f)
                (len (data.Instructions (vm.Frame.fn f)) - 1)) as [_|Hge]; [| lia].
    rewrite Hp. reflexivity.
  - intros Hr0. split.
    + rewrite Hstep. unfold vm.executeBinaryIntegerOp, bind. cbn.
      skip_cases. rewrite decide_True by reflexivity.
      rewrite decide_False by exact Hr0. cbn.
      rewrite onStack_push by (cbn; lia). cbn.
      replace (vm.Stack.pointer (vm.stack m) - 2 + 1)
        with (vm.Stack.pointer (vm.stack m) - 1) by lia.
      reflexivity.
    + intros Hlr Hrr Hmin. apply int64_in_range.
      apply quot_in_range; assumption.
Qed.

Lemma division_by_zero_unguarded_witness :
  (vm.step (examples.machine [operation.Div] []
              [Some (data.Integer 7); Some (data.Integer 0)])
     = Panic IntegerDivideByZero /\
   forall fuel,
     vm.Run (S fuel) (examples.machine [operation.Div] []
                        [Some (data.Integer 7); Some (data.Integer 0)])
       = Some (Panic IntegerDivideByZero)) /\
  vm.step (examples.machine [operation.Div] []
             [Some (data.Integer (-7)); Some (data.Integer 2)]) =
    Ok (tt,
        vm.setStack
          {| vm.Stack.items :=
               [Some (data.Integer (-3)); Some (data.Integer 2)] ++ replicate 4 None;
             vm.Stack.pointer := 1 |}
          (vm.setFrameItems [vm.withPointer 0 (examples.mainFrame [operation.Div])]
             (examples.machine [operation.Div] []
                [Some (data.Integer (-7)); Some (data.Integer 2)]))).
Proof.
  split.
  - apply (proj1 (division_by_zero_unguarded
             (examples.machine [operation.Div] []
                [Some (data.Integer 7); Some (data.Integer 0)])
             (examples.mainFrame [operation.Div]) [] 7 0
             eq_refl eq_refl eq_refl eq_refl) eq_refl).
  - apply (proj1 (proj2 (division_by_zero_unguarded
             (examples.machine [operation.Div] []
                [Some (data.Integer (-7)); Some (data.Integer 2)])
             (examples.mainFrame [operation.Div]) [] (-7) 2
             eq_refl eq_refl eq_refl eq_refl) ltac:(discriminate))).
Defined.

Lemma append_empty_r (s : string) : String.append s "" = s.
Proof.
  induction s as [|c s IH]; [reflexivity |].
  change (String c (String.append s "") = String c s). rewrite IH. reflexivity.
Qed.

(** The operands of a binary operation one of which is nil: the call of
    [Type()] on it panics. *)
Lemma executeBinaryOp_nil (m : vm.VM) (op : byte) (l r : value) :
  index (vm.Stack.items (vm.stack m)) (vm.Stack.pointer (vm.stack m) - 1) = Some r ->
  index (vm.Stack.items (vm.stack m)) (vm.Stack.pointer (vm.stack m) - 2) = Some l ->
  l = None \/ r = None ->
  vm.executeBinaryOp op m = Panic NilDereference.
Proof.
  intros Hr Hl Hnil. unfold vm.executeBinaryOp, bind.
  rewrite (onStack_pop m r Hr).
  rewrite (onStack_pop _ l).
  - destruct l as [dl|]; [| reflexivity].
    destruct r as [dr|]; [| reflexivity].
    destruct Hnil as [E|E]; discriminate E.
  - cbn. replace (vm.Stack.pointer (vm.stack m) - 1 - 1)
      with (vm.Stack.pointer (vm.stack m) - 2) by lia.
    exact Hl.
Qed.

(** C3, as the code has it.  A binary operation ([Add] included) on the two
    operands it pops: when both are values ([dl] and [dr], not nil) and
    they are not both Integers, two Strings among them, it fails with the
    error "unsupported types for binary operation: <l> <r>" of the types of
    the left and the right operand, and no String is pushed; when one of
    them is nil (a global or a local that is read before it is set), the
    call of [Type()] on it is the Go panic of a nil dereference, and no
    error is returned. *)
Theorem binary_op_needs_integers (m : vm.VM) (f : vm.Frame.t)
    (rest : list vm.Frame.t) (op : byte) (l r : value) :
  vm.frameItems (vm.frames m) = f :: rest ->
  index (data.Instructions (vm.Frame.fn f)) (vm.Frame.pointer f + 1) = Some op ->
  op ∈ [operation.Add; operation.Sub; operation.Mul; operation.Div] ->
  index (vm.Stack.items (vm.stack m)) (vm.Stack.pointer (vm.stack m) - 1) = Some r ->
  index (vm.Stack.items (vm.stack m)) (vm.Stack.pointer (vm.stack m) - 2) = Some l ->
  (forall dl dr, l = Some dl -> r = Some dr ->
     ~ (data.Type_ dl = INTEGER_TYPE /\ data.Type_ dr = INTEGER_TYPE) ->
     vm.step m =
       Err (Errorf "unsupported types for binary operation: %s %s"
              [ArgType (data.Type_ dl); ArgType (data.Type_ dr)]) /\
     forall tag,
       error_message tag
         (Errorf "unsupported types for binary operation: %s %s"
            [ArgType (data.Type_ dl); ArgType (data.Type_ dr)]) =
       String.append "unsupported types for binary operation: "
         (String.append (tag (data.Type_ dl)) (String.append " " (tag (data.Type_ dr))))) /\
  (l = None \/ r = None -> vm.step m = Panic NilDereference).
Proof.
  intros Hf Hop Hin Hr Hl.
  assert (Hstep : vm.step m =
            vm.executeBinaryOp op
              (vm.setFrameItems (vm.withPointer (vm.Frame.pointer f + 1) f :: rest) m)).
  { rewrite (step_dispatch m f rest _ Hf Hop).
    unfold vm.dispatch.
    repeat (rewrite decide_False
              by (intros ->; not_in_list Hin)).
    rewrite decide_True by exact Hin. reflexivity. }
  split.
  - intros dl dr -> -> Hty. split.
    + rewrite Hstep.
      rewrite (executeBinaryOp_eq _ _ dl dr) by assumption.
      rewrite decide_False by exact Hty. reflexivity.
    + intros tag. unfold error_message. cbn.
      rewrite append_empty_r. reflexivity.
  - intros Hnil. rewrite Hstep.
    apply (executeBinaryOp_nil _ op l r); assumption.
Qed.

Lemma binary_op_needs_integers_witness :
  vm.step (examples.machine [operation.Add] []
             [Some (data.String_ "a"); Some (data.String_ "b")]) =
    Err (Errorf "unsupported types for binary operation: %s %s"
           [ArgType STRING_TYPE; ArgType STRING_TYPE]) /\
  vm.step (examples.machine [operation.Add] [] [None; Some (data.Integer 1)]) =
    Panic NilDereference.
Proof.
  split.
  - apply (proj1 (binary_op_needs_integers
             (examples.machine [operation.Add] []
                [Some (data.String_ "a"); Some (data.String_ "b")])
             (examples.mainFrame [operation.Add]) [] operation.Add
             (Some (data.String_ "a")) (Some (data.String_ "b")) eq_refl eq_refl
             ltac:(elem_here) eq_refl eq_refl)
             (data.String_ "a") (data.String_ "b") eq_refl eq_refl).
    intros [H _]. discriminate H.
  - apply (proj2 (binary_op_needs_integers
             (examples.machine [operation.Add] [] [None; Some (data.Integer 1)])
             (examples.mainFrame [operation.Add]) [] operation.Add
             None (Some (data.Integer 1)) eq_refl eq_refl
             ltac:(elem_here) eq_refl eq_refl)).
    left. reflexivity.
Defined.

(** C3 as the spec states it fails: [Add] on the Strings "a" and "b"
    pushes no String, it is an error, and so is the run of the program
    ["a" + "b"]. *)
Lemma add_of_strings_is_an_error :
  vm.step (examples.machine [operation.Add] []
             [Some (data.String_ "a"); Some (data.String_ "b")]) =
    Err (Errorf "unsupported types for binary operation: %s %s"
           [ArgType STRING_TYPE; ArgType STRING_TYPE]) /\
  vm.Run 3 (vm.New examples.addStrings [data.String_ "a"; data.String_ "b"]) =
    Some (Err (Errorf "unsupported types for binary operation: %s %s"
                 [ArgType STRING_TYPE; ArgType STRING_TYPE])) /\
  ~ (exists m',
       vm.step (examples.machine [operation.Add] []
                  [Some (data.String_ "a"); Some (data.String_ "b")]) = Ok (tt, m') /\
       index (vm.Stack.items (vm.stack m')) (vm.Stack.pointer (vm.stack m') - 1)
         = Some (Some (data.String_ "ab"))).
Proof.
  split; [vm_compute; reflexivity |].
  split; [vm_compute; reflexivity |].
  intros (m' & H & _). vm_compute in H. discriminate H.
Qed.

(** A nil operand is what the compiled program [let a = a + 1;] runs
    into: the global [a] is read before it is set, and [Add] panics. *)
Example unset_global_operand_panics :
  exists bytecode,
    compiler.compileNew examples.render []
      (ast.Program
         [ast.LetStatement "a"
            (ast.InfixExpression (ast.Identifier "a") "+" (ast.IntegerLiteral 1))])
      = Ok bytecode /\
    vm.Run 3 (vm.New (compiler.Instructions bytecode) (compiler.Constants bytecode))
      = Some (Panic NilDereference).
Proof. eexists. split; [vm_compute; reflexivity |]. vm_compute. reflexivity. Qed.

(* ================================================================= *)
(** ** Calls *)

(** The [case operation.Call] of [Run] on a machine whose stack top is [v]:
    the operand byte is stepped over without being read. *)
Lemma step_call (m : vm.VM) (caller : vm.Frame.t) (rest : list vm.Frame.t)
    (v : value) :
  vm.frameItems (vm.frames m) = caller :: rest ->
  index (data.Instructions (vm.Frame.fn caller)) (vm.Frame.pointer caller + 1)
    = Some operation.Call ->
  index (vm.Stack.items (vm.stack m)) (vm.Stack.pointer (vm.stack m) - 1) = Some v ->
  vm.step m =
    match v with
    | Some (data.Fn fn) =>
        if decide (vm.limit (vm.frames m) <= len (caller :: rest))
        then Panic IndexOutOfRange
        else
          Ok (tt,
              vm.setStack
                {| vm.Stack.items := vm.Stack.items (vm.stack m);
                   vm.Stack.pointer := vm.Stack.pointer (vm.stack m) + data.LocalCount fn |}
                (vm.setFrameItems
                   (vm.NewFrame fn (vm.Stack.pointer (vm.stack m))
                    :: vm.withPointer (vm.Frame.pointer caller + 2) caller :: rest) m))
    | _ => Err (Errorf "calling non-function" [])
    end.
Proof.
  intros Hf Hop Hv.
  rewrite (step_dispatch m caller rest _ Hf Hop). take_case.
  unfold vm.addPointer, vm.current, vm.setPointer, bind. cbn.
  rewrite (onStack_top _ v) by exact Hv. cbn.
  replace (vm.Frame.pointer caller + 1 + 1) with (vm.Frame.pointer caller + 2) by lia.
  destruct v as [[]|]; try reflexivity.
  unfold vm.pushFrame. cbn.
  destruct (decide _); reflexivity.
Qed.

(** C1, as the code has it.  A [Call] on a machine whose stack top is a
    compiled function [fn] steps over its operand byte without reading it
    and checks no arity ([ParamCount fn] and the operand are free here);
    it pushes a new frame whose frame pointer is the stack pointer [sp],
    sets the stack pointer to [sp + LocalCount fn], leaves the stack slots
    as they are, and the next iteration reads the first opcode of [fn]. *)
Theorem call_pushes_frame (m : vm.VM) (caller : vm.Frame.t)
    (rest : list vm.Frame.t) (fn : data.CompiledFunction) :
  vm.frameItems (vm.frames m) = caller :: rest ->
  index (data.Instructions (vm.Frame.fn caller)) (vm.Frame.pointer caller + 1)
    = Some operation.Call ->
  index (vm.Stack.items (vm.stack m)) (vm.Stack.pointer (vm.stack m) - 1)
    = Some (Some (data.Fn fn)) ->
  len (caller :: rest) < vm.limit (vm.frames m) ->
  exists m',
    vm.step m = Ok (tt, m') /\
    vm.frameItems (vm.frames m') =
      {| vm.Frame.fn := fn; vm.Frame.pointer := -1;
         vm.Frame.framePointer := vm.Stack.pointer (vm.stack m) |}
      :: vm.withPointer (vm.Frame.pointer caller + 2) caller :: rest /\
    vm.Stack.pointer (vm.stack m') = vm.Stack.pointer (vm.stack m) + data.LocalCount fn /\
    vm.Stack.items (vm.stack m') = vm.Stack.items (vm.stack m) /\
    (forall op, index (data.Instructions fn) 0 = Some op ->
       vm.step m' =
         vm.dispatch op 0 (data.Instructions fn)
           (vm.setFrameItems
              ({| vm.Frame.fn := fn; vm.Frame.pointer := 0;
                  vm.Frame.framePointer := vm.Stack.pointer (vm.stack m) |}
               :: vm.withPointer (vm.Frame.pointer caller + 2) caller :: rest) m')).
Proof.
  intros Hf Hop Hv Hlim.
  eexists. split.
  - rewrite (step_call m caller rest _ Hf Hop Hv).
    rewrite decide_False by lia. reflexivity.
  - split; [reflexivity |]. split; [reflexivity |]. split; [reflexivity |].
    intros op Hop'.
    rewrite (step_dispatch _ (vm.NewFrame fn (vm.Stack.pointer (vm.stack m)))
               (vm.withPointer (vm.Frame.pointer caller + 2) caller :: rest) op).
    + reflexivity.
    + reflexivity.
    + exact Hop'.
Qed.

Lemma call_pushes_frame_witness :
  exists m',
    vm.step (examples.machine [operation.Call; x00] [] [Some (data.Fn examples.oneParameter)])
      = Ok (tt, m') /\
    vm.frameItems (vm.frames m') =
      [ {| vm.Frame.fn := examples.oneParameter; vm.Frame.pointer := -1;
           vm.Frame.framePointer := 1 |};
        vm.withPointer 1 (examples.mainFrame [operation.Call; x00]) ] /\
    vm.Stack.pointer (vm.stack m') = 2.
Proof.
  destruct (call_pushes_frame
              (examples.machine [operation.Call; x00] [] [Some (data.Fn examples.oneParameter)])
              (examples.mainFrame [operation.Call; x00]) [] examples.oneParameter
              eq_refl eq_refl eq_refl eq_refl)
    as (m' & Hstep & Hfr & Hsp & _).
  exists m'. split; [exact Hstep |]. split; [exact Hfr | exact Hsp].
Defined.

(** C1 as the spec states it fails.  The call [f()] of a function of one
    parameter is no arity error: the function runs and [Run] returns nil.
    And the call [f(7)], with the argument above the callee as the compiler
    lays it out, pushes no frame with frame pointer [sp - 1]: it fails, as
    the value on top of the stack is the argument. *)
Lemma call_checks_no_arity :
  data.ParamCount examples.oneParameter = 1 /\
  index examples.callNoArgument 4 = Some x00 /\
  vm.returnsNil
    (vm.Run 4 (vm.New examples.callNoArgument [data.Fn examples.oneParameter])) = true /\
  index examples.callOneArgument 7 = Some x01 /\
  vm.Run 3 (vm.New examples.callOneArgument [data.Fn examples.oneParameter; data.Integer 7])
    = Some (Err (Errorf "calling non-function" [])).
Proof.
  split; [reflexivity |]. split; [reflexivity |].
  split; [vm_compute; reflexivity |].
  split; [reflexivity |]. vm_compute. reflexivity.
Qed.

(** C2, as the code has it.  When [Call] executes, the callable is the
    value on top of the stack, [stack[sp - 1]], whatever the operand is.
    A compiled function is called; every other value, a Closure and a
    Builtin included, fails with the error "calling non-function". *)
Theorem call_accepts_compiled_functions_only (m : vm.VM) (caller : vm.Frame.t)
    (rest : list vm.Frame.t) (v : value) :
  vm.frameItems (vm.frames m) = caller :: rest ->
  index (data.Instructions (vm.Frame.fn caller)) (vm.Frame.pointer caller + 1)
    = Some operation.Call ->
  index (vm.Stack.items (vm.stack m)) (vm.Stack.pointer (vm.stack m) - 1) = Some v ->
  len (caller :: rest) < vm.limit (vm.frames m) ->
  ((exists fn, v = Some (data.Fn fn)) -> exists m', vm.step m = Ok (tt, m')) /\
  ((forall fn, v <> Some (data.Fn fn)) ->
     vm.step m = Err (Errorf "calling non-function" [])) /\
  (forall fn free, v = Some (data.Closure fn free) ->
     vm.step m = Err (Errorf "calling non-function" [])) /\
  (forall name, v = Some (data.Builtin name) ->
     vm.step m = Err (Errorf "calling non-function" [])).
Proof.
  intros Hf Hop Hv Hlim.
  pose proof (step_call m caller rest v Hf Hop Hv) as Hstep.
  split; [| split; [| split]].
  - intros [fn ->]. rewrite decide_False in Hstep by lia. eexists. exact Hstep.
  - intros Hno. rewrite Hstep. destruct v as [[]|]; try reflexivity.
    exfalso. apply (Hno fn). reflexivity.
  - intros fn free ->. exact Hstep.
  - intros name ->. exact Hstep.
Qed.

Lemma call_accepts_compiled_functions_only_witness :
  vm.step (examples.machine [operation.Call; x00] [] [Some (data.Builtin "len")])
    = Err (Errorf "calling non-function" []) /\
  exists m',
    vm.step (examples.machine [operation.Call; x00] [] [Some (data.Fn examples.oneParameter)])
      = Ok (tt, m').
Proof.
  split.
  - apply (proj2 (proj2 (proj2 (call_accepts_compiled_functions_only
             (examples.machine [operation.Call; x00] [] [Some (data.Builtin "len")])
             (examples.mainFrame [operation.Call; x00]) [] (Some (data.Builtin "len"))
             eq_refl eq_refl eq_refl eq_refl))) "len" eq_refl).
  - apply (proj1 (call_accepts_compiled_functions_only
             (examples.machine [operation.Call; x00] [] [Some (data.Fn examples.oneParameter)])
             (examples.mainFrame [operation.Call; x00]) []
             (Some (data.Fn examples.oneParameter))
             eq_refl eq_refl eq_refl eq_refl)).
    exists examples.oneParameter. reflexivity.
Defined.

(** C2 as the spec states it fails.  A Builtin and a Closure on top of the
    stack are not accepted by [Call 0], and a compiled function at
    [stack[sp - argc - 1]] under its one argument is not found by
    [Call 1]. *)
Lemma call_rejects_builtin_and_closure :
  vm.step (examples.machine [operation.Call; x00] [] [Some (data.Builtin "len")])
    = Err (Errorf "calling non-function" []) /\
  vm.step (examples.machine [operation.Call; x00] []
             [Some (data.Closure examples.oneParameter [])])
    = Err (Errorf "calling non-function" []) /\
  vm.step (examples.machine [operation.Call; x01] []
             [Some (data.Fn examples.oneParameter); Some (data.Integer 7)])
    = Err (Errorf "calling non-function" []).
Proof. repeat split; vm_compute; reflexivity. Qed.

(* ================================================================= *)
(** ** Package [operation]: [Lookup] *)

Lemma operations_lookup (b : byte) :
  operation.operations !! b =
    if decide (b = operation.Constant)
    then Some {| operation.Name := "Constant"; operation.OperandSizes := [2] |}
    else if decide (b = operation.Add)
    then Some {| operation.Name := "Add"; operation.OperandSizes := [] |}
    else None.
Proof.
  unfold operation.operations.
  destruct (decide (b = operation.Constant)) as [->|Hc].
  - apply lookup_insert_eq.
  - rewrite lookup_insert_ne by congruence.
    destruct (decide (b = operation.Add)) as [->|Ha].
    + apply lookup_singleton_eq.
    + apply lookup_singleton_ne. congruence.
Qed.

(** C8, as the code has it.  For every byte [b], [Lookup b] is the
    operation (name and operand widths) that the table [operations] has for
    [b] when it has one, and otherwise exactly the error
    "Undefined Opcode: <n>" with the decimal value of the byte; the table
    has the two opcodes [Constant] and [Add], and each of them is looked up
    with success. *)
Theorem Lookup_registered_or_undefined (b : byte) (tag : DataType -> string) :
  match operation.operations !! b with
  | Some o =>
      operation.Lookup b = Ok o /\ (b = operation.Constant \/ b = operation.Add)
  | None =>
      operation.Lookup b = Err (Errorf "Undefined Opcode: %d" [ArgInt (byteZ b)]) /\
      error_message tag (Errorf "Undefined Opcode: %d" [ArgInt (byteZ b)]) =
        String.append "Undefined Opcode: " (decimal (byteZ b)) /\
      b <> operation.Constant /\ b <> operation.Add
  end /\
  operation.Lookup operation.Constant =
    Ok {| operation.Name := "Constant"; operation.OperandSizes := [2] |} /\
  operation.Lookup operation.Add =
    Ok {| operation.Name := "Add"; operation.OperandSizes := [] |}.
Proof.
  split; [| split; reflexivity].
  unfold operation.Lookup. rewrite operations_lookup.
  destruct (decide (b = operation.Constant)) as [Hc|Hc].
  - split; [reflexivity | left; exact Hc].
  - destruct (decide (b = operation.Add)) as [Ha|Ha].
    + split; [reflexivity | right; exact Ha].
    + split; [reflexivity |]. split; [| split; assumption].
      unfold error_message. cbn. rewrite append_empty_r. reflexivity.
Qed.

(** C8 as the spec states it fails: [Pop] is an opcode of the encoding
    table, and [Lookup] has no operation for it. *)
Lemma Lookup_Pop_is_undefined :
  operation.Pop ∈ operation.opcodes /\
  operation.Lookup operation.Pop = Err (Errorf "Undefined Opcode: %d" [ArgInt 1]) /\
  ~ (forall op, op ∈ operation.opcodes -> exists o, operation.Lookup op = Ok o).
Proof.
  split; [unfold operation.opcodes; elem_here |].
  split; [reflexivity |].
  intros H. destruct (H operation.Pop) as [o Ho].
  - unfold operation.opcodes. elem_here.
  - discriminate Ho.
Qed.
(* ================================================================= *)
(** ** The helpers of the compiler *)

Section CompilerFacts.

Import compiler.

Lemma innermost_index (c : Compiler) :
  innermost c -> index (scopes c) (currentScope c) = Some (theScope c).
Proof.
  intros [H0 H1]. unfold theScope.
  destruct (index_is_Some (scopes c) (currentScope c)) as [s Hs]; [lia |].
  rewrite Hs. reflexivity.
Qed.

Lemma withScope_innermost (s : Scope) (c : Compiler) :
  innermost c -> innermost (withScope s c).
Proof.
  unfold innermost, withScope, setIndex, len. cbn. rewrite length_insert. tauto.
Qed.

Lemma theScope_withScope (s : Scope) (c : Compiler) :
  innermost c -> theScope (withScope s c) = s.
Proof.
  intros [H0 H1]. unfold theScope, withScope, index, setIndex. cbn.
  rewrite decide_True by exact H0.
  rewrite list_lookup_insert_eq; [reflexivity |]. unfold len in H1. lia.
Qed.

Lemma outer_withScope (s : Scope) (c : Compiler) :
  outer (withScope s c) = outer c.
Proof. unfold outer, withScope, setIndex. cbn. apply take_insert_ge. lia. Qed.

Lemma withScope_withScope (s1 s2 : Scope) (c : Compiler) :
  withScope s2 (withScope s1 c) = withScope s2 c.
Proof.
  unfold withScope, setScopes, setIndex. cbn. rewrite list_insert_insert_eq. reflexivity.
Qed.

Lemma scope_eq (c : Compiler) :
  innermost c -> scope c = Ok (theScope c, c).
Proof.
  intros H. unfold scope, bind, get. rewrite (innermost_index c H). reflexivity.
Qed.

Lemma setScope_eq (s : Scope) (c : Compiler) :
  innermost c -> setScope s c = Ok (tt, withScope s c).
Proof. intros H. unfold setScope, bind. rewrite (scope_eq c H). reflexivity. Qed.

Lemma currentInstructions_eq (c : Compiler) :
  innermost c -> currentInstructions c = Ok (code c, c).
Proof. intros H. unfold currentInstructions, bind. rewrite (scope_eq c H). reflexivity. Qed.

(** [emit] appends the instruction and moves the two records. *)
Lemma emit_eq (op : byte) (operands : list Z) (c : Compiler) :
  innermost c ->
  emit op operands c =
    match operation.NewInstruction op operands with
    | Some ins =>
        Ok (len (code c),
            withScope {| instructions := code c ++ ins;
                         emitted := {| Opcode := op; Position := len (code c) |};
                         prevEmitted := last c |} c)
    | None => Panic InvalidInstruction
    end.
Proof.
  intros H. unfold emit, newInstruction, bind.
  destruct (operation.NewInstruction op operands) as [ins|]; [| reflexivity]. cbn.
  unfold addInstruction, bind. rewrite (currentInstructions_eq c H).
  rewrite (scope_eq c H). rewrite (setScope_eq _ c H). cbn.
  unfold setEmitted, bind.
  rewrite scope_eq by (apply withScope_innermost; exact H).
  rewrite setScope_eq by (apply withScope_innermost; exact H).
  rewrite (theScope_withScope _ c H). cbn. rewrite withScope_withScope. reflexivity.
Qed.

Lemma isEmitted_eq (op : byte) (c : Compiler) :
  innermost c ->
  isEmitted op c =
    Ok (if decide (len (code c) = 0) then false
        else bool_decide (Opcode (last c) = op), c).
Proof.
  intros H. unfold isEmitted, bind. rewrite (currentInstructions_eq c H).
  destruct (decide (len (code c) = 0)); [reflexivity |].
  rewrite (scope_eq c H). reflexivity.
Qed.

Lemma preventPop_eq (c : Compiler) :
  innermost c ->
  preventPop c =
    match sliceTo (code c) (Position (last c)) with
    | Some new =>
        Ok (tt, withScope {| instructions := new; emitted := prev c;
                             prevEmitted := prev c |} c)
    | None => Panic SliceBoundsOutOfRange
    end.
Proof.
  intros H. unfold preventPop, bind. rewrite (currentInstructions_eq c H).
  rewrite (scope_eq c H). fold (last c).
  destruct (sliceTo (code c) (Position (last c))); [| reflexivity]. cbn.
  rewrite (setScope_eq _ c H). reflexivity.
Qed.

Lemma changeInstruction_eq (pos : Z) (ins : list byte) (c : Compiler) :
  innermost c -> ins <> [] ->
  changeInstruction pos ins c =
    if decide (0 <= pos /\ pos + len ins <= len (code c))
    then Ok (tt, withScope {| instructions := overwrite (code c) pos ins;
                              emitted := last c; prevEmitted := prev c |} c)
    else Panic IndexOutOfRange.
Proof.
  intros H Hins. unfold changeInstruction, bind. rewrite (currentInstructions_eq c H).
  rewrite decide_False by exact Hins.
  destruct (decide _); [| reflexivity].
  rewrite (scope_eq c H). rewrite (setScope_eq _ c H). reflexivity.
Qed.

(* ================================================================= *)
(** ** Instructions *)

Lemma putOperands_len (ws os : list Z) (bs : list byte) :
  Forall (fun w => w = 1 \/ w = 2) ws ->
  operation.putOperands ws os = Some bs ->
  len bs = fold_right Z.add 0 ws.
Proof.
  intros Hws. revert os bs. induction Hws as [|w ws Hw Hws IH]; intros os bs H.
  - destruct os; cbn in H; [| discriminate]. injection H as <-. reflexivity.
  - destruct os as [|o os]; cbn in H; [discriminate |].
    destruct (operation.fits w o); [| discriminate].
    destruct (operation.putOperands ws os) as [bs'|] eqn:E; [| discriminate].
    injection H as <-. specialize (IH os bs' E).
    unfold len in *. rewrite length_app. cbn [fold_right].
    unfold operation.putOperand.
    destruct Hw as [-> | ->];
      repeat (rewrite ?decide_True by lia; rewrite ?decide_False by lia); cbn; lia.
Qed.

Lemma operandWidths_ok (op : byte) (ws : list Z) :
  operation.operandWidths op = Some ws -> Forall (fun w => w = 1 \/ w = 2) ws.
Proof.
  unfold operation.operandWidths.
  repeat (destruct (decide _);
          [intros H; injection H as <-;
           repeat first [apply List.Forall_nil | apply List.Forall_cons; [lia |]] |]).
  discriminate.
Qed.

(** An instruction starts with its opcode and has the size of its
    opcode. *)
Lemma NewInstruction_Some (op : byte) (os : list Z) (ins : list byte) :
  operation.NewInstruction op os = Some ins ->
  exists bs, ins = op :: bs /\ len ins = compiler.size op.
Proof.
  unfold operation.NewInstruction, compiler.size. intros H.
  destruct (operation.operandWidths op) as [ws|] eqn:Ews; [| discriminate].
  destruct (operation.putOperands ws os) as [bs|] eqn:Ebs; [| discriminate].
  injection H as <-. exists bs. split; [reflexivity |].
  rewrite <- (putOperands_len ws os bs (operandWidths_ok op ws Ews) Ebs).
  unfold len. cbn. lia.
Qed.

(** The instruction of an opcode with one 16-bit operand. *)
Lemma NewInstruction_16 (op : byte) (o : Z) (ins : list byte) :
  operation.operandWidths op = Some [2] ->
  operation.NewInstruction op [o] = Some ins ->
  ins = compiler.jumpTo op o /\ 0 <= o < 65536.
Proof.
  intros Hw. unfold operation.NewInstruction. rewrite Hw. cbn.
  unfold operation.fits.
  destruct (Z.leb_spec 0 o) as [H0|]; [| discriminate].
  destruct (Z.ltb_spec o (2 ^ (8 * 2))) as [Hlt|]; [| discriminate]. cbn.
  intros H. injection H as <-. split; [reflexivity |]. lia.
Qed.

(** The instruction of an opcode without operand. *)
Lemma NewInstruction_0 (op : byte) (ins : list byte) :
  operation.operandWidths op = Some [] ->
  operation.NewInstruction op [] = Some ins -> ins = [op].
Proof.
  intros Hw. unfold operation.NewInstruction. rewrite Hw. cbn.
  intros H. injection H as <-. reflexivity.
Qed.

(** Reading back a 16-bit operand. *)
Lemma byteZ_toByte (n : Z) : byteZ (toByte n) = n mod 256.
Proof.
  unfold byteZ, toByte.
  assert (Hr : 0 <= n mod 256 < 256) by (apply Z.mod_pos_bound; lia).
  destruct (Byte.of_N (Z.to_N (n mod 256))) as [b|] eqn:E.
  - apply Byte.to_of_N in E. rewrite E. lia.
  - apply Byte.of_N_None_iff in E. lia.
Qed.

Lemma ReadUint16_jumpTo (op : byte) (target : Z) (rest : list byte) :
  0 <= target < 65536 ->
  operation.ReadUint16 (tl (compiler.jumpTo op target) ++ rest) = Some target.
Proof.
  intros H. cbn. rewrite !byteZ_toByte. f_equal.
  rewrite (Z.mod_small (target / 256)).
  - pose proof (Z.div_mod target 256 ltac:(lia)). lia.
  - split; [apply Z.div_pos; lia | apply Z.div_lt_upper_bound]. all: lia.
Qed.

(** Writing [ins] over [l] at [pos] replaces that many bytes there. *)
Lemma overwrite_eq (ins l : list byte) (pos : Z) :
  0 <= pos -> pos + len ins <= len l ->
  compiler.overwrite l pos ins =
    take (Z.to_nat pos) l ++ ins ++ drop (Z.to_nat (pos + len ins)) l.
Proof.
  revert l pos. induction ins as [|b ins IH]; intros l pos H0 H1.
  - cbn. unfold len. cbn. rewrite Z.add_0_r. rewrite take_drop. reflexivity.
  - cbn [compiler.overwrite]. unfold len in *. cbn [length] in *.
    assert (Hlt : (Z.to_nat pos < length l)%nat) by (clear IH; lia).
    rewrite IH; unfold setIndex; rewrite ?length_insert; try (clear IH; lia).
    clear IH.
    rewrite drop_insert_lt by lia.
    replace (Z.to_nat (pos + 1)) with (S (Z.to_nat pos)) by lia.
    rewrite (take_S_r (<[Z.to_nat pos:=b]> l) (Z.to_nat pos) b)
      by (apply list_lookup_insert_eq; exact Hlt).
    rewrite take_insert_ge by lia. rewrite <- app_assoc. cbn.
    replace (pos + 1 + Z.of_nat (length ins)) with (pos + Z.of_nat (S (length ins)))
      by lia.
    reflexivity.
Qed.

(* ================================================================= *)
(** ** The bookkeeping of the compiler *)

Lemma len_app {A : Type} (l k : list A) : len (l ++ k) = len l + len k.
Proof. unfold len. rewrite length_app. lia. Qed.

Lemma len_nonneg {A : Type} (l : list A) : 0 <= len l.
Proof. unfold len. lia. Qed.

Lemma len_pos {A : Type} (l : list A) : l <> [] <-> 0 < len l.
Proof. unfold len. destruct l; cbn; split; intros; try congruence; lia. Qed.

Lemma index_app_l {A : Type} (l k : list A) (i : Z) (x : A) :
  index l i = Some x -> index (l ++ k) i = Some x.
Proof.
  intros H. apply index_Some in H as [H0 H]. apply index_Some.
  split; [exact H0 |]. apply lookup_app_l_Some. exact H.
Qed.

Lemma index_app_r {A : Type} (l k : list A) (i : Z) :
  len l <= i -> index (l ++ k) i = index k (i - len l).
Proof.
  intros H. unfold index, len in *.
  destruct (decide (0 <= i)) as [H0|H0]; [| lia].
  rewrite decide_True by lia. rewrite lookup_app_r by lia. f_equal. lia.
Qed.

Lemma index_app_here {A : Type} (l k : list A) (x : A) :
  index (l ++ x :: k) (len l) = Some x.
Proof.
  rewrite index_app_r by lia. rewrite Z.sub_diag. reflexivity.
Qed.

Lemma index_take {A : Type} (l : list A) (n i : Z) (x : A) :
  index l i = Some x -> i < n -> index (take (Z.to_nat n) l) i = Some x.
Proof.
  intros H Hn. apply index_Some in H as [H0 H]. apply index_Some.
  split; [exact H0 |]. rewrite lookup_take_lt by lia. exact H.
Qed.

Lemma code_withScope (s : Scope) (c : Compiler) :
  innermost c -> code (withScope s c) = instructions s.
Proof. intros H. unfold code. rewrite (theScope_withScope s c H). reflexivity. Qed.

Lemma last_withScope (s : Scope) (c : Compiler) :
  innermost c -> last (withScope s c) = emitted s.
Proof. intros H. unfold last. rewrite (theScope_withScope s c H). reflexivity. Qed.

Lemma prev_withScope (s : Scope) (c : Compiler) :
  innermost c -> prev (withScope s c) = prevEmitted s.
Proof. intros H. unfold prev. rewrite (theScope_withScope s c H). reflexivity. Qed.

Lemma records_app (ins k : list byte) (e : Emitted) (stop : Z) :
  records ins e stop -> records (ins ++ k) e stop.
Proof.
  intros (H0 & H1 & H2). repeat split; try assumption.
  apply index_app_l. exact H2.
Qed.

Lemma wf_innermost (c : Compiler) : wf c -> innermost c.
Proof. intros H. apply H. Qed.

Lemma sameShape_theScope (c c' : Compiler) :
  sameShape c c' -> theScope c' = theScope c.
Proof. intros [H1 H2]. unfold theScope. rewrite H1, H2. reflexivity. Qed.

Lemma sameShape_wf (c c' : Compiler) : sameShape c c' -> wf c -> wf c'.
Proof.
  intros H. pose proof (sameShape_theScope c c' H) as Ht. destruct H as [H1 H2].
  unfold wf, innermost, code, last, prev. rewrite Ht, H1, H2. tauto.
Qed.

Lemma sameShape_extends (c c' : Compiler) : sameShape c c' -> extends c c'.
Proof.
  intros H. pose proof (sameShape_theScope c c' H) as Ht. destruct H as [H1 H2].
  unfold extends, outer, code. rewrite Ht, H1, H2.
  repeat split. exists []. rewrite app_nil_r. reflexivity.
Qed.

Lemma extends_refl (c : Compiler) : extends c c.
Proof. repeat split. exists []. rewrite app_nil_r. reflexivity. Qed.

Lemma extends_trans (a b c : Compiler) : extends a b -> extends b c -> extends a c.
Proof.
  intros (H1 & H2 & k1 & H3) (H4 & H5 & k2 & H6).
  split; [congruence |]. split; [congruence |].
  exists (k1 ++ k2). rewrite H6, H3, app_assoc. reflexivity.
Qed.

Lemma extends_len (a b : Compiler) : extends a b -> len (code a) <= len (code b).
Proof.
  intros (_ & _ & k & H). rewrite H, len_app. pose proof (len_nonneg k). lia.
Qed.

Lemma grows_wf (a b : Compiler) : grows a b -> wf b.
Proof. intros H. apply H. Qed.

Lemma grows_extends (a b : Compiler) : grows a b -> extends a b.
Proof. intros H. apply H. Qed.

Lemma grows_nonempty (a b : Compiler) : grows a b -> code b <> [].
Proof.
  intros (_ & _ & H & _). apply len_pos. pose proof (len_nonneg (code a)). lia.
Qed.

Lemma grows_trans (a b c : Compiler) : grows a b -> grows b c -> grows a c.
Proof.
  intros (_ & Hab & Hlab & _) (Hwf & Hbc & Hlbc & Hlast & Hprev).
  split; [exact Hwf |]. split; [exact (extends_trans a b c Hab Hbc) |].
  split; [lia |]. split; [lia |]. intros H. specialize (Hprev H). lia.
Qed.

Lemma extends_grows (a b c : Compiler) : extends a b -> grows b c -> grows a c.
Proof.
  intros Hab (Hwf & Hbc & Hlbc & Hlast & Hprev).
  pose proof (extends_len a b Hab).
  split; [exact Hwf |]. split; [exact (extends_trans a b c Hab Hbc) |].
  split; [lia |]. split; [lia |]. intros H'. specialize (Hprev H'). lia.
Qed.

Lemma sameShape_grows_r (a b c : Compiler) : grows a b -> sameShape b c -> grows a c.
Proof.
  intros (Hwf & (H1 & H2 & H3) & Hl & Hlast & Hprev) H.
  pose proof (sameShape_theScope b c H) as Ht.
  pose proof (sameShape_wf b c H Hwf) as Hwf'. destruct H as [Hs Hc].
  unfold grows, extends, outer, code, last, prev in *. rewrite Ht, Hs, Hc.
  tauto.
Qed.

Lemma sameShape_grows_l (a b c : Compiler) : sameShape a b -> grows b c -> grows a c.
Proof.
  intros H Hg. apply (extends_grows a b c); [| exact Hg].
  apply sameShape_extends. exact H.
Qed.

(** [emit] in a compiler that has come from [a]: the instruction is
    added at the end.  A [Pop] is emitted behind an instruction that is no
    [Pop]. *)
Lemma emit_grows (a c c' : Compiler) (op : byte) (os : list Z) (pos : Z) :
  wf c ->
  sameShape a c \/ grows a c ->
  (op = operation.Pop -> grows a c /\ Opcode (last c) <> operation.Pop) ->
  emit op os c = Ok (pos, c') ->
  grows a c' /\
  pos = len (code c) /\
  last c' = {| Opcode := op; Position := len (code c) |} /\
  constants c' = constants c /\ symbols c' = symbols c /\
  exists ins, operation.NewInstruction op os = Some ins /\ code c' = code c ++ ins.
Proof.
  intros Hwf Ha Hpop H.
  pose proof (wf_innermost c Hwf) as Hin.
  rewrite (emit_eq op os c Hin) in H.
  destruct (operation.NewInstruction op os) as [ins|] eqn:Eins; [| discriminate].
  injection H as <- <-.
  destruct (NewInstruction_Some op os ins Eins) as (bs & -> & Hsize).
  set (s' := {| instructions := code c ++ op :: bs;
                emitted := {| Opcode := op; Position := len (code c) |};
                prevEmitted := last c |}).
  assert (Hcode : code (withScope s' c) = code c ++ op :: bs)
    by apply (code_withScope s' c Hin).
  assert (Hlast : last (withScope s' c) = {| Opcode := op; Position := len (code c) |})
    by apply (last_withScope s' c Hin).
  assert (Hprev : prev (withScope s' c) = last c) by apply (prev_withScope s' c Hin).
  assert (Hext : extends c (withScope s' c)).
  { split; [reflexivity |]. split; [apply outer_withScope |].
    exists (op :: bs). exact Hcode. }
  assert (Hwf' : wf (withScope s' c)).
  { split; [apply withScope_innermost; exact Hin |].
    rewrite Hcode, Hlast, Hprev. unfold records. cbn [Opcode Position]. split.
    - intros _. split; [apply len_nonneg |]. split; [rewrite len_app; lia |].
      apply index_app_here.
    - intros _ Hop. destruct (Hpop Hop) as [Hg Hne]. split; [exact Hne |].
      apply (records_app (code c) (op :: bs)). apply Hwf.
      exact (grows_nonempty a c Hg). }
  assert (Hlen : len (code c) < len (code (withScope s' c))).
  { rewrite Hcode, len_app. unfold len at 3. cbn. lia. }
  split; [| repeat split; try assumption; exists (op :: bs); split; [reflexivity | exact Hcode]].
  assert (Hbase : extends a c /\ len (code a) <= len (code c)).
  { destruct Ha as [Ha|Ha].
    - pose proof (sameShape_extends a c Ha) as He. split; [exact He | apply extends_len; exact He].
    - pose proof (grows_extends a c Ha) as He. split; [exact He | apply extends_len; exact He]. }
  destruct Hbase as [Hac Hlac].
  split; [exact Hwf' |]. split; [exact (extends_trans a c _ Hac Hext) |].
  split; [lia |]. rewrite Hlast, Hprev. cbn [Opcode Position]. split; [lia |].
  intros Hop. destruct (Hpop Hop) as [Hg _]. apply Hg.
Qed.

Lemma size_Pop : size operation.Pop = 1.
Proof. reflexivity. Qed.

Lemma snoc_of_index {A : Type} (l : list A) (n : Z) (x : A) :
  index l n = Some x -> n + 1 = len l -> l = take (Z.to_nat n) l ++ [x].
Proof.
  intros H Hlen. apply index_Some in H as [H0 H]. unfold len in Hlen.
  rewrite <- (take_S_r l (Z.to_nat n) x H). symmetry. apply take_ge. lia.
Qed.

Lemma isEmittedB_true (op : byte) (c : Compiler) :
  isEmittedB op c = true <-> code c <> [] /\ Opcode (last c) = op.
Proof.
  unfold isEmittedB. destruct (decide (len (code c) = 0)) as [E|E].
  - split; [discriminate |]. intros [H _]. apply len_pos in H. lia.
  - rewrite bool_decide_eq_true. split.
    + intros H. split; [| exact H]. apply len_pos. pose proof (len_nonneg (code c)). lia.
    + intros [_ H]. exact H.
Qed.

(** [stripPop] takes back the [Pop] that ends the stream, when the last
    emitted instruction is one, and nothing else. *)
Lemma stripPop_eq (c c' : Compiler) :
  wf c -> stripPop c = Ok (tt, c') ->
  if isEmittedB operation.Pop c
  then code c = code c' ++ [operation.Pop] /\
       last c' = prev c /\ Opcode (last c') <> operation.Pop /\ wf c' /\
       currentScope c' = currentScope c /\ outer c' = outer c /\
       constants c' = constants c /\ symbols c' = symbols c
  else c' = c.
Proof.
  intros Hwf H. pose proof (wf_innermost c Hwf) as Hin.
  unfold stripPop, bind in H. rewrite (isEmitted_eq _ c Hin) in H.
  fold (isEmittedB operation.Pop c) in H.
  destruct (isEmittedB operation.Pop c) eqn:E.
  - apply isEmittedB_true in E as [Hne Hop].
    destruct Hwf as (_ & Hlast & Hprev).
    destruct (Hlast Hne) as (Hp0 & Hp1 & Hp2).
    destruct (Hprev Hne Hop) as (Hpne & Hq0 & Hq1 & Hq2).
    rewrite Hop in Hp1, Hp2. rewrite size_Pop in Hp1.
    rewrite (preventPop_eq c Hin) in H. unfold sliceTo in H.
    rewrite decide_True in H by lia. injection H as <-.
    set (s' := {| instructions := take (Z.to_nat (Position (last c))) (code c);
                  emitted := prev c; prevEmitted := prev c |}).
    rewrite (code_withScope s' c Hin), (last_withScope s' c Hin).
    cbn [s' instructions emitted].
    assert (Hlt : Position (prev c) < Position (last c)).
    { pose proof (index_lt _ _ _ Hq2) as Hr.
      destruct (Z.eq_dec (Position (prev c)) (Position (last c))) as [Heq|Hneq]; [| lia].
      rewrite Heq in Hq2. congruence. }
    split; [apply (snoc_of_index _ _ _ Hp2 Hp1) |].
    split; [reflexivity |]. split; [exact Hpne |].
    split; [| split; [reflexivity |]; split; [apply outer_withScope |]; split; reflexivity].
    split; [apply withScope_innermost; exact Hin |].
    rewrite (code_withScope s' c Hin), (last_withScope s' c Hin),
      (prev_withScope s' c Hin). subst s'. unfold records.
    cbn [instructions emitted prevEmitted]. split.
    + intros _. split; [exact Hq0 |]. split.
      * rewrite Hq1. unfold len. rewrite length_take. unfold len in Hp1. lia.
      * apply index_take; assumption.
    + intros _ Hc. contradiction.
  - injection H as <-. reflexivity.
Qed.

Lemma jumpTo_len (op : byte) (t : Z) : len (jumpTo op t) = 3.
Proof. reflexivity. Qed.

Lemma take_app_len {A : Type} (l k : list A) : take (Z.to_nat (len l)) (l ++ k) = l.
Proof. unfold len. rewrite Nat2Z.id. apply take_app_length. Qed.

Lemma drop_app_len {A : Type} (l k : list A) : drop (Z.to_nat (len l)) (l ++ k) = k.
Proof. unfold len. rewrite Nat2Z.id. apply drop_app_length. Qed.

(** [changeOperand] on the position of a jump: the target is replaced, and
    nothing else changes. *)
Lemma changeOperand_eq (c c' : Compiler) (op : byte) (old operand : Z)
    (pre post : list byte) :
  innermost c ->
  code c = pre ++ jumpTo op old ++ post ->
  operation.operandWidths op = Some [2] ->
  changeOperand (len pre) operand c = Ok (tt, c') ->
  0 <= operand < 65536 /\
  code c' = pre ++ jumpTo op operand ++ post /\
  last c' = last c /\ prev c' = prev c /\
  innermost c' /\
  currentScope c' = currentScope c /\ outer c' = outer c /\
  constants c' = constants c /\ symbols c' = symbols c.
Proof.
  intros Hin Hcode Hw H.
  unfold changeOperand, bind in H. rewrite (currentInstructions_eq c Hin) in H.
  rewrite Hcode in H at 1. change (jumpTo op old ++ post) with (op :: tl (jumpTo op old) ++ post) in H.
  rewrite index_app_here in H. cbn [orPanic ret] in H.
  unfold newInstruction in H.
  destruct (operation.NewInstruction op [operand]) as [ins|] eqn:Eins; [| discriminate].
  destruct (NewInstruction_16 op operand ins Hw Eins) as [-> Hrange].
  cbn [orPanic ret] in H.
  rewrite (changeInstruction_eq _ _ c Hin) in H by discriminate.
  rewrite jumpTo_len in H.
  assert (Hlen : len (code c) = len pre + 3 + len post).
  { rewrite Hcode, !len_app, jumpTo_len. lia. }
  pose proof (len_nonneg pre). pose proof (len_nonneg post).
  rewrite decide_True in H by lia.
  remember (overwrite (code c) (len pre) (jumpTo op operand)) as new eqn:Enew.
  injection H as <-.
  set (s' := {| instructions := new; emitted := last c; prevEmitted := prev c |}).
  rewrite (code_withScope s' c Hin), (last_withScope s' c Hin), (prev_withScope s' c Hin).
  cbn [s' instructions emitted prevEmitted].
  split; [exact Hrange |]. split.
  - rewrite Enew. rewrite overwrite_eq by (rewrite ?jumpTo_len; lia). rewrite jumpTo_len.
    rewrite Hcode. rewrite take_app_len. do 2 f_equal.
    rewrite app_assoc.
    replace (len pre + 3) with (len (pre ++ jumpTo op old)) by (rewrite len_app, jumpTo_len; lia).
    apply drop_app_len.
  - split; [reflexivity |]. split; [reflexivity |].
    split; [apply withScope_innermost; exact Hin |].
    split; [reflexivity |]. split; [apply outer_withScope |]. split; reflexivity.
Qed.

(** A compiler whose stream differs from that of a well-formed one by the
    target of a jump in front of the last emitted instruction, or of the
    last emitted instruction itself, is well formed. *)
Lemma patch_wf (c c' : Compiler) (op : byte) (old new : Z) (pre post : list byte) :
  wf c -> innermost c' ->
  code c = pre ++ jumpTo op old ++ post ->
  code c' = pre ++ jumpTo op new ++ post ->
  last c' = last c -> prev c' = prev c ->
  Opcode (last c) <> operation.Pop ->
  Position (last c) = len pre \/ len pre + 3 <= Position (last c) ->
  wf c'.
Proof.
  intros (_ & Hlast & _) Hin Hc Hc' Hl Hp Hne Hpos.
  split; [exact Hin |]. rewrite Hl, Hp. split; [| intros _ E; contradiction].
  intros _. destruct Hlast as (H0 & H1 & H2).
  { rewrite Hc. intros E. apply (f_equal length) in E. rewrite length_app in E.
    cbn in E. lia. }
  split; [exact H0 |]. split.
  - rewrite H1, Hc, Hc', !len_app, !jumpTo_len. reflexivity.
  - rewrite Hc in H2. rewrite Hc'. pose proof (len_nonneg pre).
    rewrite index_app_r in H2 |- * by lia.
    destruct Hpos as [E|E].
    + rewrite E, Z.sub_diag in H2 |- *. exact H2.
    + rewrite index_app_r in H2 |- * by (rewrite jumpTo_len; lia). exact H2.
Qed.

Lemma len_one {A : Type} (x : A) : len [x] = 1.
Proof. reflexivity. Qed.

Lemma onSymbols_inv {A : Type} (f : symbols.SymbolTable -> A * symbols.SymbolTable)
    (c c' : Compiler) (a : A) :
  onSymbols f c = Ok (a, c') -> sameShape c c' /\ constants c' = constants c.
Proof.
  unfold onSymbols, bind, get. destruct (symbols c) as [t|]; [| discriminate].
  destruct (f t) as [a' t']. cbn. intros H. injection H as <- <-.
  repeat split.
Qed.

Lemma addConstant_inv (d : data.Data) (c c' : Compiler) (i : Z) :
  addConstant d c = Ok (i, c') ->
  sameShape c c' /\ constants c' = constants c ++ [d] /\ i = len (constants c) /\
  symbols c' = symbols c.
Proof.
  unfold addConstant, bind, modify, get, ret. cbn. intros H. injection H as <- <-.
  repeat split. rewrite len_app, len_one. lia.
Qed.

Lemma enterScope_inv (c c1 : Compiler) :
  wf c -> enterScope c = Ok (tt, c1) ->
  wf c1 /\ code c1 = [] /\ currentScope c1 = currentScope c + 1 /\
  outer c1 = scopes c /\ constants c1 = constants c.
Proof.
  intros (Hin & _) H. unfold enterScope, bind, modify in H. cbn in H.
  injection H as <-. destruct Hin as [H0 H1].
  assert (Hs : theScope
                 (setSymbols (Some (symbols.NewEnclosed (symbols c)))
                    (setCurrentScope (currentScope c + 1)
                       (setScopes (scopes c ++ [emptyScope]) c))) = emptyScope).
  { unfold theScope. cbn. rewrite H1. rewrite index_app_here. reflexivity. }
  unfold wf, innermost, code, last, prev, outer. rewrite Hs. cbn.
  split; [| split; [reflexivity |]; split; [reflexivity |]; split; [| reflexivity]].
  - split; [| split; intros E; contradiction].
    split; [lia |]. rewrite len_app, len_one. lia.
  - rewrite H1. apply take_app_len.
Qed.

Lemma leaveScope_inv (c1 c2 : Compiler) (ins : list byte) :
  innermost c1 -> leaveScope c1 = Ok (ins, c2) ->
  ins = code c1 /\ scopes c2 = outer c1 /\ currentScope c2 = currentScope c1 - 1 /\
  constants c2 = constants c1.
Proof.
  intros Hin H. unfold leaveScope, bind in H.
  rewrite (currentInstructions_eq c1 Hin) in H. cbn [get] in H.
  unfold sliceTo in H. destruct Hin as [H0 H1].
  rewrite decide_True in H by lia. cbn in H.
  destruct (symbols c1) as [t|]; [| discriminate]. cbn in H.
  injection H as <- <-. cbn. repeat split.
  unfold outer. f_equal. lia.
Qed.

(** [changeEmittedTo(ReturnValue)] on a stream that ends in a [Pop]: the
    [Pop] becomes a [ReturnValue], in place. *)
Lemma changeEmittedTo_inv (c c' : Compiler) :
  wf c -> isEmittedB operation.Pop c = true ->
  changeEmittedTo operation.ReturnValue c = Ok (tt, c') ->
  exists pre,
    code c = pre ++ [operation.Pop] /\
    code c' = pre ++ [operation.ReturnValue] /\
    last c' = {| Opcode := operation.ReturnValue; Position := Position (last c) |} /\
    innermost c' /\ currentScope c' = currentScope c /\ outer c' = outer c /\
    constants c' = constants c /\ symbols c' = symbols c.
Proof.
  intros Hwf E H. pose proof (wf_innermost c Hwf) as Hin.
  apply isEmittedB_true in E as [Hne Hop].
  destruct Hwf as (_ & Hlast & _). destruct (Hlast Hne) as (Hp0 & Hp1 & Hp2).
  rewrite Hop in Hp1, Hp2. rewrite size_Pop in Hp1.
  pose proof (snoc_of_index _ _ _ Hp2 Hp1) as Hsnoc.
  set (pre := take (Z.to_nat (Position (last c))) (code c)) in *.
  assert (Hpre : len pre = Position (last c)).
  { rewrite Hsnoc, len_app, len_one in Hp1. lia. }
  unfold changeEmittedTo, bind in H. rewrite (scope_eq c Hin) in H.
  change (newInstruction operation.ReturnValue [] c)
    with (@Ok (list byte * Compiler) ([operation.ReturnValue], c)) in H.
  cbn iota beta in H. fold (last c) in H.
  rewrite (changeInstruction_eq _ _ c Hin) in H by discriminate.
  rewrite len_one, decide_True in H by lia.
  remember (overwrite (code c) (Position (last c)) [operation.ReturnValue]) as new eqn:Enew.
  rewrite scope_eq in H by (apply withScope_innermost; exact Hin).
  rewrite setScope_eq in H by (apply withScope_innermost; exact Hin).
  rewrite (theScope_withScope _ c Hin), withScope_withScope in H.
  cbn [instructions emitted prevEmitted] in H. injection H as <-.
  exists pre. split; [exact Hsnoc |].
  rewrite code_withScope, last_withScope by exact Hin. cbn [instructions emitted].
  split.
  - rewrite Enew, overwrite_eq by (rewrite ?len_one; lia).
    fold pre. f_equal. rewrite len_one.
    rewrite drop_ge by (unfold len in Hp1; lia). reflexivity.
  - split; [reflexivity |]. split; [apply withScope_innermost; exact Hin |].
    split; [reflexivity |]. split; [apply outer_withScope |]. split; reflexivity.
Qed.

(** *** Loops *)

Lemma forEach_cons {S A : Type} (f : A -> M S unit) (x : A) (l : list A) (s : S) :
  forEach f (x :: l) s = bind (f x) (fun _ => forEach f l) s.
Proof. reflexivity. Qed.

Lemma forEach_grows {A : Type} (f : A -> M Compiler unit) (l : list A)
    (Q : Compiler -> Prop) :
  (forall x, x ∈ l -> forall c c', wf c -> f x c = Ok (tt, c') -> grows c c' /\ Q c') ->
  forall c c', wf c -> forEach f l c = Ok (tt, c') ->
    (l = [] /\ c' = c) \/ (grows c c' /\ Q c').
Proof.
  induction l as [|x l IH]; intros Hf c c' Hwf H.
  - left. cbn in H. injection H as <-. split; reflexivity.
  - right. rewrite forEach_cons in H.
    apply bind_Ok_inv in H as ([] & c1 & H1 & H).
    destruct (Hf x (list_elem_of_here x l) c c1 Hwf H1) as [Hg HQ].
    destruct (IH (fun y Hy => Hf y (list_elem_of_further y x l Hy)) c1 c'
                (grows_wf c c1 Hg) H) as [[_ ->] | [Hg' HQ']].
    + split; assumption.
    + split; [exact (grows_trans c c1 c' Hg Hg') | exact HQ'].
Qed.

Lemma sameShape_refl (c : Compiler) : sameShape c c.
Proof. split; reflexivity. Qed.

Lemma sameShape_trans (a b c : Compiler) : sameShape a b -> sameShape b c -> sameShape a c.
Proof. intros [H1 H2] [H3 H4]. split; congruence. Qed.

Lemma forEach_sameShape {A : Type} (f : A -> M Compiler unit) (l : list A) :
  (forall x c c', f x c = Ok (tt, c') -> sameShape c c' /\ constants c' = constants c) ->
  forall c c', forEach f l c = Ok (tt, c') ->
    sameShape c c' /\ constants c' = constants c.
Proof.
  intros Hf. induction l as [|x l IH]; intros c c' H.
  - cbn in H. injection H as <-. split; [apply sameShape_refl | reflexivity].
  - rewrite forEach_cons in H. apply bind_Ok_inv in H as ([] & c1 & H1 & H).
    destruct (Hf x c c1 H1) as [Hs Hc]. destruct (IH c1 c' H) as [Hs' Hc'].
    split; [exact (sameShape_trans c c1 c' Hs Hs') | congruence].
Qed.

(** An [emit] whose position is not used. *)
Lemma emit_unit_inv (op : byte) (os : list Z) (c c' : Compiler) :
  (let* _ := emit op os in ret tt) c = Ok (tt, c') ->
  exists pos, emit op os c = Ok (pos, c').
Proof.
  intros H. apply bind_Ok_inv in H as (pos & c1 & H1 & H).
  injection H as <-. exists pos. exact H1.
Qed.

(** An expression or a statement that ends in the [emit] of an opcode
    other than [Pop], from a compiler that comes from [a]. *)
Lemma emit_last (a c c' : Compiler) (op : byte) (os : list Z) :
  wf c -> sameShape a c \/ grows a c -> op <> operation.Pop ->
  (let* _ := emit op os in ret tt) c = Ok (tt, c') ->
  grows a c' /\ Opcode (last c') <> operation.Pop /\
  constants c' = constants c.
Proof.
  intros Hwf Ha Hop H. apply emit_unit_inv in H as [pos H].
  destruct (emit_grows a c c' op os pos Hwf Ha ltac:(intros E; contradiction) H)
    as (Hg & _ & Hl & Hc & _).
  split; [exact Hg |]. split; [rewrite Hl; exact Hop | exact Hc].
Qed.

Lemma loadSymbol_grows (a c c' : Compiler) (s : symbols.Symbol) :
  wf c -> sameShape a c \/ grows a c ->
  loadSymbol s c = Ok (tt, c') ->
  grows a c' /\ Opcode (last c') <> operation.Pop /\ constants c' = constants c.
Proof.
  intros Hwf Ha H. unfold loadSymbol in H.
  destruct (symbols.Scope s);
    apply (emit_last a c c' _ _ Hwf Ha) in H; try exact H; discriminate.
Qed.

(* ================================================================= *)
(** ** Compiling an if-expression *)

Lemma widths_JumpNotTruthy : operation.operandWidths operation.JumpNotTruthy = Some [2].
Proof. reflexivity. Qed.

Lemma widths_Jump : operation.operandWidths operation.Jump = Some [2].
Proof. reflexivity. Qed.

Lemma uptoPop_intro (c3 c3' : Compiler) (base : list byte) :
  wf c3 -> stripPop c3 = Ok (tt, c3') ->
  (exists k, code c3 = base ++ k) ->
  (isEmittedB operation.Pop c3 = true -> len base < len (code c3)) ->
  exists added,
    uptoPop c3 base added /\ code c3' = base ++ added /\
    wf c3' /\ currentScope c3' = currentScope c3 /\ outer c3' = outer c3 /\
    constants c3' = constants c3 /\ symbols c3' = symbols c3 /\
    (isEmittedB operation.Pop c3 = true ->
       last c3' = prev c3 /\ Opcode (last c3') <> operation.Pop) /\
    (isEmittedB operation.Pop c3 = false -> c3' = c3).
Proof.
  intros Hwf H [k Hk] Hlen. pose proof (stripPop_eq c3 c3' Hwf H) as Hs.
  unfold uptoPop. destruct (isEmittedB operation.Pop c3) eqn:E.
  - destruct Hs as (Hc & Hl & Hne & Hwf' & Hcur & Hout & Hcon & Hsym).
    specialize (Hlen eq_refl).
    assert (Hk' : k <> []).
    { intros ->. rewrite Hk, app_nil_r in Hlen. lia. }
    destruct (exists_last Hk') as (added & x & ->).
    rewrite Hk, app_assoc in Hc. apply app_inj_tail in Hc as [Hc ->].
    exists added. rewrite <- Hc.
    split; [rewrite Hk; reflexivity |]. split; [reflexivity |].
    do 5 (split; [assumption |]).
    split; [intros _; split; assumption | discriminate].
  - subst c3'. exists k. split; [exact Hk |]. split; [exact Hk |].
    split; [exact Hwf |]. do 4 (split; [reflexivity |]).
    split; [discriminate | reflexivity].
Qed.

Lemma extends_same (a b : Compiler) :
  extends a b -> currentScope b = currentScope a /\ outer b = outer a.
Proof. intros (H1 & H2 & _). split; assumption. Qed.

Lemma not_isEmittedB (op : byte) (c : Compiler) :
  Opcode (last c) <> op -> isEmittedB op c = false.
Proof.
  intros H. destruct (isEmittedB op c) eqn:E; [| reflexivity].
  apply isEmittedB_true in E as [_ E]. contradiction.
Qed.

Lemma isEmittedB_false (op : byte) (c : Compiler) :
  isEmittedB op c = false -> code c <> [] -> Opcode (last c) <> op.
Proof.
  intros E Hne Hop. rewrite (proj2 (isEmittedB_true op c)) in E; [discriminate |].
  split; assumption.
Qed.

Section CompileFacts.

Variable ExpressionString : ast.Expression -> string.

(** A block compiled behind an instruction that is no [Pop], and the
    [stripPop] that follows it: the instructions of the block are added,
    without the [Pop] of its last statement. *)
Lemma block_stripped (b : list ast.Statement) (c2 c3 c4 : Compiler) :
  blockGrows ExpressionString b ->
  wf c2 -> code c2 <> [] -> Opcode (last c2) <> operation.Pop ->
  forEach (CompileStatement ExpressionString) b c2 = Ok (tt, c3) ->
  stripPop c3 = Ok (tt, c4) ->
  exists added,
    uptoPop c3 (code c2) added /\ code c4 = code c2 ++ added /\
    wf c4 /\ currentScope c4 = currentScope c2 /\ outer c4 = outer c2 /\
    Opcode (last c4) <> operation.Pop /\
    (last c4 = last c2 \/ len (code c2) <= Position (last c4)) /\
    (b = [] -> added = []).
Proof.
  intros Hb Hwf Hne Hop H3 H4.
  assert (H : wf c3 /\ extends c2 c3 /\ (c3 = c2 \/ grows c2 c3)).
  { destruct (Hb c2 c3 Hwf H3) as [[_ ->] | Hg].
    - split; [exact Hwf |]. split; [apply extends_refl | left; reflexivity].
    - split; [exact (grows_wf _ _ Hg) |]. split; [exact (grows_extends _ _ Hg) |].
      right. exact Hg. }
  destruct H as (Hwf3 & Hext & Hcase).
  assert (Hpop : isEmittedB operation.Pop c3 = true -> grows c2 c3).
  { intros E. destruct Hcase as [-> | Hg]; [| exact Hg].
    rewrite (not_isEmittedB _ c2 Hop) in E. discriminate. }
  destruct (uptoPop_intro c3 c4 (code c2) Hwf3 H4) as
    (added & Hup & Hcode & Hwf4 & Hcur & Hout & _ & _ & Hyes & Hno).
  { apply Hext. }
  { intros E. apply (Hpop E). }
  destruct (extends_same c2 c3 Hext) as [Hcur3 Hout3].
  exists added. split; [exact Hup |]. split; [exact Hcode |]. split; [exact Hwf4 |].
  split; [congruence |]. split; [congruence |].
  destruct (isEmittedB operation.Pop c3) eqn:E.
  - destruct (Hyes eq_refl) as [Hl Hn]. split; [exact Hn |]. split.
    + right. rewrite Hl. apply (Hpop eq_refl).
      apply isEmittedB_true in E. apply E.
    + intros ->. cbn in H3. injection H3 as <-.
      rewrite (not_isEmittedB _ c2 Hop) in E. discriminate.
  - rewrite (Hno eq_refl) in *. destruct Hcase as [-> | Hg].
    + split; [exact Hop |]. split; [left; reflexivity |].
      intros _. apply (app_inv_head (code c2)). rewrite app_nil_r, <- Hcode. reflexivity.
    + split; [apply (isEmittedB_false _ _ E); exact (grows_nonempty _ _ Hg) |].
      split; [right; apply Hg |].
      intros ->. cbn in H3. injection H3 as <-.
      apply (app_inv_head (code c2)). rewrite app_nil_r, <- Hcode. reflexivity.
Qed.

Lemma currentInstructions_inv (c c' : Compiler) (cur : list byte) :
  innermost c -> currentInstructions c = Ok (cur, c') -> cur = code c /\ c' = c.
Proof.
  intros Hin H. rewrite (currentInstructions_eq c Hin) in H. injection H as <- <-.
  split; reflexivity.
Qed.

(** The steps of [Compile] on an if-expression, given what compiling its
    condition and its blocks does. *)
Lemma IfExpression_steps (condition : ast.Expression)
    (consequent : list ast.Statement) (alternate : option (list ast.Statement))
    (c c' : Compiler) :
  expressionGrows ExpressionString condition ->
  blockGrows ExpressionString consequent ->
  (forall alt, alternate = Some alt -> blockGrows ExpressionString alt) ->
  wf c ->
  CompileExpression ExpressionString
    (ast.IfExpression condition consequent alternate) c = Ok (tt, c') ->
  ifExpressionSteps ExpressionString condition consequent alternate c c'.
Proof.
  intros Hcond Hcons Halt Hwf H. unfold ifExpressionSteps.
  cbn [CompileExpression] in H.
  apply bind_Ok_inv in H as ([] & c1 & H1 & H).
  destruct (Hcond c c1 Hwf H1) as [Hg1 Hne1].
  pose proof (grows_wf _ _ Hg1) as Hwf1.
  apply bind_Ok_inv in H as (jntPos & c2 & H2 & H).
  destruct (emit_grows c1 c1 c2 operation.JumpNotTruthy [9999] jntPos Hwf1
              (or_introl (sameShape_refl c1)) ltac:(intros E; discriminate E) H2)
    as (Hg2 & -> & Hl2 & _ & _ & ins2 & Ei2 & Hc2).
  destruct (NewInstruction_16 _ _ _ widths_JumpNotTruthy Ei2) as [-> _].
  pose proof (grows_wf _ _ Hg2) as Hwf2.
  apply bind_Ok_inv in H as ([] & c3 & H3 & H).
  apply bind_Ok_inv in H as ([] & c3' & H3' & H).
  destruct (block_stripped consequent c2 c3 c3' Hcons Hwf2 (grows_nonempty _ _ Hg2)
              ltac:(rewrite Hl2; discriminate) H3 H3')
    as (consCode & Hup3 & Hc3 & Hwf3 & Hcur3 & Hout3 & _ & _ & _).
  apply bind_Ok_inv in H as (jumpPos & c4 & H4 & H).
  destruct (emit_grows c3' c3' c4 operation.Jump [9999] jumpPos Hwf3
              (or_introl (sameShape_refl c3')) ltac:(intros E; discriminate E) H4)
    as (Hg4 & -> & Hl4 & _ & _ & ins4 & Ei4 & Hc4).
  destruct (NewInstruction_16 _ _ _ widths_Jump Ei4) as [-> _].
  pose proof (grows_wf _ _ Hg4) as Hwf4.
  apply bind_Ok_inv in H as (cur & c4' & Hcur & H).
  destruct (currentInstructions_inv c4 c4' cur (wf_innermost _ Hwf4) Hcur) as [-> ->].
  apply bind_Ok_inv in H as ([] & c5 & H5 & H).
  assert (Hc4' : code c4 = code c1 ++ jumpTo operation.JumpNotTruthy 9999
                             ++ (consCode ++ jumpTo operation.Jump 9999)).
  { rewrite Hc4, Hc3, Hc2, <- !app_assoc. reflexivity. }
  destruct (changeOperand_eq c4 c5 _ 9999 (len (code c4)) (code c1)
              (consCode ++ jumpTo operation.Jump 9999) (wf_innermost _ Hwf4) Hc4'
              widths_JumpNotTruthy H5)
    as (Hr5 & Hc5 & Hl5 & Hp5 & Hin5 & Hcur5 & Hout5 & _ & _).
  assert (Hlen5 : len (code c5) = len (code c4)).
  { rewrite Hc5, Hc4'. rewrite !len_app, !jumpTo_len. reflexivity. }
  assert (Hlen3 : len (code c3') = len (code c1) + 3 + len consCode).
  { rewrite Hc3, Hc2, !len_app, jumpTo_len. reflexivity. }
  assert (Hwf5 : wf c5).
  { apply (patch_wf c4 c5 _ 9999 (len (code c4)) (code c1)
             (consCode ++ jumpTo operation.Jump 9999) Hwf4 Hin5 Hc4' Hc5 Hl5 Hp5).
    - rewrite Hl4. discriminate.
    - right. rewrite Hl4. cbn [Position]. pose proof (len_nonneg consCode). lia. }
  rewrite <- Hlen5 in Hc5.
  apply bind_Ok_inv in H as ([] & c7 & H6 & H).
  assert (Hl5' : last c5 = {| Opcode := operation.Jump; Position := len (code c3') |})
    by (rewrite Hl5; exact Hl4).
  assert (Hne5 : code c5 <> []).
  { apply len_pos. rewrite Hlen5. pose proof (grows_nonempty _ _ Hg4) as E.
    apply len_pos in E. exact E. }
  assert (HF : exists c6 altCode,
             match alternate with
             | None =>
                 emit operation.Null [] c5 = Ok (len (code c5), c6) /\
                 altCode = [operation.Null]
             | Some alt =>
                 forEach (CompileStatement ExpressionString) alt c5 = Ok (tt, c6) /\
                 uptoPop c6 (code c5) altCode
             end /\
             wf c7 /\ code c7 = code c5 ++ altCode /\
             currentScope c7 = currentScope c5 /\ outer c7 = outer c5 /\
             Opcode (last c7) <> operation.Pop /\
             (Position (last c7) = len (code c3') \/
              len (code c3') + 3 <= Position (last c7))).
  { destruct alternate as [alt|].
    - apply bind_Ok_inv in H6 as ([] & c6 & H6a & H6b).
      destruct (block_stripped alt c5 c6 c7 (Halt alt eq_refl) Hwf5 Hne5
                  ltac:(rewrite Hl5'; discriminate) H6a H6b)
        as (altCode & Hup6 & Hc6 & Hwf7 & Hcur7 & Hout7 & Hne7 & Hpos7 & _).
      exists c6, altCode. split; [split; assumption |].
      do 5 (split; [assumption |]).
      destruct Hpos7 as [E|E].
      + left. rewrite E, Hl5'. reflexivity.
      + right. rewrite Hlen5, Hc4, len_app, jumpTo_len in E. exact E.
    - apply emit_unit_inv in H6 as [pos H6].
      destruct (emit_grows c5 c5 c7 operation.Null [] pos Hwf5
                  (or_introl (sameShape_refl c5)) ltac:(intros E; discriminate E) H6)
        as (Hg7 & -> & Hl7 & _ & _ & ins7 & Ei7 & Hc7).
      apply NewInstruction_0 in Ei7 as ->; [| reflexivity].
      destruct (extends_same _ _ (grows_extends _ _ Hg7)) as [Hcur7 Hout7].
      exists c7, [operation.Null]. split; [split; [exact H6 | reflexivity] |].
      split; [exact (grows_wf _ _ Hg7) |]. do 3 (split; [assumption |]).
      rewrite Hl7. cbn [Opcode Position]. split; [discriminate |].
      right. rewrite Hlen5, Hc4, len_app, jumpTo_len. lia. }
  destruct HF as (c6 & altCode & Hmatch & Hwf7 & Hc7 & Hcur7 & Hout7 & Hne7 & Hpos7).
  apply bind_Ok_inv in H as (cur & c7' & HcurI & H).
  destruct (currentInstructions_inv c7 c7' cur (wf_innermost _ Hwf7) HcurI) as [-> ->].
  set (pre := code c1 ++ jumpTo operation.JumpNotTruthy (len (code c5)) ++ consCode).
  assert (Hpre : len pre = len (code c3')).
  { unfold pre. rewrite Hlen3, !len_app, jumpTo_len. lia. }
  assert (Hc7' : code c7 = pre ++ jumpTo operation.Jump 9999 ++ altCode).
  { rewrite Hc7, Hc5. unfold pre. rewrite <- !app_assoc. reflexivity. }
  rewrite <- Hpre in H.
  destruct (changeOperand_eq c7 c' _ 9999 (len (code c7)) pre altCode
              (wf_innermost _ Hwf7) Hc7' widths_Jump H)
    as (HrF & HcF & HlF & HpF & HinF & HcurF & HoutF & _ & _).
  assert (HlenF : len (code c') = len (code c7)).
  { rewrite HcF, Hc7'. rewrite !len_app, !jumpTo_len. reflexivity. }
  assert (HwfF : wf c').
  { apply (patch_wf c7 c' _ 9999 (len (code c7)) pre altCode Hwf7 HinF Hc7' HcF HlF HpF Hne7).
    rewrite Hpre. exact Hpos7. }
  rewrite <- HlenF in HcF.
  exists c1, c2, c3, c5, c6, consCode, altCode.
  split; [exact H1 |]. split; [exact H2 |]. split; [exact Hc2 |].
  split; [exact H3 |]. split; [exact Hup3 |]. split; [exact Hc5 |].
  split; [exact Hmatch |].
  split; [etransitivity; [exact HcF |]; unfold pre; rewrite <- !app_assoc; reflexivity |].
  split; [lia |].
  destruct (extends_same _ _ (grows_extends _ _ Hg1)) as [Hcur1 Hout1].
  destruct (extends_same _ _ (grows_extends _ _ Hg2)) as [Hcur2 Hout2].
  destruct (extends_same _ _ (grows_extends _ _ Hg4)) as [Hcur4 Hout4].
  destruct (grows_extends _ _ Hg1) as (_ & _ & condCode & Hc1).
  pose proof (len_nonneg condCode). pose proof (len_nonneg consCode).
  pose proof (len_nonneg (code c)).
  assert (Hl1 : len (code c1) = len (code c) + len condCode) by (rewrite Hc1, len_app; lia).
  split; [| rewrite HlF; exact Hne7].
  split; [exact HwfF |]. split.
  - split; [congruence |]. split; [congruence |].
    exists (condCode ++ jumpTo operation.JumpNotTruthy (len (code c5)) ++ consCode
              ++ jumpTo operation.Jump (len (code c')) ++ altCode).
    etransitivity; [exact HcF |]. unfold pre. rewrite Hc1, <- !app_assoc. reflexivity.
  - rewrite HlF. split; [| split].
    + rewrite HlenF, Hc7', len_app, Hpre, Hlen3.
      pose proof (len_nonneg (jumpTo operation.Jump 9999 ++ altCode)). lia.
    + destruct Hpos7 as [E|E]; rewrite Hlen3 in E; lia.
    + intros E. contradiction.
Qed.

(* ================================================================= *)
(** ** Compiling a function literal *)

Lemma emit_constants (op : byte) (os : list Z) (c c' : Compiler) (pos : Z) :
  innermost c -> emit op os c = Ok (pos, c') -> constants c' = constants c.
Proof.
  intros Hin H. rewrite (emit_eq op os c Hin) in H.
  destruct (operation.NewInstruction op os); [| discriminate].
  injection H as _ <-. reflexivity.
Qed.

(** The loads of the captured symbols, behind a function literal. *)
Lemma loadSymbols_grows (l : list symbols.Symbol) (c c' : Compiler) :
  wf c -> forEach loadSymbol l c = Ok (tt, c') ->
  wf c' /\ (sameShape c c' \/ grows c c') /\ constants c' = constants c.
Proof.
  revert c. induction l as [|s l IH]; intros c Hwf H.
  - cbn in H. injection H as <-.
    split; [exact Hwf |]. split; [left; apply sameShape_refl | reflexivity].
  - rewrite forEach_cons in H. apply bind_Ok_inv in H as ([] & c1 & H1 & H).
    destruct (loadSymbol_grows c c c1 s Hwf (or_introl (sameShape_refl c)) H1)
      as (Hg & _ & Hk).
    destruct (IH c1 (grows_wf _ _ Hg) H) as (Hwf' & Hcase & Hk').
    split; [exact Hwf' |]. split; [| congruence].
    right. destruct Hcase as [Hs | Hg'].
    + exact (sameShape_grows_r c c1 c' Hg Hs).
    + exact (grows_trans c c1 c' Hg Hg').
Qed.

Lemma isEmitted_inv (op : byte) (c c' : Compiler) (b : bool) :
  innermost c -> isEmitted op c = Ok (b, c') -> b = isEmittedB op c /\ c' = c.
Proof.
  intros Hin H. rewrite (isEmitted_eq op c Hin) in H. injection H as <- <-.
  split; reflexivity.
Qed.

Lemma size_ReturnValue : size operation.ReturnValue = 1.
Proof. reflexivity. Qed.

Lemma functionEnd_steps {B : Type} (k : M Compiler B) (cb c' : Compiler) (r : B) :
  wf cb ->
  (let* popped := isEmitted operation.Pop in
   (if popped then changeEmittedTo operation.ReturnValue else ret tt) >>
   let* returned := isEmitted operation.ReturnValue in
   (if negb returned then let* _ := emit operation.Return [] in ret tt else ret tt) >>
   k) cb = Ok (r, c') ->
  exists cf,
    k cf = Ok (r, c') /\
    functionEnd cb (code cf) /\
    innermost cf /\ currentScope cf = currentScope cb /\ outer cf = outer cb /\
    constants cf = constants cb.
Proof.
  intros Hwf H. pose proof (wf_innermost cb Hwf) as Hin. unfold functionEnd.
  apply bind_Ok_inv in H as (popped & c0 & H0 & H).
  destruct (isEmitted_inv _ cb c0 popped Hin H0) as [-> ->].
  apply bind_Ok_inv in H as ([] & c1 & H1 & H).
  apply bind_Ok_inv in H as (returned & c2 & H2 & H).
  apply bind_Ok_inv in H as ([] & cf & H3 & H).
  exists cf. split; [exact H |]. clear H.
  destruct (isEmittedB operation.Pop cb) eqn:Epop.
  - destruct (changeEmittedTo_inv cb c1 Hwf Epop H1)
      as (pre & Hc & Hc1 & Hl1 & Hin1 & Hcur1 & Hout1 & Hk1 & _).
    destruct (isEmitted_inv _ c1 c2 returned Hin1 H2) as [-> ->].
    rewrite (proj2 (isEmittedB_true operation.ReturnValue c1)) in H3.
    + cbn in H3. injection H3 as <-.
      split; [exists pre; split; assumption |]. tauto.
    + split; [rewrite Hc1; intros E; destruct pre; discriminate E |].
      rewrite Hl1. reflexivity.
  - cbn in H1. injection H1 as <-.
    destruct (isEmitted_inv _ cb c2 returned Hin H2) as [-> ->].
    destruct (isEmittedB operation.ReturnValue cb) eqn:Eret.
    + cbn in H3. injection H3 as <-.
      split; [| split; [exact Hin |]; repeat split]. split; [reflexivity |].
      apply isEmittedB_true in Eret as [Hne Hop].
      destruct Hwf as (_ & Hlast & _). destruct (Hlast Hne) as (Hp0 & Hp1 & Hp2).
      rewrite Hop in Hp1, Hp2. rewrite size_ReturnValue in Hp1.
      eexists. exact (snoc_of_index _ _ _ Hp2 Hp1).
    + cbn [negb] in H3. apply emit_unit_inv in H3 as [pos H3].
      pose proof (emit_constants _ _ _ _ _ Hin H3) as Hk.
      rewrite (emit_eq _ _ cb Hin) in H3.
      change (operation.NewInstruction operation.Return [])
        with (Some [operation.Return]) in H3.
      injection H3 as _ <-.
      rewrite code_withScope by exact Hin. cbn [instructions].
      split; [reflexivity |]. split; [apply withScope_innermost; exact Hin |].
      split; [reflexivity |]. split; [apply outer_withScope | exact Hk].
Qed.

Lemma define_sameShape (p : string) (c c' : Compiler) :
  (let* _ := onSymbols (symbols.Define p) in ret tt) c = Ok (tt, c') ->
  sameShape c c' /\ constants c' = constants c.
Proof.
  intros H. apply bind_Ok_inv in H as (a & c1 & H1 & H). injection H as <-.
  exact (onSymbols_inv _ _ _ _ H1).
Qed.

(** The steps of [Compile] on a function literal, given what compiling its
    body does. *)
Lemma FunctionLiteral_steps (parameters : list string) (body : list ast.Statement)
    (c c' : Compiler) :
  blockGrows ExpressionString body ->
  wf c ->
  CompileExpression ExpressionString (ast.FunctionLiteral parameters body) c
    = Ok (tt, c') ->
  exists c0 cb fn,
    (enterScope >>
     forEach (fun p => let* _ := onSymbols (symbols.Define p) in ret tt) parameters) c
      = Ok (tt, c0) /\
    code c0 = [] /\
    forEach (CompileStatement ExpressionString) body c0 = Ok (tt, cb) /\
    functionEnd cb (data.Instructions fn) /\
    data.ParamCount fn = len parameters /\
    constants c' = constants cb ++ [data.Fn fn] /\
    grows c c' /\ Opcode (last c') <> operation.Pop.
Proof.
  intros Hbody Hwf H. cbn [CompileExpression] in H.
  apply bind_Ok_inv in H as ([] & ce & He & H).
  destruct (enterScope_inv c ce Hwf He) as (Hwfe & Hce & Hcure & Houte & Hke).
  apply bind_Ok_inv in H as ([] & c0 & H0 & H).
  destruct (forEach_sameShape _ parameters define_sameShape ce c0 H0) as [Hs0 Hk0].
  pose proof (sameShape_wf ce c0 Hs0 Hwfe) as Hwf0.
  assert (Hc0 : code c0 = []).
  { unfold code. rewrite (sameShape_theScope ce c0 Hs0). exact Hce. }
  apply bind_Ok_inv in H as ([] & cb & Hb & H).
  assert (Hcb : wf cb /\ extends c0 cb).
  { destruct (Hbody c0 cb Hwf0 Hb) as [[_ ->] | Hg].
    - split; [exact Hwf0 | apply extends_refl].
    - split; [exact (grows_wf _ _ Hg) | exact (grows_extends _ _ Hg)]. }
  destruct Hcb as [Hwfb Hextb]. destruct (extends_same _ _ Hextb) as [Hcurb Houtb].
  apply functionEnd_steps in H as (cf & H & Hend & Hinf & Hcurf & Houtf & Hkf);
    [| exact Hwfb].
  apply bind_Ok_inv in H as (freeSymbols & cf1 & Hf1 & H).
  destruct (onSymbols_inv _ _ _ _ Hf1) as [Hs1 Hk1].
  apply bind_Ok_inv in H as (localCount & cf2 & Hf2 & H).
  destruct (onSymbols_inv _ _ _ _ Hf2) as [Hs2 Hk2].
  pose proof (sameShape_trans _ _ _ Hs1 Hs2) as Hs12.
  apply bind_Ok_inv in H as (ins & cl & Hl & H).
  assert (Hinf2 : innermost cf2).
  { destruct Hs12 as [E1 E2]. unfold innermost. rewrite E1, E2. exact Hinf. }
  destruct (leaveScope_inv cf2 cl ins Hinf2 Hl) as (-> & Hscl & Hcurl & Hkl).
  assert (Hcode2 : code cf2 = code cf).
  { unfold code. rewrite (sameShape_theScope cf cf2 Hs12). reflexivity. }
  assert (Hsl : sameShape c cl).
  { destruct Hs12 as [E1 E2]. destruct Hs0 as [E3 E4]. split.
    - rewrite Hscl. unfold outer. rewrite E1, E2. fold (outer cf).
      rewrite Houtf, Houtb. unfold outer. rewrite E3, E4. exact Houte.
    - rewrite Hcurl, E2, Hcurf, Hcurb, E4, Hcure. lia. }
  pose proof (sameShape_wf c cl Hsl Hwf) as Hwfl.
  apply bind_Ok_inv in H as ([] & cs & Hls & H).
  destruct (loadSymbols_grows freeSymbols cl cs Hwfl Hls) as (Hwfs & Hcase & Hks).
  apply bind_Ok_inv in H as (fnIndex & ca & Ha & H).
  destruct (addConstant_inv _ _ _ _ Ha) as (Hsa & Hka & _ & _).
  assert (Hfrom : sameShape c ca \/ grows c ca).
  { destruct Hcase as [Hs | Hg].
    - left. exact (sameShape_trans _ _ _ (sameShape_trans _ _ _ Hsl Hs) Hsa).
    - right. apply (sameShape_grows_l c cl ca Hsl).
      exact (sameShape_grows_r cl cs ca Hg Hsa). }
  destruct (emit_last c ca c' operation.Closure _ (sameShape_wf cs ca Hsa Hwfs) Hfrom
              ltac:(intros E; discriminate E) H) as (Hg & Hne & Hk).
  exists c0, cb,
    {| data.Instructions := code cf2; data.LocalCount := localCount;
       data.ParamCount := len parameters |}.
  split; [unfold bind; rewrite He; exact H0 |]. split; [exact Hc0 |].
  split; [exact Hb |]. split; [cbn; rewrite Hcode2; exact Hend |].
  split; [reflexivity |]. split; [| split; assumption].
  rewrite Hk, Hka, Hks, Hkl, Hk2, Hk1, Hkf. reflexivity.
Qed.

(* ================================================================= *)
(** ** What compiling a node does to the instructions *)

Lemma insertSorted_perm {A : Type} (less : A -> A -> bool) (x : A) (l : list A) :
  Permutation (insertSorted less x l) (x :: l).
Proof.
  induction l as [|y l IH]; cbn; [reflexivity |].
  destruct (less x y); [reflexivity |].
  rewrite IH. apply perm_swap.
Qed.

Lemma sortSlice_perm {A : Type} (less : A -> A -> bool) (l : list A) :
  Permutation (sortSlice less l) l.
Proof.
  unfold sortSlice.
  assert (H : forall acc, Permutation (fold_left (fun sorted x => insertSorted less x sorted) l acc)
                            (acc ++ l)).
  { induction l as [|x l IH]; intros acc; cbn.
    - rewrite app_nil_r. reflexivity.
    - rewrite IH, insertSorted_perm. cbn.
      rewrite Permutation_middle. reflexivity. }
  apply (H []).
Qed.

Lemma list_sum_elem {A : Type} (f : A -> nat) (x : A) (l : list A) :
  x ∈ l -> (f x <= list_sum (map f l))%nat.
Proof.
  induction 1 as [x l | x y l _ IH]; cbn [map list_sum foldr fold_right];
    change (foldr Nat.add 0%nat (map f l)) with (list_sum (map f l)) in *; lia.
Qed.

Lemma blockGrows_of (b : list ast.Statement) :
  (forall s, s ∈ b -> statementGrows ExpressionString s) ->
  blockGrows ExpressionString b.
Proof.
  intros Hb c c' Hwf H.
  destruct (forEach_grows (CompileStatement ExpressionString) b (fun _ => Logic.True)
              (fun s Hs x x' Hx Hc => conj (Hb s Hs x x' Hx Hc) I) c c' Hwf H)
    as [Hnil | [Hg _]]; [left; exact Hnil | right; exact Hg].
Qed.

(** A list of expressions compiled one after the other, from a compiler
    that comes from [a]. *)
Lemma expressions_grow (l : list ast.Expression) (a c c' : Compiler) :
  (forall e, e ∈ l -> expressionGrows ExpressionString e) ->
  wf c -> sameShape a c \/ grows a c ->
  forEach (CompileExpression ExpressionString) l c = Ok (tt, c') ->
  wf c' /\ (sameShape a c' \/ grows a c') /\
  (grows a c -> Opcode (last c) <> operation.Pop ->
   grows a c' /\ Opcode (last c') <> operation.Pop).
Proof.
  intros Hl Hwf Ha H.
  destruct (forEach_grows (CompileExpression ExpressionString) l
              (fun x => Opcode (last x) <> operation.Pop) Hl c c' Hwf H)
    as [[_ ->] | [Hg Hne]].
  - split; [exact Hwf |]. split; [exact Ha |]. intros Hg Hne. split; assumption.
  - assert (Hg' : grows a c').
    { destruct Ha as [Hs | Hg0].
      - exact (sameShape_grows_l a c c' Hs Hg).
      - exact (grows_trans a c c' Hg0 Hg). }
    split; [exact (grows_wf _ _ Hg) |]. split; [right; exact Hg' |].
    intros _ _. split; assumption.
Qed.

Ltac emit_end Hwf Ha H :=
  first
    [ discriminate H
    | let Hr := fresh "Hr" in
      pose proof (fun Hop => emit_last _ _ _ _ _ Hwf Ha Hop H) as Hr;
      match type of Hr with
      | ?P -> _ =>
          let Hop := fresh "Hop" in
          assert (Hop : P) by (let E := fresh in intros E; discriminate E);
          specialize (Hr Hop)
      end;
      split; apply Hr ].

Lemma compile_grows_size (n : nat) :
  (forall e, (ast.esize e < n)%nat -> expressionGrows ExpressionString e) /\
  (forall s, (ast.ssize s < n)%nat -> statementGrows ExpressionString s).
Proof.
  induction n as [|n [IHe IHs]]; [split; intros ? H; lia |].
  split.
  - intros e Hsize c c' Hwf H. destruct e; cbn [ast.esize] in Hsize;
      cbn [CompileExpression] in H.
    + (* Identifier *)
      apply bind_Ok_inv in H as (found & c1 & H1 & H).
      destruct (onSymbols_inv _ _ _ _ H1) as [Hs _].
      destruct found as [symbol|]; [| discriminate H].
      destruct (loadSymbol_grows c c1 c' symbol (sameShape_wf _ _ Hs Hwf) (or_introl Hs) H)
        as (Hg & Hne & _).
      split; assumption.
    + (* IntegerLiteral *)
      apply bind_Ok_inv in H as (i & c1 & H1 & H).
      destruct (addConstant_inv _ _ _ _ H1) as (Hs & _).
      emit_end (sameShape_wf _ _ Hs Hwf) (@or_introl _ (grows c c1) Hs) H.
    + (* Boolean *)
      destruct Value; emit_end Hwf (@or_introl _ (grows c c) (sameShape_refl c)) H.
    + (* StringLiteral *)
      apply bind_Ok_inv in H as (i & c1 & H1 & H).
      destruct (addConstant_inv _ _ _ _ H1) as (Hs & _).
      emit_end (sameShape_wf _ _ Hs Hwf) (@or_introl _ (grows c c1) Hs) H.
    + (* PrefixExpression *)
      apply bind_Ok_inv in H as ([] & c1 & H1 & H).
      destruct (IHe e ltac:(lia) c c1 Hwf H1) as [Hg1 _].
      repeat (destruct (decide _) in H;
              [emit_end (grows_wf _ _ Hg1) (@or_intror (sameShape c c1) _ Hg1) H |]).
      discriminate H.
    + (* InfixExpression *)
      destruct (decide _) in H.
      * apply bind_Ok_inv in H as ([] & c1 & H1 & H).
        destruct (IHe e2 ltac:(lia) c c1 Hwf H1) as [Hg1 _].
        apply bind_Ok_inv in H as ([] & c2 & H2 & H).
        destruct (IHe e1 ltac:(lia) c1 c2 (grows_wf _ _ Hg1) H2) as [Hg2 _].
        pose proof (grows_trans _ _ _ Hg1 Hg2) as Hg.
        emit_end (grows_wf _ _ Hg2) (@or_intror (sameShape c c2) _ Hg) H.
      * apply bind_Ok_inv in H as ([] & c1 & H1 & H).
        destruct (IHe e1 ltac:(lia) c c1 Hwf H1) as [Hg1 _].
        apply bind_Ok_inv in H as ([] & c2 & H2 & H).
        destruct (IHe e2 ltac:(lia) c1 c2 (grows_wf _ _ Hg1) H2) as [Hg2 _].
        pose proof (grows_trans _ _ _ Hg1 Hg2) as Hg.
        repeat (destruct (decide _) in H;
                [emit_end (grows_wf _ _ Hg2) (@or_intror (sameShape c c2) _ Hg) H |]).
        discriminate H.
    + (* ArrayLiteral *)
      apply bind_Ok_inv in H as ([] & c1 & H1 & H).
      destruct (expressions_grow Elements c c c1) as (Hwf1 & Ha1 & _); try assumption.
      { intros e He. apply IHe. pose proof (list_sum_elem ast.esize e Elements He). lia. }
      { left. apply sameShape_refl. }
      emit_end Hwf1 Ha1 H.
    + (* HashLiteral *)
      apply bind_Ok_inv in H as ([] & c1 & H1 & H).
      match type of H1 with
      | forEach snd (sortSlice less ?keys) c = _ =>
          destruct (forEach_grows snd (sortSlice less keys)
                      (fun x => Opcode (last x) <> operation.Pop)) with (c := c) (c' := c1)
            as [[_ ->] | [Hg1 _]]
      end; try assumption.
      { intros x Hx. rewrite sortSlice_perm in Hx.
        apply list_elem_of_fmap in Hx as ([k v] & -> & Hkv).
        pose proof (list_sum_elem (fun p : ast.Expression * ast.Expression =>
                                     (ast.esize (fst p) + ast.esize (snd p))%nat)
                      (k, v) Pairs Hkv) as Hle.
        cbn [fst snd] in *. intros x x' Hx Hc.
        apply bind_Ok_inv in Hc as ([] & x1 & Hk & Hv).
        destruct (IHe k ltac:(lia) x x1 Hx Hk) as [Hgk _].
        destruct (IHe v ltac:(lia) x1 x' (grows_wf _ _ Hgk) Hv) as [Hgv Hnv].
        split; [exact (grows_trans _ _ _ Hgk Hgv) | exact Hnv]. }
      { emit_end Hwf (@or_introl _ (grows c c) (sameShape_refl c)) H. }
      { emit_end (grows_wf _ _ Hg1) (@or_intror (sameShape c c1) _ Hg1) H. }
    + (* IndexExpression *)
      apply bind_Ok_inv in H as ([] & c1 & H1 & H).
      destruct (IHe e1 ltac:(lia) c c1 Hwf H1) as [Hg1 _].
      apply bind_Ok_inv in H as ([] & c2 & H2 & H).
      destruct (IHe e2 ltac:(lia) c1 c2 (grows_wf _ _ Hg1) H2) as [Hg2 _].
      pose proof (grows_trans _ _ _ Hg1 Hg2) as Hg.
      emit_end (grows_wf _ _ Hg2) (@or_intror (sameShape c c2) _ Hg) H.
    + (* IfExpression *)
      destruct (IfExpression_steps e Consequent Alternate c c') as
        (? & ? & ? & ? & ? & ? & ? & Hr); try assumption.
      * apply IHe. lia.
      * apply blockGrows_of. intros s Hs. apply IHs.
        pose proof (list_sum_elem ast.ssize s Consequent Hs). lia.
      * intros alt ->. apply blockGrows_of. intros s Hs. apply IHs.
        pose proof (list_sum_elem ast.ssize s alt Hs). lia.
      * split; apply Hr.
    + (* FunctionLiteral *)
      destruct (FunctionLiteral_steps Parameters Body c c') as (? & ? & ? & Hr);
        try assumption.
      * apply blockGrows_of. intros s Hs. apply IHs.
        pose proof (list_sum_elem ast.ssize s Body Hs). lia.
      * split; apply Hr.
    + (* CallExpression *)
      apply bind_Ok_inv in H as ([] & c1 & H1 & H).
      destruct (IHe e ltac:(lia) c c1 Hwf H1) as [Hg1 _].
      apply bind_Ok_inv in H as ([] & c2 & H2 & H).
      destruct (expressions_grow Arguments c c1 c2) as (Hwf2 & Ha2 & _);
        try assumption.
      { intros a Ha. apply IHe. pose proof (list_sum_elem ast.esize a Arguments Ha). lia. }
      { exact (grows_wf _ _ Hg1). }
      { right. exact Hg1. }
      emit_end Hwf2 Ha2 H.
  - intros s Hsize c c' Hwf H. destruct s; cbn [ast.ssize] in Hsize;
      cbn [CompileStatement] in H.
    + (* ExpressionStatement *)
      apply bind_Ok_inv in H as ([] & c1 & H1 & H).
      destruct (IHe Expression_ ltac:(lia) c c1 Hwf H1) as [Hg1 Hne1].
      apply emit_unit_inv in H as [pos H].
      apply (emit_grows c c1 c' _ _ pos (grows_wf _ _ Hg1) (or_intror Hg1)
               (fun _ => conj Hg1 Hne1) H).
    + (* LetStatement *)
      apply bind_Ok_inv in H as (symbol & c1 & H1 & H).
      destruct (onSymbols_inv _ _ _ _ H1) as [Hs _].
      apply bind_Ok_inv in H as ([] & c2 & H2 & H).
      destruct (IHe Value ltac:(lia) c1 c2 (sameShape_wf _ _ Hs Hwf) H2) as [Hg2 _].
      pose proof (sameShape_grows_l _ _ _ Hs Hg2) as Hg.
      destruct (decide _) in H;
        (eapply (emit_last c c2 c' _ _ (grows_wf _ _ Hg2) (or_intror Hg));
         [| exact H]; intros E; discriminate E).
    + (* ReturnStatement *)
      apply bind_Ok_inv in H as ([] & c1 & H1 & H).
      destruct (IHe ReturnValue ltac:(lia) c c1 Hwf H1) as [Hg1 _].
      eapply (emit_last c c1 c' _ _ (grows_wf _ _ Hg1) (or_intror Hg1));
        [| exact H]; intros E; discriminate E.
Qed.

(** Compiling an expression adds instructions to the current scope, the
    last of them no [Pop]; compiling a statement adds instructions; and the
    bookkeeping of the emitted instructions stays right. *)
Lemma expression_grows (e : ast.Expression) : expressionGrows ExpressionString e.
Proof. apply (proj1 (compile_grows_size (S (ast.esize e)))). lia. Qed.

Lemma statement_grows (s : ast.Statement) : statementGrows ExpressionString s.
Proof. apply (proj2 (compile_grows_size (S (ast.ssize s)))). lia. Qed.

Lemma block_grows (b : list ast.Statement) : blockGrows ExpressionString b.
Proof. apply blockGrows_of. intros s _. apply statement_grows. Qed.

(** C4.  Compiling an if-expression, from a compiler whose bookkeeping
    is right ([wf], as that of a new compiler is), goes by the steps of
    [ifExpressionSteps]: [JumpNotTruthy] with a placeholder, the consequent
    without its trailing [Pop], [Jump] with a placeholder, the operand of
    [JumpNotTruthy] set to the position just past that [Jump], [Null] or the
    alternate without its trailing [Pop], and the operand of [Jump] set to
    the end of the stream. *)
Theorem IfExpression_layout (condition : ast.Expression)
    (consequent : list ast.Statement) (alternate : option (list ast.Statement))
    (c c' : Compiler) :
  wf c ->
  CompileExpression ExpressionString
    (ast.IfExpression condition consequent alternate) c = Ok (tt, c') ->
  ifExpressionSteps ExpressionString condition consequent alternate c c'.
Proof.
  intros Hwf H.
  apply (IfExpression_steps condition consequent alternate c c'); try assumption.
  - apply expression_grows.
  - apply block_grows.
  - intros alt _. apply block_grows.
Qed.

(** C5.  Compiling a function literal, from a compiler whose bookkeeping
    is right, goes by the steps of [functionLiteralSteps]: the instructions
    of the compiled function are those of the body with the [Pop] that ends
    them rewritten in place into [ReturnValue] when the last emitted
    instruction is a [Pop]; they are those of the body when the last
    emitted is a [ReturnValue] already; and otherwise (no [ReturnValue]
    emitted last, as for an empty body) they are those of the body with a
    [Return] appended.  So the instructions of every compiled function end
    in [ReturnValue] or in [Return]. *)
Theorem FunctionLiteral_returns (parameters : list string) (body : list ast.Statement)
    (c c' : Compiler) :
  wf c ->
  CompileExpression ExpressionString (ast.FunctionLiteral parameters body) c
    = Ok (tt, c') ->
  functionLiteralSteps ExpressionString parameters body c c'.
Proof.
  intros Hwf H. unfold functionLiteralSteps.
  destruct (FunctionLiteral_steps parameters body c c' (block_grows body) Hwf H)
    as (c0 & cb & fn & H0 & Hc0 & Hb & Hend & Hp & Hk & _).
  exists c0, cb, fn. do 6 (split; [assumption |]).
  unfold functionEnd in Hend. split.
  - intros ->. cbn in Hb. injection Hb as <-. unfold isEmittedB in Hend.
    rewrite Hc0 in Hend. cbn in Hend. exact Hend.
  - destruct (isEmittedB operation.Pop cb).
    + destruct Hend as (pre & _ & E). exists pre. left. exact E.
    + destruct (isEmittedB operation.ReturnValue cb).
      * destruct Hend as (E & pre & E'). exists pre. left. congruence.
      * exists (code cb). right. exact Hend.
Qed.

End CompileFacts.

End CompilerFacts.

(** A new compiler has its bookkeeping right. *)
Lemma New_wf (builtins : list string) : compiler.wf (compiler.New builtins).
Proof.
  split; [split; [cbn; lia | reflexivity] |].
  split; intros H; contradiction H; reflexivity.
Qed.

(* ================================================================= *)
(** ** The order of the keys of a hash literal *)

Lemma ltb_Lt (s1 s2 : string) : String.ltb s1 s2 = true <-> String.compare s1 s2 = Lt.
Proof. unfold String.ltb. destruct (String.compare s1 s2); split; congruence. Qed.

Lemma ascii_compare_refl (a : ascii) : Ascii.compare a a = Eq.
Proof. apply N.compare_refl. Qed.

Lemma ascii_compare_lt_trans (a b c : ascii) :
  Ascii.compare a b = Lt -> Ascii.compare b c = Lt -> Ascii.compare a c = Lt.
Proof.
  unfold Ascii.compare. rewrite !N.compare_lt_iff. apply N.lt_trans.
Qed.

Lemma string_compare_refl (s : string) : String.compare s s = Eq.
Proof. induction s as [|a s IH]; cbn; [reflexivity |]. rewrite ascii_compare_refl. exact IH. Qed.

Lemma string_compare_lt_trans (s1 s2 s3 : string) :
  String.compare s1 s2 = Lt -> String.compare s2 s3 = Lt -> String.compare s1 s3 = Lt.
Proof.
  revert s2 s3. induction s1 as [|a s1 IH]; intros [|b s2] [|c s3]; cbn;
    try discriminate; try reflexivity.
  destruct (Ascii.compare a b) eqn:Eab; try discriminate.
  - apply Ascii.compare_eq_iff in Eab as ->.
    destruct (Ascii.compare b c); try discriminate; [apply IH | reflexivity].
  - intros _. destruct (Ascii.compare b c) eqn:Ebc; try discriminate.
    + apply Ascii.compare_eq_iff in Ebc as <-. rewrite Eab. reflexivity.
    + rewrite (ascii_compare_lt_trans a b c Eab Ebc). reflexivity.
Qed.

(** The strings are strictly and totally ordered by [String.ltb]. *)
Lemma ltb_irrefl (s : string) : String.ltb s s = false.
Proof. unfold String.ltb. rewrite string_compare_refl. reflexivity. Qed.

Lemma ltb_trans (s1 s2 s3 : string) :
  String.ltb s1 s2 = true -> String.ltb s2 s3 = true -> String.ltb s1 s3 = true.
Proof. rewrite !ltb_Lt. apply string_compare_lt_trans. Qed.

Lemma ltb_total (s1 s2 : string) :
  s1 <> s2 -> String.ltb s1 s2 = false -> String.ltb s2 s1 = true.
Proof.
  intros Hne H. apply ltb_Lt. rewrite String.compare_antisym.
  unfold String.ltb in H. destruct (String.compare s1 s2) eqn:E; try discriminate.
  - apply String.compare_eq_iff in E. contradiction.
  - reflexivity.
Qed.

Section SortByKey.

Context {A : Type}.

Lemma insertSorted_Sorted (x : string * A) (l : list (string * A)) :
  Sorted compiler.keyBefore l -> (forall y, y ∈ l -> fst y <> fst x) ->
  Sorted compiler.keyBefore (compiler.insertSorted compiler.lessKey x l).
Proof.
  induction 1 as [|y l Hl IH Hy]; intros Hx; cbn.
  - repeat constructor.
  - destruct (compiler.lessKey x y) eqn:E; unfold compiler.lessKey in E.
    + constructor; [constructor; assumption | constructor; exact E].
    + assert (Hyx : compiler.keyBefore y x).
      { apply ltb_total; [| exact E]. intros Heq. apply (Hx y); [left | congruence]. }
      constructor.
      * apply IH. intros z Hz. apply Hx. right. exact Hz.
      * destruct l as [|z l]; cbn; [constructor; exact Hyx |].
        destruct (compiler.lessKey x z); constructor; [exact Hyx |].
        inversion Hy; assumption.
Qed.

Lemma sortSlice_Sorted (l : list (string * A)) :
  NoDup (map fst l) -> Sorted compiler.keyBefore (compiler.sortSlice compiler.lessKey l).
Proof.
  unfold compiler.sortSlice.
  assert (H : forall acc, Sorted compiler.keyBefore acc -> NoDup (map fst (acc ++ l)) ->
                Sorted compiler.keyBefore (fold_left (fun sorted x => compiler.insertSorted compiler.lessKey x sorted) l acc)).
  { induction l as [|x l IH]; intros acc Hacc Hnd; cbn; [exact Hacc |].
    apply IH.
    - apply insertSorted_Sorted; [exact Hacc |].
      intros y Hy Heq. rewrite map_app in Hnd. cbn in Hnd.
      apply NoDup_app in Hnd as (_ & Hd & _).
      apply (Hd (fst y)); [apply list_elem_of_fmap; exists y; split; [reflexivity | exact Hy] |].
      rewrite Heq. left.
    - assert (Hp : Permutation (compiler.insertSorted compiler.lessKey x acc ++ l) (acc ++ x :: l)).
      { rewrite insertSorted_perm. cbn. apply Permutation_middle. }
      rewrite Hp. exact Hnd. }
  intros Hnd. apply (H []); [constructor | exact Hnd].
Qed.

(** Two slices with the same elements, whose keys are pairwise distinct,
    are sorted into the same slice, whatever the order they come in. *)
Lemma sortSlice_unique (l1 l2 : list (string * A)) :
  Permutation l1 l2 -> NoDup (map fst l1) ->
  compiler.sortSlice compiler.lessKey l1 = compiler.sortSlice compiler.lessKey l2.
Proof.
  intros Hp Hnd.
  assert (Htrans : Transitive (@compiler.keyBefore A)).
  { intros x y z. apply ltb_trans. }
  apply (StronglySorted_unique_strong compiler.keyBefore).
  - intros x y _ _ Hxy Hyx. exfalso.
    pose proof (ltb_trans _ _ _ Hxy Hyx) as H. rewrite ltb_irrefl in H. discriminate H.
  - apply Sorted_StronglySorted; [exact Htrans |]. apply sortSlice_Sorted. exact Hnd.
  - apply Sorted_StronglySorted; [exact Htrans |]. apply sortSlice_Sorted.
    rewrite <- Hp. exact Hnd.
  - rewrite !sortSlice_perm. exact Hp.
Qed.

End SortByKey.

Section HashLiteral.

Variable ExpressionString : ast.Expression -> string.

(** X8.  The sort does what its comment says when the keys of the literal
    have pairwise distinct texts: the order in which [range] visits the map
    does not matter, the two compilations give the same result from the
    same compiler. *)
Lemma HashLiteral_distinct_keys (pairs1 pairs2 : list (ast.Expression * ast.Expression))
    (c : compiler.Compiler) :
  Permutation pairs1 pairs2 ->
  NoDup (map (fun p => ExpressionString (fst p)) pairs1) ->
  compiler.CompileExpression ExpressionString (ast.HashLiteral pairs1) c =
  compiler.CompileExpression ExpressionString (ast.HashLiteral pairs2) c.
Proof.
  intros Hp Hnd. cbn [compiler.CompileExpression]. change compiler.less with (@compiler.lessKey (M compiler.Compiler unit)).
  match goal with
  | |- bind (forEach snd (compiler.sortSlice _ (map ?g pairs1))) _ c = _ =>
      rewrite (sortSlice_unique (map g pairs1) (map g pairs2))
  end.
  - unfold len. rewrite (Permutation_length Hp). reflexivity.
  - apply Permutation_map. exact Hp.
  - rewrite map_map. exact Hnd.
Qed.

(** C6 fails on the code where two keys of a hash literal have the same
    text.  The literal [{1: "a", 1: "b"}] is one map of two entries; when
    [range] visits the entry of "a" first, the constants are
    [1, "a", 1, "b"], and when it visits the entry of "b" first, they are
    [1, "b", 1, "a"]: the sort by the text of the key leaves the two keys
    in the order they came in.  The bytecode of the two compilations of
    this one literal differs. *)
Theorem HashLiteral_same_text_keys (builtins : list string) :
  Permutation examples.sameKeyTwice examples.sameKeyTwice' /\
  compiler.compileNew ExpressionString builtins (examples.hashProgram examples.sameKeyTwice) =
    Ok {| compiler.Instructions :=
            [operation.Constant; x00; x00; operation.Constant; x00; x01;
             operation.Constant; x00; x02; operation.Constant; x00; x03;
             operation.Hash; x00; x04; operation.Pop];
          compiler.Constants :=
            [data.Integer 1; data.String_ "a"; data.Integer 1; data.String_ "b"] |} /\
  compiler.compileNew ExpressionString builtins (examples.hashProgram examples.sameKeyTwice') =
    Ok {| compiler.Instructions :=
            [operation.Constant; x00; x00; operation.Constant; x00; x01;
             operation.Constant; x00; x02; operation.Constant; x00; x03;
             operation.Hash; x00; x04; operation.Pop];
          compiler.Constants :=
            [data.Integer 1; data.String_ "b"; data.Integer 1; data.String_ "a"] |} /\
  compiler.compileNew ExpressionString builtins (examples.hashProgram examples.sameKeyTwice) <>
  compiler.compileNew ExpressionString builtins (examples.hashProgram examples.sameKeyTwice').
Proof.
  assert (H1 : compiler.compileNew ExpressionString builtins
                 (examples.hashProgram examples.sameKeyTwice) =
               Ok {| compiler.Instructions :=
                       [operation.Constant; x00; x00; operation.Constant; x00; x01;
                        operation.Constant; x00; x02; operation.Constant; x00; x03;
                        operation.Hash; x00; x04; operation.Pop];
                     compiler.Constants :=
                       [data.Integer 1; data.String_ "a"; data.Integer 1;
                        data.String_ "b"] |}).
  { unfold compiler.compileNew, examples.hashProgram, examples.sameKeyTwice,
      compiler.Compile.
    cbn [forEach compiler.CompileStatement compiler.CompileExpression map fst snd].
    unfold compiler.sortSlice. cbn [fold_left compiler.insertSorted].
    unfold compiler.less at 1. cbn [fst]. rewrite ltb_irrefl.
    vm_compute. reflexivity. }
  assert (H2 : compiler.compileNew ExpressionString builtins
                 (examples.hashProgram examples.sameKeyTwice') =
               Ok {| compiler.Instructions :=
                       [operation.Constant; x00; x00; operation.Constant; x00; x01;
                        operation.Constant; x00; x02; operation.Constant; x00; x03;
                        operation.Hash; x00; x04; operation.Pop];
                     compiler.Constants :=
                       [data.Integer 1; data.String_ "b"; data.Integer 1;
                        data.String_ "a"] |}).
  { unfold compiler.compileNew, examples.hashProgram, examples.sameKeyTwice',
      compiler.Compile.
    cbn [forEach compiler.CompileStatement compiler.CompileExpression map fst snd].
    unfold compiler.sortSlice. cbn [fold_left compiler.insertSorted].
    unfold compiler.less at 1. cbn [fst]. rewrite ltb_irrefl.
    vm_compute. reflexivity. }
  split; [apply perm_swap |]. split; [exact H1 |]. split; [exact H2 |].
  rewrite H1, H2. intros E. discriminate E.
Qed.

End HashLiteral.

(* ================================================================= *)
(** ** The helpers of the compiler *)

Section CompilerOperations.

Import compiler.

(** X9.  [enterScope] followed by [leaveScope] is a round trip: from a
    compiler that is in its innermost scope, the pair returns the empty
    instruction stream of the scope that was entered and gives back the
    compiler as it was, its scopes, its scope index and its symbol table
    included. *)
Theorem enterScope_leaveScope_round_trip (c : Compiler) :
  innermost c -> (enterScope >> leaveScope) c = Ok ([], c).
Proof.
  intros [H0 H1].
  unfold enterScope, bind, modify. cbn.
  unfold leaveScope, bind.
  rewrite currentInstructions_eq.
  2:{ split; cbn; [lia |]. rewrite len_app, len_one. lia. }
  unfold code, theScope. cbn. rewrite H1, index_app_here. cbn.
  unfold sliceTo. rewrite decide_True.
  2:{ rewrite len_app, len_one. pose proof (len_nonneg (scopes c)). lia. }
  cbn. rewrite len_app, len_one.
  replace (len (scopes c) + 1 - 1) with (len (scopes c)) by lia.
  rewrite take_app_len.
  replace (len (scopes c) - 1) with (currentScope c) by lia.
  destruct c; reflexivity.
Qed.

Lemma emitted_scope (c : Compiler) (ins : list byte) (op : byte) :
  innermost c ->
  let c1 := withScope {| instructions := code c ++ ins;
                         emitted := {| Opcode := op; Position := len (code c) |};
                         prevEmitted := last c |} c in
  innermost c1 /\ (code c1 = code c ++ ins) /\
  (last c1 = {| Opcode := op; Position := len (code c) |}) /\ (prev c1 = last c).
Proof.
  intros Hin c1. split; [apply withScope_innermost; exact Hin |].
  unfold code, last, prev, c1. rewrite (theScope_withScope _ c Hin).
  repeat split.
Qed.

(** X10.  [isEmitted] reads back what [emit] recorded: after a successful
    [emit] of the opcode [op], [isEmitted op'] is true exactly when [op'] is
    [op], and asking does not change the compiler. *)
Theorem emit_then_isEmitted (op op' : byte) (os : list Z) (c c' : Compiler) (pos : Z) :
  innermost c -> emit op os c = Ok (pos, c') ->
  isEmitted op' c' = Ok (bool_decide (op = op'), c').
Proof.
  intros Hin H. rewrite (emit_eq op os c Hin) in H.
  destruct (operation.NewInstruction op os) as [ins|] eqn:E; [| discriminate].
  injection H as _ <-.
  destruct (NewInstruction_Some op os ins E) as (bs & -> & _).
  rewrite isEmitted_eq by (apply withScope_innermost; exact Hin).
  unfold code, last. rewrite (theScope_withScope _ c Hin). cbn.
  rewrite decide_False; [reflexivity |].
  rewrite len_app. pose proof (len_nonneg (code c)).
  assert (0 < len (op :: bs)) by (apply len_pos; discriminate). unfold code in *. lia.
Qed.

(** X11.  [preventPop] takes back the last [emit], whatever its opcode:
    the instructions and the record of the last emitted instruction are
    those from before the [emit].  The record of the instruction emitted
    before that one is not restored: it is left equal to the record of the
    last emitted one. *)
Theorem preventPop_undoes_emit (op : byte) (os : list Z) (c c1 : Compiler) (pos : Z) :
  innermost c -> emit op os c = Ok (pos, c1) ->
  preventPop c1 =
    Ok (tt, withScope {| instructions := code c; emitted := last c;
                         prevEmitted := last c |} c).
Proof.
  intros Hin H. rewrite (emit_eq op os c Hin) in H.
  destruct (operation.NewInstruction op os) as [ins|] eqn:E; [| discriminate].
  injection H as _ <-.
  rewrite preventPop_eq by (apply withScope_innermost; exact Hin).
  unfold code, last, prev. rewrite (theScope_withScope _ c Hin). cbn.
  unfold sliceTo. rewrite decide_True.
  2:{ rewrite len_app. pose proof (len_nonneg (instructions (theScope c))).
      pose proof (len_nonneg ins). lia. }
  rewrite take_app_len. rewrite withScope_withScope. reflexivity.
Qed.

(** X12.  Patching is the same as emitting the final operand: for an
    opcode with one 16-bit operand, [emit] with a placeholder [x] followed
    by [changeOperand] to [y] at the returned position leaves the compiler
    exactly as [emit] with [y] does, and returns the same position. *)
Theorem changeOperand_is_emit_with_operand (op : byte) (x y : Z) (c : Compiler) :
  innermost c -> operation.operandWidths op = Some [2] ->
  0 <= x < 65536 -> 0 <= y < 65536 ->
  (let* pos := emit op [x] in changeOperand pos y >> ret pos) c = emit op [y] c.
Proof.
  intros Hin Hw Hx Hy.
  assert (Hnew : forall o, 0 <= o < 65536 ->
            operation.NewInstruction op [o] = Some (jumpTo op o)).
  { intros o Ho. unfold operation.NewInstruction. rewrite Hw. cbn.
    unfold operation.fits.
    destruct (Z.leb_spec 0 o); [| lia].
    destruct (Z.ltb_spec o (2 ^ (8 * 2))); [| lia]. reflexivity. }
  unfold bind at 1. rewrite !(emit_eq op _ c Hin), (Hnew x Hx), (Hnew y Hy).
  destruct (emitted_scope c (jumpTo op x) op Hin) as (Hin1 & Hcode1 & Hlast1 & Hprev1).
  set (c1 := withScope _ c) in *.
  unfold changeOperand, bind. rewrite (currentInstructions_eq c1 Hin1), Hcode1.
  replace (index (code c ++ jumpTo op x) (len (code c))) with (Some op)
    by (symmetry; apply index_app_here).
  cbn [orPanic ret].
  unfold newInstruction. rewrite (Hnew y Hy). cbn [orPanic ret].
  rewrite changeInstruction_eq by (exact Hin1 || discriminate).
  rewrite Hcode1, Hlast1, Hprev1.
  rewrite decide_True.
  2:{ rewrite len_app, !jumpTo_len. pose proof (len_nonneg (code c)). lia. }
  rewrite overwrite_eq.
  2:{ apply len_nonneg. }
  2:{ rewrite len_app, !jumpTo_len. lia. }
  rewrite take_app_len.
  replace (len (code c) + len (jumpTo op y)) with (len (code c ++ jumpTo op x))
    by (rewrite len_app, !jumpTo_len; reflexivity).
  rewrite drop_ge by (unfold len; lia). rewrite app_nil_r.
  unfold c1. rewrite withScope_withScope. reflexivity.
Qed.

(** X13.  For opcodes without operands, [emit op] followed by
    [changeEmittedTo op'] leaves the compiler exactly as [emit op'] does:
    the byte is rewritten in place and the record of the last emitted
    instruction names [op'] at the same position. *)
Theorem changeEmittedTo_is_emit_of_opcode (op op' : byte) (c : Compiler) :
  innermost c ->
  operation.operandWidths op = Some [] -> operation.operandWidths op' = Some [] ->
  (let* pos := emit op [] in changeEmittedTo op' >> ret pos) c = emit op' [] c.
Proof.
  intros Hin Hw Hw'.
  assert (Hnew : forall o, operation.operandWidths o = Some [] ->
            operation.NewInstruction o [] = Some [o]).
  { intros o Ho. unfold operation.NewInstruction. rewrite Ho. reflexivity. }
  unfold bind at 1. rewrite !(emit_eq _ _ c Hin), (Hnew op Hw), (Hnew op' Hw').
  destruct (emitted_scope c [op] op Hin) as (Hin1 & Hcode1 & Hlast1 & Hprev1).
  set (c1 := withScope _ c) in *.
  unfold changeEmittedTo, bind. rewrite (scope_eq c1 Hin1). fold (last c1).
  rewrite Hlast1. cbn [Position].
  unfold newInstruction. rewrite (Hnew op' Hw'). cbn [orPanic ret].
  rewrite changeInstruction_eq by (exact Hin1 || discriminate).
  rewrite Hcode1, Hlast1, Hprev1.
  rewrite decide_True.
  2:{ rewrite len_app, !len_one. pose proof (len_nonneg (code c)). lia. }
  rewrite overwrite_eq.
  2:{ apply len_nonneg. }
  2:{ rewrite len_app, !len_one. lia. }
  rewrite take_app_len.
  replace (len (code c) + len [op']) with (len (code c ++ [op]))
    by (rewrite len_app, !len_one; reflexivity).
  rewrite drop_ge by (unfold len; lia). rewrite app_nil_r.
  unfold c1. rewrite withScope_withScope.
  rewrite scope_eq by (apply withScope_innermost; exact Hin).
  rewrite (theScope_withScope _ c Hin). cbn [ret instructions emitted prevEmitted Position].
  rewrite setScope_eq by (apply withScope_innermost; exact Hin).
  rewrite withScope_withScope. reflexivity.
Qed.

End CompilerOperations.

(* ================================================================= *)
(** ** The cases of [Compile] *)

Section CompileCases.

Import compiler.

Variable ExpressionString : ast.Expression -> string.

(** X6.  An operator that the compiler does not know is reported only
    after its operands are compiled.  For an infix expression whose
    operator is none of [<], [+], [-], [*], [/], [>], [==], [!=], the left
    operand is compiled, then the right one, and what fails first is what
    is returned: the error (or the panic) of the left operand, else that of
    the right operand, and only when both have compiled the error
    "unknown operator <operator>".  The same holds for a prefix expression
    whose operator is neither [!] nor [-], with its one operand. *)
Theorem unknown_operator_after_operands (operator : string) (l r : ast.Expression)
    (c : Compiler) (tag : DataType -> string) :
  (operator ∉ ["<"; "+"; "-"; "*"; "/"; ">"; "=="; "!="] ->
   CompileExpression ExpressionString (ast.InfixExpression l operator r) c =
     match CompileExpression ExpressionString l c with
     | Ok (_, c1) =>
         match CompileExpression ExpressionString r c1 with
         | Ok _ => Err (Errorf "unknown operator %s" [ArgStr operator])
         | Err e => Err e
         | Panic p => Panic p
         end
     | Err e => Err e
     | Panic p => Panic p
     end) /\
  (operator ∉ ["!"; "-"] ->
   CompileExpression ExpressionString (ast.PrefixExpression operator r) c =
     match CompileExpression ExpressionString r c with
     | Ok _ => Err (Errorf "unknown operator %s" [ArgStr operator])
     | Err e => Err e
     | Panic p => Panic p
     end) /\
  error_message tag (Errorf "unknown operator %s" [ArgStr operator]) =
    String.append "unknown operator " operator.
Proof.
  split; [| split].
  - intros Hno. cbn [CompileExpression].
    rewrite decide_False by (intros ->; apply Hno; elem_here).
    unfold bind at 1.
    destruct (CompileExpression ExpressionString l c) as [[[] c1]| |]; try reflexivity.
    unfold bind at 1.
    destruct (CompileExpression ExpressionString r c1) as [[[] c2]| |]; try reflexivity.
    repeat (rewrite decide_False by (intros ->; apply Hno; elem_here)).
    reflexivity.
  - intros Hno. cbn [CompileExpression].
    unfold bind at 1.
    destruct (CompileExpression ExpressionString r c) as [[[] c1]| |]; try reflexivity.
    repeat (rewrite decide_False by (intros ->; apply Hno; elem_here)).
    reflexivity.
  - unfold error_message. cbn. rewrite append_empty_r. reflexivity.
Qed.

Lemma NewInstruction_16_fits (op : byte) (o : Z) :
  operation.operandWidths op = Some [2] -> 0 <= o < 65536 ->
  operation.NewInstruction op [o] = Some (jumpTo op o).
Proof.
  intros Hw Ho. unfold operation.NewInstruction. rewrite Hw. cbn.
  unfold operation.fits.
  destruct (Z.leb_spec 0 o); [| lia].
  destruct (Z.ltb_spec o (2 ^ (8 * 2))); [| lia]. reflexivity.
Qed.

Lemma constant_loaded (d : data.Data) (c c' : Compiler) :
  innermost c ->
  (let* i := addConstant d in let* _ := emit operation.Constant [i] in ret tt) c
    = Ok (tt, c') ->
  constantLoaded d c c'.
Proof.
  intros Hin H. apply bind_Ok_inv in H as (i & c1 & H1 & H).
  apply emit_unit_inv in H as [pos H].
  destruct (addConstant_inv d c c1 i H1) as ((Hs & Hcs) & Hk & -> & _).
  assert (Hin1 : innermost c1) by (unfold innermost; rewrite Hs, Hcs; exact Hin).
  assert (Hcode : code c1 = code c) by (unfold code, theScope; rewrite Hs, Hcs; reflexivity).
  rewrite (emit_eq _ _ c1 Hin1) in H.
  destruct (operation.NewInstruction operation.Constant [len (constants c)]) as [ins|] eqn:E;
    [| discriminate].
  apply NewInstruction_16 in E as [-> Hr]; [| reflexivity].
  injection H as _ <-.
  unfold constantLoaded. cbn [constants withScope setScopes].
  split; [exact Hk |]. split; [lia |].
  exists (tl (jumpTo operation.Constant (len (constants c)))).
  split.
  - unfold code at 1. rewrite (theScope_withScope _ c1 Hin1). cbn [instructions].
    rewrite Hcode. reflexivity.
  - split.
    + pose proof (ReadUint16_jumpTo operation.Constant (len (constants c)) [] Hr) as Hrd.
      rewrite app_nil_r in Hrd. exact Hrd.
    + rewrite Hk. apply index_app_here.
Qed.

(** X4.  An integer or string literal is compiled into the constant pool:
    its value is appended to the constants, and the [Constant] instruction
    appended to the stream carries a 16-bit operand that reads back as the
    index of that value in the pool. *)
Theorem literal_is_loaded_from_constants (c c' : Compiler) :
  innermost c ->
  (forall v, CompileExpression ExpressionString (ast.IntegerLiteral v) c = Ok (tt, c') ->
     constantLoaded (data.Integer v) c c') /\
  (forall s, CompileExpression ExpressionString (ast.StringLiteral s) c = Ok (tt, c') ->
     constantLoaded (data.String_ s) c c').
Proof.
  intros Hin. split; intros v H; apply (constant_loaded _ c c' Hin); exact H.
Qed.

End CompileCases.

(* ================================================================= *)
(** ** The constant pool *)

Section ConstantPool.

Import compiler.

Lemma appends_of_same {A : Type} (m : M Compiler A) :
  (forall c a c', m c = Ok (a, c') -> constants c' = constants c) ->
  appendsConstants m.
Proof.
  intros H c a c' Hm. exists []. rewrite app_nil_r. exact (H c a c' Hm).
Qed.

Lemma appends_ret {A : Type} (a : A) : appendsConstants (ret a).
Proof. apply appends_of_same. intros c x c' H. injection H as _ <-. reflexivity. Qed.

Lemma appends_throw {A : Type} (e : error) : appendsConstants (@throw Compiler A e).
Proof. intros c a c' H. discriminate H. Qed.

Lemma appends_bind {A B : Type} (m : M Compiler A) (k : A -> M Compiler B) :
  appendsConstants m -> (forall a, appendsConstants (k a)) ->
  appendsConstants (bind m k).
Proof.
  intros Hm Hk c b c' H. apply bind_Ok_inv in H as (a & c1 & H1 & H).
  destruct (Hm c a c1 H1) as [l1 E1]. destruct (Hk a c1 b c' H) as [l2 E2].
  exists (l1 ++ l2). rewrite E2, E1, app_assoc. reflexivity.
Qed.

Lemma appends_forEach {A : Type} (f : A -> M Compiler unit) (l : list A) :
  (forall x, x ∈ l -> appendsConstants (f x)) -> appendsConstants (forEach f l).
Proof.
  induction l as [|x l IH]; intros Hf.
  - apply appends_ret.
  - change (forEach f (x :: l)) with (bind (f x) (fun _ => forEach f l)).
    apply appends_bind; [apply Hf; left |].
    intros _. apply IH. intros y Hy. apply Hf. right. exact Hy.
Qed.

Ltac unfold_helpers H :=
  cbv beta iota zeta delta
    [emit newInstruction addInstruction setEmitted currentInstructions scope
     setScope isEmitted preventPop changeInstruction changeOperand changeEmittedTo
     enterScope leaveScope onSymbols loadSymbol stripPop
     bind get gets put modify ret throw raise orPanic] in H.

Ltac same_constants :=
  apply appends_of_same;
  let c := fresh "c" in let a := fresh "a" in let c' := fresh "c'" in
  let H := fresh "H" in
  intros c a c' H; unfold_helpers H;
  repeat (match type of H with
          | context [match ?x with _ => _ end] =>
              lazymatch x with
              | context [match _ with _ => _ end] => fail
              | _ => destruct x; try discriminate H
              end
          end; unfold_helpers H);
  injection H as <- <-; reflexivity.

Lemma appends_emit (op : byte) (os : list Z) : appendsConstants (emit op os).
Proof. same_constants. Qed.

Lemma appends_isEmitted (op : byte) : appendsConstants (isEmitted op).
Proof. same_constants. Qed.

Lemma appends_currentInstructions : appendsConstants currentInstructions.
Proof. same_constants. Qed.

Lemma appends_changeOperand (pos operand : Z) : appendsConstants (changeOperand pos operand).
Proof. same_constants. Qed.

Lemma appends_changeEmittedTo (op : byte) : appendsConstants (changeEmittedTo op).
Proof. same_constants. Qed.

Lemma appends_stripPop : appendsConstants stripPop.
Proof. same_constants. Qed.

Lemma appends_enterScope : appendsConstants enterScope.
Proof. same_constants. Qed.

Lemma appends_leaveScope : appendsConstants leaveScope.
Proof. same_constants. Qed.

Lemma appends_onSymbols {A : Type} (f : symbols.SymbolTable -> A * symbols.SymbolTable) :
  appendsConstants (onSymbols f).
Proof.
  apply appends_of_same. intros c a c' H.
  exact (proj2 (onSymbols_inv f c c' a H)).
Qed.

Lemma appends_loadSymbol (s : symbols.Symbol) : appendsConstants (loadSymbol s).
Proof.
  unfold loadSymbol.
  destruct (symbols.Scope s);
    (apply appends_bind; [apply appends_emit | intros; apply appends_ret]).
Qed.

Lemma appends_addConstant (d : data.Data) : appendsConstants (addConstant d).
Proof.
  intros c i c' H. exists [d]. exact (proj1 (proj2 (addConstant_inv d c c' i H))).
Qed.

Variable ExpressionString : ast.Expression -> string.

Ltac appends_step :=
  first
    [ apply appends_ret
    | apply appends_throw
    | apply appends_emit
    | apply appends_isEmitted
    | apply appends_currentInstructions
    | apply appends_changeOperand
    | apply appends_changeEmittedTo
    | apply appends_stripPop
    | apply appends_enterScope
    | apply appends_leaveScope
    | apply appends_onSymbols
    | apply appends_loadSymbol
    | apply appends_addConstant
    | apply appends_bind; [| intros ?]
    | match goal with
      | |- appendsConstants (if ?b then _ else _) => destruct b
      | |- appendsConstants (match ?x with _ => _ end) => destruct x
      end ].

Lemma compile_appends_size (n : nat) :
  (forall e, (ast.esize e < n)%nat ->
     appendsConstants (CompileExpression ExpressionString e)) /\
  (forall s, (ast.ssize s < n)%nat ->
     appendsConstants (CompileStatement ExpressionString s)).
Proof.
  induction n as [|n [IHe IHs]]; [split; intros ? H; lia |].
  assert (Hes : forall l : list ast.Expression, (list_sum (map ast.esize l) < n)%nat ->
            appendsConstants (forEach (CompileExpression ExpressionString) l)).
  { intros l Hl. apply appends_forEach. intros e He. apply IHe.
    pose proof (list_sum_elem ast.esize e l He). lia. }
  assert (Hss : forall l : list ast.Statement, (list_sum (map ast.ssize l) < n)%nat ->
            appendsConstants (forEach (CompileStatement ExpressionString) l)).
  { intros l Hl. apply appends_forEach. intros s Hs. apply IHs.
    pose proof (list_sum_elem ast.ssize s l Hs). lia. }
  split.
  - intros e Hsize. destruct e; cbn [ast.esize] in Hsize; cbn [CompileExpression];
      repeat first
        [ apply IHe; lia
        | apply Hes; lia
        | apply Hss; lia
        | apply appends_forEach with (f := snd)
        | appends_step
        | apply appends_forEach; intros ? _ ].
    + (* the keys of a hash literal *)
      intros x Hx. rewrite sortSlice_perm in Hx.
      apply list_elem_of_fmap in Hx as ([k v] & -> & Hkv).
      pose proof (list_sum_elem (fun p : ast.Expression * ast.Expression =>
                                   (ast.esize (fst p) + ast.esize (snd p))%nat)
                    (k, v) Pairs Hkv) as Hle.
      cbn [fst snd] in *.
      apply appends_bind; [| intros _]; apply IHe; lia.
  - intros s Hsize. destruct s; cbn [ast.ssize] in Hsize; cbn [CompileStatement];
      repeat first [ apply IHe; lia | appends_step ].
Qed.

(** X3.  [Compile] never removes or changes a constant: after a
    successful compilation of any node, the constant pool is the pool from
    before with constants added at its end, so that the indices handed out
    earlier still name the same values. *)
Theorem Compile_appends_constants (node : ast.Node) (c c' : Compiler) :
  Compile ExpressionString node c = Ok (tt, c') ->
  exists added, constants c' = constants c ++ added.
Proof.
  assert (He : forall e, appendsConstants (CompileExpression ExpressionString e)).
  { intros e. apply (proj1 (compile_appends_size (S (ast.esize e)))). lia. }
  assert (Hs : forall s, appendsConstants (CompileStatement ExpressionString s)).
  { intros s. apply (proj2 (compile_appends_size (S (ast.ssize s)))). lia. }
  intros H. destruct node; cbn [Compile] in H.
  - exact (appends_forEach _ Statements (fun s _ => Hs s) c tt c' H).
  - exact (appends_forEach _ Statements (fun s _ => Hs s) c tt c' H).
  - exact (Hs s c tt c' H).
  - exact (He e c tt c' H).
Qed.

End ConstantPool.

(* ================================================================= *)
(** ** What [Compile] does to the instructions *)

Section CompileInvariants.

Import compiler.

Variable ExpressionString : ast.Expression -> string.

Lemma grows_appends (c c' : Compiler) :
  grows c c' ->
  wf c' /\ currentScope c' = currentScope c /\ outer c' = outer c /\
  exists added, added <> [] /\ code c' = code c ++ added.
Proof.
  intros (Hwf & (Hcs & Hout & suffix & Hsuf) & Hlen & _).
  split; [exact Hwf |]. split; [exact Hcs |]. split; [exact Hout |].
  exists suffix. split; [| exact Hsuf].
  intros ->. rewrite app_nil_r in Hsuf. rewrite Hsuf in Hlen. lia.
Qed.

(** X1.  Compiling an expression, from a compiler whose bookkeeping is
    right, only appends to the instructions of the current scope, and
    appends at least one byte; the enclosing scopes and the scope index are
    as before, the bookkeeping is right again, and the last emitted
    instruction is never a [Pop]. *)
Theorem expression_appends_instructions (e : ast.Expression) (c c' : Compiler) :
  wf c -> CompileExpression ExpressionString e c = Ok (tt, c') ->
  wf c' /\ currentScope c' = currentScope c /\ outer c' = outer c /\
  (exists added, added <> [] /\ code c' = code c ++ added) /\
  isEmitted operation.Pop c' = Ok (false, c').
Proof.
  intros Hwf H. destruct (expression_grows ExpressionString e c c' Hwf H) as [Hg Hne].
  destruct (grows_appends c c' Hg) as (Hwf' & Hcs & Hout & Hadd).
  split; [exact Hwf' |]. split; [exact Hcs |]. split; [exact Hout |].
  split; [exact Hadd |].
  rewrite (isEmitted_eq _ c' (wf_innermost c' Hwf')).
  destruct (decide _); [reflexivity |].
  rewrite bool_decide_eq_false_2 by exact Hne. reflexivity.
Qed.

(** X2.  Compiling a statement, from a compiler whose bookkeeping is
    right, appends to the instructions of the current scope and leaves the
    enclosing scopes as they are; what an expression statement appends ends
    in [Pop], what a return statement appends ends in [ReturnValue], and
    what a let statement appends ends in a [SetGlobal] or a [SetLocal]
    instruction, after the code of the expression. *)
Theorem statement_appends_instructions (s : ast.Statement) (c c' : Compiler) :
  wf c -> CompileStatement ExpressionString s c = Ok (tt, c') ->
  wf c' /\ currentScope c' = currentScope c /\ outer c' = outer c /\
  exists added,
    code c' = code c ++ added /\
    match s with
    | ast.ExpressionStatement _ =>
        exists mid, mid <> [] /\ added = mid ++ [operation.Pop]
    | ast.ReturnStatement _ =>
        exists mid, mid <> [] /\ added = mid ++ [operation.ReturnValue]
    | ast.LetStatement _ _ =>
        exists mid i, mid <> [] /\
          (added = mid ++ jumpTo operation.SetGlobal i \/
           added = mid ++ [operation.SetLocal; toByte i])
    end.
Proof.
  intros Hwf H.
  destruct (grows_appends c c' (statement_grows ExpressionString s c c' Hwf H))
    as (Hwf' & Hcs & Hout & _).
  split; [exact Hwf' |]. split; [exact Hcs |]. split; [exact Hout |].
  destruct s; cbn [CompileStatement] in H.
  - apply bind_Ok_inv in H as ([] & c1 & H1 & H).
    destruct (expression_grows ExpressionString _ c c1 Hwf H1) as [Hg1 _].
    destruct (grows_appends c c1 Hg1) as (Hwf1 & _ & _ & mid & Hmid & Hc1).
    apply emit_unit_inv in H as [pos H].
    rewrite (emit_eq _ _ c1 (wf_innermost c1 Hwf1)) in H. cbn in H.
    injection H as _ <-.
    exists (mid ++ [operation.Pop]). split; [| exists mid; split; [exact Hmid | reflexivity]].
    unfold code at 1. rewrite (theScope_withScope _ c1 (wf_innermost c1 Hwf1)).
    cbn [instructions]. rewrite Hc1, <- app_assoc. reflexivity.
  - apply bind_Ok_inv in H as (symbol & c0 & H0 & H).
    destruct (onSymbols_inv _ _ _ _ H0) as [Hs0 _].
    apply bind_Ok_inv in H as ([] & c1 & H1 & H).
    destruct (expression_grows ExpressionString _ c0 c1 (sameShape_wf _ _ Hs0 Hwf) H1)
      as [Hg1 _].
    destruct (grows_appends c0 c1 Hg1) as (Hwf1 & _ & _ & mid & Hmid & Hc1).
    unfold code in Hc1 at 2. rewrite (sameShape_theScope c c0 Hs0) in Hc1. fold (code c) in Hc1.
    destruct (decide _) in H; apply emit_unit_inv in H as [pos H];
      rewrite (emit_eq _ _ c1 (wf_innermost c1 Hwf1)) in H;
      match type of H with
      | match ?o with _ => _ end = _ => destruct o as [ins|] eqn:E; [| discriminate H]
      end;
      injection H as _ <-.
    + apply NewInstruction_16 in E as [-> _]; [| reflexivity].
      exists (mid ++ jumpTo operation.SetGlobal (symbols.Index symbol)).
      split; [| exists mid, (symbols.Index symbol); split; [exact Hmid | left; reflexivity]].
      unfold code at 1. rewrite (theScope_withScope _ c1 (wf_innermost c1 Hwf1)).
      cbn [instructions]. rewrite Hc1, <- app_assoc. reflexivity.
    + unfold operation.NewInstruction in E.
      change (operation.operandWidths operation.SetLocal) with (Some [1]) in E.
      cbn [operation.putOperands] in E.
      destruct (operation.fits 1 (symbols.Index symbol)); [| discriminate E].
      injection E as <-.
      exists (mid ++ [operation.SetLocal; toByte (symbols.Index symbol)]).
      split; [| exists mid, (symbols.Index symbol); split; [exact Hmid | right; reflexivity]].
      unfold code at 1. rewrite (theScope_withScope _ c1 (wf_innermost c1 Hwf1)).
      cbn [instructions]. rewrite Hc1, <- app_assoc. reflexivity.
  - apply bind_Ok_inv in H as ([] & c1 & H1 & H).
    destruct (expression_grows ExpressionString _ c c1 Hwf H1) as [Hg1 _].
    destruct (grows_appends c c1 Hg1) as (Hwf1 & _ & _ & mid & Hmid & Hc1).
    apply emit_unit_inv in H as [pos H].
    rewrite (emit_eq _ _ c1 (wf_innermost c1 Hwf1)) in H. cbn in H.
    injection H as _ <-.
    exists (mid ++ [operation.ReturnValue]).
    split; [| exists mid; split; [exact Hmid | reflexivity]].
    unfold code at 1. rewrite (theScope_withScope _ c1 (wf_innermost c1 Hwf1)).
    cbn [instructions]. rewrite Hc1, <- app_assoc. reflexivity.
Qed.

End CompileInvariants.

(* ================================================================= *)
(** ** Infix expressions *)

Section Infix.

Import compiler.

Variable ExpressionString : ast.Expression -> string.

(** X5.  An infix expression is compiled operands first: the left operand,
    the right operand, then the one-byte instruction of the operator, for
    the operators [+], [-], [*], [/], [>], [==] and [!=].  There is no
    instruction for [<]: the right operand is compiled first, then the
    left one, then [GreaterThan], so that [l < r] is compiled exactly as
    [r > l] is. *)
Theorem infix_operands_then_operator (l r : ast.Expression) (operator : string)
    (c c' : Compiler) :
  wf c ->
  CompileExpression ExpressionString (ast.InfixExpression l operator r) c = Ok (tt, c') ->
  (exists first second opcode c1 c2,
     ((operator = "<" /\ first = r /\ second = l /\ opcode = operation.GreaterThan) \/
      (first = l /\ second = r /\
       (operator, opcode) ∈
         [("+", operation.Add); ("-", operation.Sub); ("*", operation.Mul);
          ("/", operation.Div); (">", operation.GreaterThan);
          ("==", operation.Equal); ("!=", operation.NotEqual)])) /\
     CompileExpression ExpressionString first c = Ok (tt, c1) /\
     CompileExpression ExpressionString second c1 = Ok (tt, c2) /\
     code c' = code c2 ++ [opcode] /\
     constants c' = constants c2) /\
  CompileExpression ExpressionString (ast.InfixExpression l "<" r) c =
  CompileExpression ExpressionString (ast.InfixExpression r ">" l) c.
Proof.
  intros Hwf H. split; [| reflexivity].
  assert (Hemit : forall op c2,
            wf c2 -> operation.operandWidths op = Some [] ->
            (let* _ := emit op [] in ret tt) c2 = Ok (tt, c') ->
            code c' = code c2 ++ [op] /\ constants c' = constants c2).
  { intros op c2 Hwf2 Hw He. apply emit_unit_inv in He as [pos He].
    pose proof (wf_innermost c2 Hwf2) as Hin2.
    rewrite (emit_eq _ _ c2 Hin2) in He.
    unfold operation.NewInstruction in He. rewrite Hw in He. cbn in He.
    injection He as _ <-. split; [| reflexivity].
    unfold code at 1. rewrite (theScope_withScope _ c2 Hin2). reflexivity. }
  cbn [CompileExpression] in H. destruct (decide (operator = "<")) as [E|E].
  - apply bind_Ok_inv in H as ([] & c1 & H1 & H).
    apply bind_Ok_inv in H as ([] & c2 & H2 & H).
    destruct (expression_grows ExpressionString r c c1 Hwf H1) as [Hg1 _].
    destruct (expression_grows ExpressionString l c1 c2 (grows_wf _ _ Hg1) H2) as [Hg2 _].
    exists r, l, operation.GreaterThan, c1, c2.
    split; [left; repeat split; exact E |]. split; [exact H1 |]. split; [exact H2 |].
    refine (Hemit _ c2 (grows_wf _ _ Hg2) _ H); reflexivity.
  - apply bind_Ok_inv in H as ([] & c1 & H1 & H).
    apply bind_Ok_inv in H as ([] & c2 & H2 & H).
    destruct (expression_grows ExpressionString l c c1 Hwf H1) as [Hg1 _].
    destruct (expression_grows ExpressionString r c1 c2 (grows_wf _ _ Hg1) H2) as [Hg2 _].
    repeat (destruct (decide _) as [->|?] in H;
            [eexists l, r, _, c1, c2;
             (split; [right; split; [reflexivity |]; split; [reflexivity | elem_here] |]);
             (split; [exact H1 |]); (split; [exact H2 |]);
             refine (Hemit _ c2 (grows_wf _ _ Hg2) _ H); reflexivity |]).
    discriminate H.
Qed.

End Infix.

(* ================================================================= *)
(** ** Arrays, hashes and calls *)

Section Collections.

Import compiler.

Variable ExpressionString : ast.Expression -> string.




End Collections.

(* ================================================================= *)
(** ** Identifiers in a new compiler *)

Section NewCompiler.

Import compiler.

Variable ExpressionString : ast.Expression -> string.

Lemma defineBuiltins_Outer (l : list string) (i : Z) (t : symbols.SymbolTable) :
  symbols.Outer (defineBuiltins l i t) = symbols.Outer t.
Proof.
  revert i t. induction l as [|name l IH]; intros i t; [reflexivity |].
  cbn [defineBuiltins]. rewrite IH. reflexivity.
Qed.

Lemma defineBuiltins_other (l : list string) (i : Z) (t : symbols.SymbolTable)
    (v : string) :
  v ∉ l -> symbols.store (defineBuiltins l i t) !! v = symbols.store t !! v.
Proof.
  revert i t. induction l as [|name l IH]; intros i t Hv; [reflexivity |].
  cbn [defineBuiltins]. rewrite IH by (intros E; apply Hv; right; exact E).
  cbn. apply lookup_insert_ne. intros ->. apply Hv. left.
Qed.

Lemma defineBuiltins_lookup (l : list string) (k : Z) (t : symbols.SymbolTable)
    (v : string) (i : nat) :
  NoDup l -> l !! i = Some v ->
  symbols.store (defineBuiltins l k t) !! v =
    Some {| symbols.Name := v; symbols.Scope := symbols.BuiltinScope;
            symbols.Index := k + Z.of_nat i |}.
Proof.
  revert k t i. induction l as [|name l IH]; intros k t i Hnd Hi; [discriminate Hi |].
  apply NoDup_cons in Hnd as [Hname Hnd]. cbn [defineBuiltins].
  destruct i as [|i]; cbn in Hi.
  - injection Hi as ->. rewrite defineBuiltins_other by exact Hname.
    cbn. rewrite lookup_insert_eq. rewrite Z.add_0_r. reflexivity.
  - rewrite (IH (k + 1) _ i Hnd Hi). do 2 f_equal. lia.
Qed.

Lemma Resolve_global (v : string) (t : symbols.SymbolTable) :
  symbols.Outer t = None ->
  symbols.Resolve v t = (symbols.store t !! v, t).
Proof.
  destruct t as [o st n fr]. cbn. intros ->.
  destruct (st !! v); reflexivity.
Qed.

(** X7.  In a new compiler the only names are those of the builtins: an
    identifier that is none of them fails with the error
    "Variable <name> is undefined", and an identifier that is the builtin
    number [i] (the builtins having distinct names, and [i] fitting one
    byte) is compiled to [GetBuiltin i]. *)
Theorem identifier_in_new_compiler (builtins : list string) (v : string)
    (tag : DataType -> string) :
  (v ∉ builtins ->
   compileNew ExpressionString builtins
     (ast.Program [ast.ExpressionStatement (ast.Identifier v)]) =
     Err (Errorf "Variable %s is undefined" [ArgStr v])) /\
  (forall i : nat, NoDup builtins -> builtins !! i = Some v -> Z.of_nat i < 256 ->
   compileNew ExpressionString builtins
     (ast.Program [ast.ExpressionStatement (ast.Identifier v)]) =
     Ok {| Instructions := [operation.GetBuiltin; toByte (Z.of_nat i); operation.Pop];
           Constants := [] |}) /\
  error_message tag (Errorf "Variable %s is undefined" [ArgStr v]) =
    String.append "Variable " (String.append v " is undefined").
Proof.
  assert (Hres : symbols.Resolve v (defineBuiltins builtins 0 symbols.New) =
                 (symbols.store (defineBuiltins builtins 0 symbols.New) !! v,
                  defineBuiltins builtins 0 symbols.New)).
  { apply Resolve_global. rewrite defineBuiltins_Outer. reflexivity. }
  split; [| split].
  - intros Hv. unfold compileNew, Compile.
    cbn [forEach CompileStatement CompileExpression].
    unfold bind at 1 2 3 4. unfold onSymbols at 1. unfold bind at 1. cbn [get New symbols].
    rewrite Hres. rewrite defineBuiltins_other by exact Hv. reflexivity.
  - intros i Hnd Hi Hlt. unfold compileNew, Compile.
    cbn [forEach CompileStatement CompileExpression].
    unfold bind at 1 2 3 4. unfold onSymbols at 1. unfold bind at 1. cbn [get New symbols].
    rewrite Hres. rewrite (defineBuiltins_lookup builtins 0 _ v i Hnd Hi).
    cbn [put bind ret]. unfold loadSymbol. cbn [symbols.Scope symbols.Index].
    rewrite Z.add_0_l.
    unfold emit at 1, newInstruction, operation.NewInstruction.
    change (operation.operandWidths operation.GetBuiltin) with (Some [1]).
    cbn [operation.putOperands]. unfold operation.fits.
    destruct (Z.leb_spec 0 (Z.of_nat i)); [| lia].
    destruct (Z.ltb_spec (Z.of_nat i) (2 ^ (8 * 1))); [| lia].
    reflexivity.
  - unfold error_message. cbn. reflexivity.
Qed.

End NewCompiler.

(* ================================================================= *)
(** ** Iterations of the machine *)

Section MachineSteps.

Lemma next_index (f : vm.Frame.t) (bs : list byte) (k : nat) (b : byte) :
  vm.next f bs -> bs !! k = Some b ->
  index (data.Instructions (vm.Frame.fn f)) (vm.Frame.pointer f + 1 + Z.of_nat k) = Some b.
Proof.
  intros (pre & post & -> & Hlen) Hk. apply index_Some.
  pose proof (len_nonneg pre). split; [lia |].
  replace (Z.to_nat (vm.Frame.pointer f + 1 + Z.of_nat k))
    with (length pre + k)%nat by (unfold len in Hlen; lia).
  rewrite lookup_app_r by lia.
  replace (length pre + k - length pre)%nat with k by lia.
  apply lookup_app_l_Some. exact Hk.
Qed.

Lemma next_opcode (f : vm.Frame.t) (op : byte) (bs : list byte) :
  vm.next f (op :: bs) ->
  index (data.Instructions (vm.Frame.fn f)) (vm.Frame.pointer f + 1) = Some op.
Proof.
  intros H. pose proof (next_index f _ 0 op H eq_refl) as Hi.
  rewrite Z.add_0_r in Hi. exact Hi.
Qed.

Lemma next_operand16 (f : vm.Frame.t) (op hi lo : byte) (bs : list byte) (m : vm.VM) :
  vm.next f (op :: hi :: lo :: bs) ->
  vm.operand16 (data.Instructions (vm.Frame.fn f)) (vm.Frame.pointer f + 1) m =
    Ok (256 * byteZ hi + byteZ lo, m).
Proof.
  intros H. apply operand16_eq.
  - pose proof (next_index f _ 1 hi H eq_refl) as Hi.
    replace (vm.Frame.pointer f + 1 + 1) with (vm.Frame.pointer f + 1 + Z.of_nat 1) by lia.
    exact Hi.
  - pose proof (next_index f _ 2 lo H eq_refl) as Hi.
    replace (vm.Frame.pointer f + 1 + 2) with (vm.Frame.pointer f + 1 + Z.of_nat 2) by lia.
    exact Hi.
Qed.

Lemma next_operand8 (f : vm.Frame.t) (op b : byte) (bs : list byte) (m : vm.VM) :
  vm.next f (op :: b :: bs) ->
  vm.operand8 (data.Instructions (vm.Frame.fn f)) (vm.Frame.pointer f + 1) m =
    Ok (byteZ b, m).
Proof.
  intros H. pose proof (next_index f _ 1 b H eq_refl) as Hi.
  pose proof (index_lt _ _ _ Hi) as Hr.
  apply index_Some in Hi as [H1 Hi].
  unfold vm.operand8, sliceFrom, bind.
  rewrite decide_True by lia. cbn [orPanic ret].
  replace (vm.Frame.pointer f + 1 + 1) with (vm.Frame.pointer f + 1 + Z.of_nat 1) by lia.
  rewrite (drop_S _ _ _ Hi). reflexivity.
Qed.

Lemma next_drop (f : vm.Frame.t) (bs rest : list byte) :
  vm.next f (bs ++ rest) ->
  vm.next (vm.withPointer (vm.Frame.pointer f + len bs) f) rest.
Proof.
  intros (pre & post & E & Hlen). exists (pre ++ bs), post. cbn.
  split; [rewrite E, <- !app_assoc; reflexivity |].
  rewrite len_app. lia.
Qed.

(** The machine after the increment that opens an iteration, with the
    current frame [f] about to read the opcode [op]. *)
Lemma step_next (m : vm.VM) (f : vm.Frame.t) (rest : list vm.Frame.t)
    (op : byte) (bs : list byte) :
  vm.frameItems (vm.frames m) = f :: rest ->
  vm.next f (op :: bs) ->
  vm.step m =
    vm.dispatch op (vm.Frame.pointer f + 1) (data.Instructions (vm.Frame.fn f))
      (vm.setFrameItems (vm.withPointer (vm.Frame.pointer f + 1) f :: rest) m).
Proof. intros Hf Hn. apply step_dispatch; [exact Hf | exact (next_opcode f op bs Hn)]. Qed.

(** X14.  One iteration of [Run] on [Constant idx]: the constant [idx] of
    the pool is pushed and the instruction pointer ends on the last operand
    byte; an index outside the pool is the Go panic of an index out of
    range; and on a full stack the iteration returns an error. *)
Theorem constant_is_pushed (m : vm.VM) (f : vm.Frame.t) (rest : list vm.Frame.t)
    (hi lo : byte) :
  vm.frameItems (vm.frames m) = f :: rest ->
  vm.next f [operation.Constant; hi; lo] ->
  let idx := 256 * byteZ hi + byteZ lo in
  let sp := vm.Stack.pointer (vm.stack m) in
  let items := vm.Stack.items (vm.stack m) in
  (forall c, index (vm.constants m) idx = Some c -> 0 <= sp < len items ->
     vm.step m =
       Ok (tt, vm.setStack {| vm.Stack.items := setIndex items sp (Some c);
                              vm.Stack.pointer := sp + 1 |}
                 (vm.setFrameItems (vm.withPointer (vm.Frame.pointer f + 3) f :: rest) m))) /\
  (index (vm.constants m) idx = None -> vm.step m = Panic IndexOutOfRange) /\
  (forall c, index (vm.constants m) idx = Some c -> len items <= sp ->
     exists e, vm.step m = Err e).
Proof.
  intros Hf Hn idx sp items. subst idx sp items.
  assert (Hstep : vm.step m =
            match index (vm.constants m) (256 * byteZ hi + byteZ lo) with
            | Some c =>
                vm.onStack (vm.push (Some c))
                  (vm.setFrameItems (vm.withPointer (vm.Frame.pointer f + 3) f :: rest) m)
            | None => Panic IndexOutOfRange
            end).
  { rewrite (step_next m f rest _ _ Hf Hn). take_case.
    unfold bind at 1. rewrite (next_operand16 f _ hi lo [] _ Hn).
    unfold vm.addPointer, vm.current, vm.setPointer, bind. cbn.
    replace (vm.Frame.pointer f + 1 + 2) with (vm.Frame.pointer f + 3) by lia.
    destruct (index (vm.constants m) _); reflexivity. }
  rewrite Hstep. split; [| split].
  - intros c Hc Hsp. rewrite Hc. rewrite onStack_push by exact Hsp. reflexivity.
  - intros Hc. rewrite Hc. reflexivity.
  - intros c Hc Hsp. rewrite Hc. unfold vm.onStack, vm.push. cbn.
    rewrite decide_True by exact Hsp. eexists. reflexivity.
Qed.

Lemma byteZ_range (b : byte) : 0 <= byteZ b < 256.
Proof.
  unfold byteZ. pose proof (Byte.to_N_bounded b) as H. lia.
Qed.

(** One iteration on [SetGlobal] and on [GetGlobal]. *)
Lemma step_SetGlobal (m : vm.VM) (f : vm.Frame.t) (rest : list vm.Frame.t)
    (hi lo : byte) (bs : list byte) (v : value) :
  vm.frameItems (vm.frames m) = f :: rest ->
  vm.next f (operation.SetGlobal :: hi :: lo :: bs) ->
  index (vm.Stack.items (vm.stack m)) (vm.Stack.pointer (vm.stack m) - 1) = Some v ->
  vm.step m =
    if decide (256 * byteZ hi + byteZ lo < len (vm.globals m))
    then Ok (tt, vm.setGlobals (setIndex (vm.globals m) (256 * byteZ hi + byteZ lo) v)
                   (vm.setStack {| vm.Stack.items := vm.Stack.items (vm.stack m);
                                   vm.Stack.pointer := vm.Stack.pointer (vm.stack m) - 1 |}
                      (vm.setFrameItems
                         (vm.withPointer (vm.Frame.pointer f + 3) f :: rest) m)))
    else Panic IndexOutOfRange.
Proof.
  intros Hf Hn Hv. rewrite (step_next m f rest _ _ Hf Hn). take_case.
  unfold bind at 1. rewrite (next_operand16 f _ hi lo bs _ Hn).
  unfold vm.addPointer, vm.current, vm.setPointer, bind. cbn.
  replace (vm.Frame.pointer f + 1 + 2) with (vm.Frame.pointer f + 3) by lia.
  rewrite (onStack_pop _ v) by exact Hv. cbn.
  pose proof (byteZ_range hi). pose proof (byteZ_range lo).
  destruct (decide _) as [Hlt|Hge].
  - destruct (index_is_Some (vm.globals m) (256 * byteZ hi + byteZ lo)) as [x Hx]; [lia |].
    rewrite Hx. reflexivity.
  - destruct (index (vm.globals m) _) eqn:E; [| reflexivity].
    apply index_lt in E. lia.
Qed.

Lemma step_GetGlobal (m : vm.VM) (f : vm.Frame.t) (rest : list vm.Frame.t)
    (hi lo : byte) (bs : list byte) (v : value) :
  vm.frameItems (vm.frames m) = f :: rest ->
  vm.next f (operation.GetGlobal :: hi :: lo :: bs) ->
  index (vm.globals m) (256 * byteZ hi + byteZ lo) = Some v ->
  0 <= vm.Stack.pointer (vm.stack m) < len (vm.Stack.items (vm.stack m)) ->
  vm.step m =
    Ok (tt, vm.setStack
              {| vm.Stack.items :=
                   setIndex (vm.Stack.items (vm.stack m)) (vm.Stack.pointer (vm.stack m)) v;
                 vm.Stack.pointer := vm.Stack.pointer (vm.stack m) + 1 |}
              (vm.setFrameItems (vm.withPointer (vm.Frame.pointer f + 3) f :: rest) m)).
Proof.
  intros Hf Hn Hv Hsp. rewrite (step_next m f rest _ _ Hf Hn). take_case.
  unfold bind at 1. rewrite (next_operand16 f _ hi lo bs _ Hn).
  unfold vm.addPointer, vm.current, vm.setPointer, bind. cbn.
  replace (vm.Frame.pointer f + 1 + 2) with (vm.Frame.pointer f + 3) by lia.
  rewrite Hv. cbn. rewrite onStack_push by exact Hsp. reflexivity.
Qed.

Lemma setIndex_same {A : Type} (l : list A) (i : Z) (x : A) :
  index l i = Some x -> setIndex l i x = l.
Proof. intros H. apply index_Some in H as [_ H]. apply list_insert_id. exact H. Qed.

Lemma index_setIndex {A : Type} (l : list A) (i : Z) (x : A) :
  0 <= i < len l -> index (setIndex l i x) i = Some x.
Proof.
  intros H. apply index_Some. split; [lia |].
  apply list_lookup_insert_eq. unfold len in H. lia.
Qed.

Lemma index_setIndex_ne {A : Type} (l : list A) (i j : Z) (x : A) :
  0 <= i -> 0 <= j -> i <> j -> index (setIndex l i x) j = index l j.
Proof.
  intros Hi Hj Hne. unfold index, setIndex. rewrite !decide_True by lia.
  apply list_lookup_insert_ne. lia.
Qed.

Lemma len_setIndex {A : Type} (l : list A) (i : Z) (x : A) :
  len (setIndex l i x) = len l.
Proof. unfold len, setIndex. rewrite length_insert. reflexivity. Qed.

(** X15.  [SetGlobal idx] followed by [GetGlobal idx] is a round trip:
    the value on top of the stack is stored in the global [idx] and pushed
    back, so that the stack is as it was before.  An index outside the
    globals (possible only with a globals slice shorter than the one [New]
    allocates) is the Go panic of an index out of range. *)
Theorem global_is_read_back (m : vm.VM) (f : vm.Frame.t) (rest : list vm.Frame.t)
    (hi lo : byte) (v : value) :
  vm.frameItems (vm.frames m) = f :: rest ->
  vm.next f [operation.SetGlobal; hi; lo; operation.GetGlobal; hi; lo] ->
  index (vm.Stack.items (vm.stack m)) (vm.Stack.pointer (vm.stack m) - 1) = Some v ->
  let idx := 256 * byteZ hi + byteZ lo in
  (idx < len (vm.globals m) ->
   exists m1 m2,
     vm.step m = Ok (tt, m1) /\ vm.step m1 = Ok (tt, m2) /\
     vm.globals m2 = setIndex (vm.globals m) idx v /\
     index (vm.globals m2) idx = Some v /\
     vm.stack m2 = vm.stack m /\
     vm.frameItems (vm.frames m2) = vm.withPointer (vm.Frame.pointer f + 6) f :: rest) /\
  (len (vm.globals m) <= idx -> vm.step m = Panic IndexOutOfRange).
Proof.
  intros Hf Hn Hv idx. subst idx.
  pose proof (byteZ_range hi). pose proof (byteZ_range lo).
  pose proof (step_SetGlobal m f rest hi lo _ v Hf Hn Hv) as H1.
  pose proof (index_lt _ _ _ Hv) as Hsp.
  split.
  - intros Hlt. rewrite decide_True in H1 by exact Hlt.
    eexists. eexists. split; [exact H1 |].
    assert (Hidx : index (setIndex (vm.globals m) (256 * byteZ hi + byteZ lo) v)
                     (256 * byteZ hi + byteZ lo) = Some v)
      by (apply index_setIndex; lia).
    split.
    + apply (step_GetGlobal _ (vm.withPointer (vm.Frame.pointer f + 3) f) rest hi lo [] v).
      * reflexivity.
      * apply (next_drop f [operation.SetGlobal; hi; lo]). exact Hn.
      * exact Hidx.
      * cbn. lia.
    + cbn. split; [reflexivity |]. split; [exact Hidx |]. split.
      * rewrite (setIndex_same _ _ _ Hv).
        replace (vm.Stack.pointer (vm.stack m) - 1 + 1) with (vm.Stack.pointer (vm.stack m))
          by lia.
        destruct (vm.stack m); reflexivity.
      * replace (vm.Frame.pointer f + 6) with (vm.Frame.pointer f + 3 + 3) by lia.
        reflexivity.
  - intros Hge. rewrite decide_False in H1 by lia. exact H1.
Qed.

(** One iteration on [SetLocal] and on [GetLocal]. *)
Lemma step_SetLocal (m : vm.VM) (f : vm.Frame.t) (rest : list vm.Frame.t)
    (b : byte) (bs : list byte) (v : value) :
  vm.frameItems (vm.frames m) = f :: rest ->
  vm.next f (operation.SetLocal :: b :: bs) ->
  index (vm.Stack.items (vm.stack m)) (vm.Stack.pointer (vm.stack m) - 1) = Some v ->
  vm.step m =
    if decide (0 <= vm.Frame.framePointer f + byteZ b < len (vm.Stack.items (vm.stack m)))
    then Ok (tt, vm.setStack
                   {| vm.Stack.items :=
                        setIndex (vm.Stack.items (vm.stack m))
                          (vm.Frame.framePointer f + byteZ b) v;
                      vm.Stack.pointer := vm.Stack.pointer (vm.stack m) - 1 |}
                   (vm.setFrameItems (vm.withPointer (vm.Frame.pointer f + 2) f :: rest) m))
    else Panic IndexOutOfRange.
Proof.
  intros Hf Hn Hv. rewrite (step_next m f rest _ _ Hf Hn). take_case.
  unfold bind at 1. rewrite (next_operand8 f _ b bs _ Hn).
  unfold vm.addPointer, vm.current, vm.setPointer, bind. cbn.
  replace (vm.Frame.pointer f + 1 + 1) with (vm.Frame.pointer f + 2) by lia.
  rewrite (onStack_pop _ v) by exact Hv. cbn.
  destruct (decide _) as [Hin|Hout].
  - destruct (index_is_Some (vm.Stack.items (vm.stack m))
                (vm.Frame.framePointer f + byteZ b)) as [x Hx]; [exact Hin |].
    rewrite Hx. reflexivity.
  - destruct (index (vm.Stack.items (vm.stack m)) (vm.Frame.framePointer f + byteZ b))
      eqn:E; [| reflexivity].
    apply index_lt in E. contradiction.
Qed.

Lemma step_GetLocal (m : vm.VM) (f : vm.Frame.t) (rest : list vm.Frame.t)
    (b : byte) (bs : list byte) (v : value) :
  vm.frameItems (vm.frames m) = f :: rest ->
  vm.next f (operation.GetLocal :: b :: bs) ->
  index (vm.Stack.items (vm.stack m)) (vm.Frame.framePointer f + byteZ b) = Some v ->
  0 <= vm.Stack.pointer (vm.stack m) < len (vm.Stack.items (vm.stack m)) ->
  vm.step m =
    Ok (tt, vm.setStack
              {| vm.Stack.items :=
                   setIndex (vm.Stack.items (vm.stack m)) (vm.Stack.pointer (vm.stack m)) v;
                 vm.Stack.pointer := vm.Stack.pointer (vm.stack m) + 1 |}
              (vm.setFrameItems (vm.withPointer (vm.Frame.pointer f + 2) f :: rest) m)).
Proof.
  intros Hf Hn Hv Hsp. rewrite (step_next m f rest _ _ Hf Hn). take_case.
  unfold bind at 1. rewrite (next_operand8 f _ b bs _ Hn).
  unfold vm.addPointer, vm.current, vm.setPointer, bind. cbn.
  replace (vm.Frame.pointer f + 1 + 1) with (vm.Frame.pointer f + 2) by lia.
  rewrite Hv. cbn. rewrite onStack_push by exact Hsp. reflexivity.
Qed.

(** X16.  [SetLocal i] followed by [GetLocal i] is a round trip: the
    value on top of the stack is stored in the stack slot
    [framePointer + i] of the current frame and pushed back, the stack
    pointer being as before.  A slot outside the stack is the Go panic of
    an index out of range. *)
Theorem local_is_read_back (m : vm.VM) (f : vm.Frame.t) (rest : list vm.Frame.t)
    (b : byte) (v : value) :
  vm.frameItems (vm.frames m) = f :: rest ->
  vm.next f [operation.SetLocal; b; operation.GetLocal; b] ->
  index (vm.Stack.items (vm.stack m)) (vm.Stack.pointer (vm.stack m) - 1) = Some v ->
  let slot := vm.Frame.framePointer f + byteZ b in
  (0 <= slot < len (vm.Stack.items (vm.stack m)) ->
   exists m1 m2,
     vm.step m = Ok (tt, m1) /\ vm.step m1 = Ok (tt, m2) /\
     vm.Stack.items (vm.stack m2) = setIndex (vm.Stack.items (vm.stack m)) slot v /\
     index (vm.Stack.items (vm.stack m2)) slot = Some v /\
     vm.Stack.pointer (vm.stack m2) = vm.Stack.pointer (vm.stack m) /\
     vm.globals m2 = vm.globals m /\
     vm.frameItems (vm.frames m2) = vm.withPointer (vm.Frame.pointer f + 4) f :: rest) /\
  (~ 0 <= slot < len (vm.Stack.items (vm.stack m)) -> vm.step m = Panic IndexOutOfRange).
Proof.
  intros Hf Hn Hv slot. subst slot.
  pose proof (step_SetLocal m f rest b _ v Hf Hn Hv) as H1.
  pose proof (index_lt _ _ _ Hv) as Hsp.
  pose proof (byteZ_range b) as Hb.
  split.
  - intros Hslot. rewrite decide_True in H1 by exact Hslot.
    assert (Hread : index (setIndex (vm.Stack.items (vm.stack m))
                             (vm.Frame.framePointer f + byteZ b) v)
                      (vm.Frame.framePointer f + byteZ b) = Some v)
      by (apply index_setIndex; exact Hslot).
    assert (Htop : index (setIndex (vm.Stack.items (vm.stack m))
                            (vm.Frame.framePointer f + byteZ b) v)
                     (vm.Stack.pointer (vm.stack m) - 1) = Some v).
    { destruct (decide (vm.Frame.framePointer f + byteZ b = vm.Stack.pointer (vm.stack m) - 1))
        as [E|E].
      - rewrite <- E. exact Hread.
      - rewrite index_setIndex_ne by lia. exact Hv. }
    eexists. eexists. split; [exact H1 |]. split.
    + apply (step_GetLocal _ (vm.withPointer (vm.Frame.pointer f + 2) f) rest b [] v).
      * reflexivity.
      * apply (next_drop f [operation.SetLocal; b]). exact Hn.
      * exact Hread.
      * cbn. rewrite len_setIndex. lia.
    + cbn. split; [exact (setIndex_same _ _ _ Htop) |].
      split; [rewrite (setIndex_same _ _ _ Htop); exact Hread |].
      split; [lia |]. split; [reflexivity |].
      replace (vm.Frame.pointer f + 4) with (vm.Frame.pointer f + 2 + 2) by lia.
      reflexivity.
  - intros Hslot. rewrite decide_False in H1 by exact Hslot. exact H1.
Qed.

(** One iteration on [ReturnValue] and on [Return]. *)
Lemma step_ReturnValue (m : vm.VM) (f caller : vm.Frame.t) (rest : list vm.Frame.t)
    (bs : list byte) (v : value) :
  vm.frameItems (vm.frames m) = f :: caller :: rest ->
  1 <= vm.Frame.framePointer f <= len (vm.Stack.items (vm.stack m)) ->
  vm.next f (operation.ReturnValue :: bs) ->
  index (vm.Stack.items (vm.stack m)) (vm.Stack.pointer (vm.stack m) - 1) = Some v ->
  vm.step m =
    Ok (tt, vm.setStack
              {| vm.Stack.items :=
                   setIndex (vm.Stack.items (vm.stack m)) (vm.Frame.framePointer f - 1) v;
                 vm.Stack.pointer := vm.Frame.framePointer f |}
              (vm.setFrameItems (caller :: rest) m)).
Proof.
  intros Hf Hfp Hn Hv. rewrite (step_next m f (caller :: rest) _ _ Hf Hn). take_case.
  unfold bind at 1. rewrite (onStack_pop _ v) by exact Hv.
  unfold vm.popFrame, vm.setStackPointer, bind, modify. cbn.
  rewrite onStack_push by (cbn; lia). cbn.
  replace (vm.Frame.framePointer f - 1 + 1) with (vm.Frame.framePointer f) by lia.
  reflexivity.
Qed.

Lemma step_Return (m : vm.VM) (f caller : vm.Frame.t) (rest : list vm.Frame.t)
    (bs : list byte) :
  vm.frameItems (vm.frames m) = f :: caller :: rest ->
  1 <= vm.Frame.framePointer f <= len (vm.Stack.items (vm.stack m)) ->
  vm.next f (operation.Return :: bs) ->
  vm.step m =
    Ok (tt, vm.setStack
              {| vm.Stack.items :=
                   setIndex (vm.Stack.items (vm.stack m)) (vm.Frame.framePointer f - 1)
                     (Some vm.NULL);
                 vm.Stack.pointer := vm.Frame.framePointer f |}
              (vm.setFrameItems (caller :: rest) m)).
Proof.
  intros Hf Hfp Hn. rewrite (step_next m f (caller :: rest) _ _ Hf Hn). take_case.
  unfold vm.popFrame, vm.setStackPointer, bind, modify. cbn.
  rewrite onStack_push by (cbn; lia). cbn.
  replace (vm.Frame.framePointer f - 1 + 1) with (vm.Frame.framePointer f) by lia.
  reflexivity.
Qed.

(** X17.  [ReturnValue] pops the value on top of the stack, drops the
    current frame, and leaves the value in the slot just below the frame
    pointer of the dropped frame, the stack pointer being that frame
    pointer; [Return] does the same with [NULL].  The frame of the caller
    is not touched. *)
Theorem return_leaves_the_value_below_the_frame (m : vm.VM) (f caller : vm.Frame.t)
    (rest : list vm.Frame.t) :
  vm.frameItems (vm.frames m) = f :: caller :: rest ->
  1 <= vm.Frame.framePointer f <= len (vm.Stack.items (vm.stack m)) ->
  (vm.next f [operation.ReturnValue] ->
   forall v,
     index (vm.Stack.items (vm.stack m)) (vm.Stack.pointer (vm.stack m) - 1) = Some v ->
     vm.step m =
       Ok (tt, vm.setStack
                 {| vm.Stack.items :=
                      setIndex (vm.Stack.items (vm.stack m)) (vm.Frame.framePointer f - 1) v;
                    vm.Stack.pointer := vm.Frame.framePointer f |}
                 (vm.setFrameItems (caller :: rest) m))) /\
  (vm.next f [operation.Return] ->
   vm.step m =
     Ok (tt, vm.setStack
               {| vm.Stack.items :=
                    setIndex (vm.Stack.items (vm.stack m)) (vm.Frame.framePointer f - 1)
                      (Some vm.NULL);
                  vm.Stack.pointer := vm.Frame.framePointer f |}
               (vm.setFrameItems (caller :: rest) m))).
Proof.
  intros Hf Hfp. split.
  - intros Hn v Hv. exact (step_ReturnValue m f caller rest [] v Hf Hfp Hn Hv).
  - intros Hn. exact (step_Return m f caller rest [] Hf Hfp Hn).
Qed.

(** X18.  A call of a compiled function whose first instruction is
    [Return] takes two iterations and comes back to the caller behind the
    [Call] instruction, with the stack pointer as before the call and
    [NULL] in the place of the callee; the globals and the constants are
    untouched, whatever the number of locals of the function. *)
Theorem call_then_return (m : vm.VM) (caller : vm.Frame.t) (rest : list vm.Frame.t)
    (argc : byte) (fn : data.CompiledFunction) (body : list byte) :
  vm.frameItems (vm.frames m) = caller :: rest ->
  vm.next caller [operation.Call; argc] ->
  index (vm.Stack.items (vm.stack m)) (vm.Stack.pointer (vm.stack m) - 1)
    = Some (Some (data.Fn fn)) ->
  data.Instructions fn = operation.Return :: body ->
  len (caller :: rest) < vm.limit (vm.frames m) ->
  exists m1 m2,
    vm.step m = Ok (tt, m1) /\ vm.step m1 = Ok (tt, m2) /\
    vm.frameItems (vm.frames m2) = vm.withPointer (vm.Frame.pointer caller + 2) caller :: rest /\
    vm.Stack.pointer (vm.stack m2) = vm.Stack.pointer (vm.stack m) /\
    vm.Stack.items (vm.stack m2) =
      setIndex (vm.Stack.items (vm.stack m)) (vm.Stack.pointer (vm.stack m) - 1)
        (Some vm.NULL) /\
    vm.globals m2 = vm.globals m /\ vm.constants m2 = vm.constants m.
Proof.
  intros Hf Hn Hv Hbody Hlim.
  pose proof (step_call m caller rest _ Hf (next_opcode caller _ _ Hn) Hv) as H1.
  cbv beta iota in H1. rewrite decide_False in H1 by lia.
  pose proof (index_lt _ _ _ Hv) as Hsp.
  eexists. eexists. split; [exact H1 |]. split.
  - apply (step_Return _ (vm.NewFrame fn (vm.Stack.pointer (vm.stack m)))
             (vm.withPointer (vm.Frame.pointer caller + 2) caller) rest body).
    + reflexivity.
    + cbn. lia.
    + exists [], []. cbn. rewrite app_nil_r. split; [exact Hbody | reflexivity].
  - cbn. repeat split.
Qed.

(** X19.  [Add], [Sub] and [Mul] on two Integers never fail: the two
    operands are popped and the sum, the difference or the product is
    pushed, wrapped to 64 bits (and equal to the exact result when that is
    a 64-bit integer). *)
Theorem integer_arithmetic_wraps (m : vm.VM) (f : vm.Frame.t) (rest : list vm.Frame.t)
    (op : byte) (l r result : Z) :
  vm.frameItems (vm.frames m) = f :: rest ->
  index (data.Instructions (vm.Frame.fn f)) (vm.Frame.pointer f + 1) = Some op ->
  index (vm.Stack.items (vm.stack m)) (vm.Stack.pointer (vm.stack m) - 1)
    = Some (Some (data.Integer r)) ->
  index (vm.Stack.items (vm.stack m)) (vm.Stack.pointer (vm.stack m) - 2)
    = Some (Some (data.Integer l)) ->
  (op = operation.Add /\ result = l + r) \/
  (op = operation.Sub /\ result = l - r) \/
  (op = operation.Mul /\ result = l * r) ->
  vm.step m =
    Ok (tt,
        vm.setStack
          {| vm.Stack.items :=
               setIndex (vm.Stack.items (vm.stack m)) (vm.Stack.pointer (vm.stack m) - 2)
                 (Some (data.Integer (vm.int64 result)));
             vm.Stack.pointer := vm.Stack.pointer (vm.stack m) - 1 |}
          (vm.setFrameItems (vm.withPointer (vm.Frame.pointer f + 1) f :: rest) m)) /\
  - 2 ^ 63 <= vm.int64 result < 2 ^ 63 /\
  (- 2 ^ 63 <= result < 2 ^ 63 -> vm.int64 result = result).
Proof.
  intros Hf Hop Hr Hl Hcase.
  pose proof (index_lt _ _ _ Hl) as Hsp.
  split; [| split].
  - rewrite (step_dispatch m f rest _ Hf Hop).
    assert (Hin : op ∈ [operation.Add; operation.Sub; operation.Mul; operation.Div]).
    { destruct Hcase as [[-> _] | [[-> _] | [-> _]]]; elem_here. }
    unfold vm.dispatch.
    repeat (rewrite decide_False
              by (intros ->; destruct Hcase as [[E _] | [[E _] | [E _]]]; discriminate E)).
    rewrite decide_True by exact Hin.
    rewrite (executeBinaryOp_eq _ op (data.Integer l) (data.Integer r)) by (cbn; assumption).
    rewrite decide_True by (split; reflexivity).
    unfold vm.executeBinaryIntegerOp, vm.integerValue, bind. cbn [ret].
    destruct Hcase as [[-> ->] | [[-> ->] | [-> ->]]];
      repeat (rewrite decide_False by discriminate);
      rewrite decide_True by reflexivity; cbn [ret];
      (rewrite onStack_push by (cbn; lia)); cbn;
      replace (vm.Stack.pointer (vm.stack m) - 2 + 1)
        with (vm.Stack.pointer (vm.stack m) - 1) by lia;
      reflexivity.
  - unfold vm.int64. pose proof (Z.mod_pos_bound (result + 2 ^ 63) (2 ^ 64) ltac:(lia)). lia.
  - apply int64_in_range.
Qed.

End MachineSteps.

(* ================================================================= *)
(** ** Compiling and running *)

Section CompileAndRun.

Variable ExpressionString : ast.Expression -> string.
Variable builtins : list string.

(** X20.  The compiler and the machine agree on the arithmetic of two
    integer literals: the program [a + b;] (and the same for [-] and [*])
    compiles with a new compiler, and [Run] on a new machine for the
    bytecode returns nil after four iterations with an empty stack whose
    last popped value is the Integer result, wrapped to 64 bits. *)
Theorem arithmetic_on_literals_runs (a b : Z) (operator : string) (result : Z) :
  (operator = "+" /\ result = a + b) \/
  (operator = "-" /\ result = a - b) \/
  (operator = "*" /\ result = a * b) ->
  exists bytecode,
    compiler.compileNew ExpressionString builtins
      (ast.Program
         [ast.ExpressionStatement
            (ast.InfixExpression (ast.IntegerLiteral a) operator (ast.IntegerLiteral b))])
      = Ok bytecode /\
    vm.outcome
      (vm.Run 4 (vm.New (compiler.Instructions bytecode) (compiler.Constants bytecode)))
      = Some (0, Some (data.Integer (vm.int64 result))).
Proof.
  intros [[-> ->] | [[-> ->] | [-> ->]]]; eexists; (split; [vm_compute; reflexivity |]);
    cbn [compiler.Instructions compiler.Constants];
    lazy -[vm.int64]; reflexivity.
Qed.

(** X21.  The jump targets that the compiler patches into an
    if-expression are those that the machine needs: the program
    [if (c) { x } else { y };] for a Boolean literal [c] runs to the
    Integer [x] when [c] is true and to [y] when it is false, and without
    an [else] it runs to [x] or to Null. *)
Theorem if_expression_runs_one_branch (condition : bool) (x y : Z) :
  (exists bytecode,
     compiler.compileNew ExpressionString builtins
       (ast.Program
          [ast.ExpressionStatement
             (ast.IfExpression (ast.Boolean condition)
                [ast.ExpressionStatement (ast.IntegerLiteral x)]
                (Some [ast.ExpressionStatement (ast.IntegerLiteral y)]))])
       = Ok bytecode /\
     vm.outcome
       (vm.Run 5 (vm.New (compiler.Instructions bytecode) (compiler.Constants bytecode)))
       = Some (0, Some (data.Integer (if condition then x else y)))) /\
  (exists bytecode,
     compiler.compileNew ExpressionString builtins
       (ast.Program
          [ast.ExpressionStatement
             (ast.IfExpression (ast.Boolean condition)
                [ast.ExpressionStatement (ast.IntegerLiteral x)] None)])
       = Ok bytecode /\
     vm.outcome
       (vm.Run 5 (vm.New (compiler.Instructions bytecode) (compiler.Constants bytecode)))
       = Some (0, Some (if condition then data.Integer x else data.Null))).
Proof.
  destruct condition; split; eexists; (split; [vm_compute; reflexivity |]);
    vm_compute; reflexivity.
Qed.

Lemma defineBuiltins_count (l : list string) (i : Z) (t : symbols.SymbolTable) :
  symbols.DefinitionCount (compiler.defineBuiltins l i t) = symbols.DefinitionCount t.
Proof.
  revert i t. induction l as [|name l IH]; intros i t; [reflexivity |].
  cbn [compiler.defineBuiltins]. rewrite IH. reflexivity.
Qed.

(** X22.  A global binding is read back where it was written: the
    program [let name = v; name;] compiles, whatever the name and the
    builtins, to [Constant 0; SetGlobal 0; GetGlobal 0; Pop], and [Run]
    on a new machine returns nil with the Integer [v] as the last popped
    value. *)
Theorem global_binding_runs (name : string) (v : Z) :
  exists bytecode,
    compiler.compileNew ExpressionString builtins
      (ast.Program
         [ast.LetStatement name (ast.IntegerLiteral v);
          ast.ExpressionStatement (ast.Identifier name)])
      = Ok bytecode /\
    compiler.Instructions bytecode =
      [operation.Constant; x00; x00; operation.SetGlobal; x00; x00;
       operation.GetGlobal; x00; x00; operation.Pop] /\
    vm.outcome
      (vm.Run 4 (vm.New (compiler.Instructions bytecode) (compiler.Constants bytecode)))
      = Some (0, Some (data.Integer v)).
Proof.
  set (t := compiler.defineBuiltins builtins 0 symbols.New).
  set (symbol := {| symbols.Name := name; symbols.Scope := symbols.GlobalScope;
                    symbols.Index := 0 |}).
  assert (Hdef : symbols.Define name t =
                 (symbol,
                  {| symbols.Outer := None;
                     symbols.store := <[name := symbol]> (symbols.store t);
                     symbols.DefinitionCount := 1;
                     symbols.Free := symbols.Free t |})).
  { unfold symbols.Define, symbol, t.
    rewrite defineBuiltins_Outer, defineBuiltins_count. reflexivity. }
  exists {| compiler.Instructions :=
              [operation.Constant; x00; x00; operation.SetGlobal; x00; x00;
               operation.GetGlobal; x00; x00; operation.Pop];
            compiler.Constants := [data.Integer v] |}.
  split; [| split; [reflexivity | vm_compute; reflexivity]].
  set (t1 := {| symbols.Outer := None;
                symbols.store := <[name := symbol]> (symbols.store t);
                symbols.DefinitionCount := 1;
                symbols.Free := symbols.Free t |}) in Hdef.
  assert (Hres : symbols.Resolve name t1 = (Some symbol, t1)).
  { rewrite Resolve_global by reflexivity. unfold t1 at 1. cbn [symbols.store].
    rewrite lookup_insert_eq. reflexivity. }
  unfold compiler.compileNew, compiler.Compile.
  cbn [forEach compiler.CompileStatement compiler.CompileExpression].
  unfold bind at 1 2 3. unfold compiler.onSymbols at 1. unfold bind at 1.
  cbn [get compiler.New compiler.symbols]. fold t. rewrite Hdef.
  cbn [put bind ret compiler.setSymbols compiler.constants compiler.scopes
       compiler.currentScope compiler.symbols].
  match goal with
  | |- context [bind ?m ?k (compiler.setSymbols (Some t1) ?c)] =>
      assert (H1 : bind m k (compiler.setSymbols (Some t1) c) =
                   Ok (tt, {| compiler.constants := [data.Integer v];
                              compiler.symbols := Some t1;
                              compiler.scopes :=
                                [{| compiler.instructions :=
                                      [operation.Constant; x00; x00;
                                       operation.SetGlobal; x00; x00];
                                    compiler.emitted :=
                                      {| compiler.Opcode := operation.SetGlobal;
                                         compiler.Position := 3 |};
                                    compiler.prevEmitted :=
                                      {| compiler.Opcode := operation.Constant;
                                         compiler.Position := 0 |} |}];
                              compiler.currentScope := 0 |}))
        by (clear; subst symbol; generalize t1; intros ?; vm_compute; reflexivity);
      rewrite H1
  end.
  cbv beta iota. unfold bind. unfold compiler.onSymbols at 1. unfold bind, get.
  cbn [compiler.symbols]. rewrite Hres.
  clear. subst symbol. generalize t1. intros ?. vm_compute. reflexivity.
Qed.

End CompileAndRun.

(* ================================================================= *)
(** ** State handed from one run to the next *)

Section Sessions.

Variable ExpressionString : ast.Expression -> string.
Variable builtins : list string.

(** X25.  Bindings persist from one run to the next when the state is
    handed over as [NewWithState] and [NewWithGlobals] take it: after
    [let name = v;] is compiled and run, the program [name;], compiled by a
    compiler made from the symbol table and the constants of the first one
    and run on a machine made with the globals that the first run left,
    returns nil with the Integer [v] as the last popped value. *)
Theorem bindings_persist_across_runs (name : string) (v : Z) :
  exists c1 b1 c2 b2,
    (compiler.Compile ExpressionString
       (ast.Program [ast.LetStatement name (ast.IntegerLiteral v)]) >>
     compiler.Bytecode_) (compiler.New builtins) = Ok (b1, c1) /\
    vm.returnsNil
      (vm.Run 2 (vm.New (compiler.Instructions b1) (compiler.Constants b1))) = true /\
    (compiler.Compile ExpressionString
       (ast.Program [ast.ExpressionStatement (ast.Identifier name)]) >>
     compiler.Bytecode_)
      (compiler.NewWithState builtins (compiler.symbols c1) (compiler.constants c1))
      = Ok (b2, c2) /\
    vm.outcome
      (vm.Run 2
         (vm.NewWithGlobals (compiler.Instructions b2) (compiler.Constants b2)
            (vm.globalsOf
               (vm.Run 2 (vm.New (compiler.Instructions b1) (compiler.Constants b1))))))
      = Some (0, Some (data.Integer v)).
Proof.
  set (t := compiler.defineBuiltins builtins 0 symbols.New).
  set (symbol := {| symbols.Name := name; symbols.Scope := symbols.GlobalScope;
                    symbols.Index := 0 |}).
  set (t1 := {| symbols.Outer := None;
                symbols.store := <[name := symbol]> (symbols.store t);
                symbols.DefinitionCount := 1;
                symbols.Free := symbols.Free t |}).
  assert (Hdef : symbols.Define name t = (symbol, t1)).
  { unfold symbols.Define, symbol, t1, t.
    rewrite defineBuiltins_Outer, defineBuiltins_count. reflexivity. }
  assert (Hres : symbols.Resolve name t1 = (Some symbol, t1)).
  { rewrite Resolve_global by reflexivity. unfold t1 at 1. cbn [symbols.store].
    rewrite lookup_insert_eq. reflexivity. }
  set (scope1 := {| compiler.instructions :=
                      [operation.Constant; x00; x00; operation.SetGlobal; x00; x00];
                    compiler.emitted :=
                      {| compiler.Opcode := operation.SetGlobal; compiler.Position := 3 |};
                    compiler.prevEmitted :=
                      {| compiler.Opcode := operation.Constant; compiler.Position := 0 |} |}).
  set (scope2 := {| compiler.instructions := [operation.GetGlobal; x00; x00; operation.Pop];
                    compiler.emitted :=
                      {| compiler.Opcode := operation.Pop; compiler.Position := 3 |};
                    compiler.prevEmitted :=
                      {| compiler.Opcode := operation.GetGlobal; compiler.Position := 0 |} |}).
  exists {| compiler.constants := [data.Integer v]; compiler.symbols := Some t1;
            compiler.scopes := [scope1]; compiler.currentScope := 0 |},
         {| compiler.Instructions :=
              [operation.Constant; x00; x00; operation.SetGlobal; x00; x00];
            compiler.Constants := [data.Integer v] |},
         {| compiler.constants := [data.Integer v]; compiler.symbols := Some t1;
            compiler.scopes := [scope2]; compiler.currentScope := 0 |},
         {| compiler.Instructions := [operation.GetGlobal; x00; x00; operation.Pop];
            compiler.Constants := [data.Integer v] |}.
  split; [| split; [vm_compute; reflexivity | split; [| vm_compute; reflexivity]]].
  - unfold compiler.Compile.
    cbn [forEach compiler.CompileStatement compiler.CompileExpression].
    unfold bind at 1 2 3. unfold compiler.onSymbols at 1. unfold bind at 1.
    cbn [get compiler.New compiler.symbols]. fold t. rewrite Hdef.
    clear. subst symbol scope1. generalize t1. intros ?. vm_compute. reflexivity.
  - cbn [compiler.symbols compiler.constants]. unfold compiler.Compile.
    cbn [forEach compiler.CompileStatement compiler.CompileExpression].
    unfold bind at 1 2 3 4. unfold compiler.onSymbols at 1. unfold bind at 1.
    cbn [get compiler.NewWithState compiler.setSymbols compiler.symbols]. rewrite Hres.
    clear. subst symbol scope2. generalize t1. intros ?. vm_compute. reflexivity.
Qed.

End Sessions.

(* ================================================================= *)
(** ** The evaluator of prefix expressions *)

Section EvalPrefix.

Variable tag : DataType -> string.
Variable evalBangOperatorExpression : value -> result eval.Object.
Variable evalMinusPrefixOperatorExpression : value -> result eval.Object.

(** X23.  The tree-walking evaluator on a prefix operator other than [!]
    and [-]: the result is a [data.Error] whose message is
    "Unknown operator: " followed by the operator and, with nothing in
    between, the type of the operand; a nil operand is a Go panic. *)
Theorem unknown_prefix_operator (operator : string) (d : data.Data) :
  operator <> "!" -> operator <> "-" ->
  eval.evalPrefixExpression tag evalBangOperatorExpression
    evalMinusPrefixOperatorExpression operator (Some d) =
    Ok (eval.Error (String.append "Unknown operator: "
                      (String.append operator (tag (data.Type_ d))))) /\
  eval.evalPrefixExpression tag evalBangOperatorExpression
    evalMinusPrefixOperatorExpression operator None = Panic NilDereference.
Proof.
  intros Hbang Hminus. unfold eval.evalPrefixExpression.
  rewrite !decide_False by assumption. split; [| reflexivity].
  unfold eval.evalError. cbn. rewrite append_empty_r. reflexivity.
Qed.

End EvalPrefix.

Lemma unknown_prefix_operator_witness :
  eval.evalPrefixExpression (fun _ => "INTEGER") (fun _ => Panic NilDereference)
    (fun _ => Panic NilDereference) "+" (Some (data.Integer 1)) =
    Ok (eval.Error "Unknown operator: +INTEGER").
Proof.
  apply (unknown_prefix_operator (fun _ => "INTEGER") (fun _ => Panic NilDereference)
           (fun _ => Panic NilDereference) "+" (data.Integer 1));
    discriminate.
Defined.

(* ================================================================= *)
(** ** Compiled examples *)

Lemma IfExpression_layout_witness :
  compiler.ifExpressionSteps examples.render (ast.Boolean true)
    [ast.ExpressionStatement (ast.IntegerLiteral 10)]
    (Some [ast.ExpressionStatement (ast.IntegerLiteral 20)])
    (compiler.New []) (examples.compiled examples.ifTrueTenElseTwenty).
Proof.
  apply IfExpression_layout.
  - split; [split; [cbn; lia | reflexivity] |].
    split; intros H; contradiction H; reflexivity.
  - vm_compute. reflexivity.
Defined.

Lemma FunctionLiteral_returns_witness :
  compiler.functionLiteralSteps examples.render ["a"]
    [ast.ExpressionStatement (ast.Identifier "a")]
    (compiler.New []) (examples.compiled examples.identity).
Proof.
  apply FunctionLiteral_returns.
  - split; [split; [cbn; lia | reflexivity] |].
    split; intros H; contradiction H; reflexivity.
  - vm_compute. reflexivity.
Defined.

(** The instructions of the examples, read off the compiled constants:
    [if (true) { 10 } else { 20 }] is
    [True; JumpNotTruthy 10; Constant 0; Jump 13; Constant 1], and the
    bodies of [fn(a) { a }], [fn() { }] and [fn() { return 5; }] are
    [GetLocal 0; ReturnValue], [Return] and [Constant 0; ReturnValue]. *)
Example ifTrueTenElseTwenty_code :
  compiler.code (examples.compiled examples.ifTrueTenElseTwenty) =
    [operation.True_] ++ compiler.jumpTo operation.JumpNotTruthy 10
      ++ [operation.Constant; x00; x00] ++ compiler.jumpTo operation.Jump 13
      ++ [operation.Constant; x00; x01].
Proof. vm_compute. reflexivity. Qed.

Example function_bodies :
  compiler.constants (examples.compiled examples.identity) =
    [data.Fn {| data.Instructions := [operation.GetLocal; x00; operation.ReturnValue];
                data.LocalCount := 1; data.ParamCount := 1 |}] /\
  compiler.constants (examples.compiled examples.emptyFunction) =
    [data.Fn {| data.Instructions := [operation.Return];
                data.LocalCount := 0; data.ParamCount := 0 |}] /\
  compiler.constants (examples.compiled examples.returnFive) =
    [data.Integer 5;
     data.Fn {| data.Instructions := [operation.Constant; x00; x00; operation.ReturnValue];
                data.LocalCount := 0; data.ParamCount := 0 |}].
Proof. repeat split; vm_compute; reflexivity. Qed.

(* ================================================================= *)
(** ** The further properties on examples *)

Lemma New_innermost (builtins : list string) : compiler.innermost (compiler.New builtins).
Proof. split; [cbn; lia | reflexivity]. Qed.

Lemma enterScope_leaveScope_round_trip_witness :
  (compiler.enterScope >> compiler.leaveScope) (compiler.New []) = Ok ([], compiler.New []).
Proof. apply enterScope_leaveScope_round_trip. split; [cbn; lia | reflexivity]. Defined.

Lemma emit_then_isEmitted_witness :
  compiler.isEmitted operation.ReturnValue (examples.afterEmit operation.Pop []) =
    Ok (false, examples.afterEmit operation.Pop []) /\
  compiler.isEmitted operation.Pop (examples.afterEmit operation.Pop []) =
    Ok (true, examples.afterEmit operation.Pop []).
Proof.
  split.
  - apply (emit_then_isEmitted operation.Pop operation.ReturnValue [] (compiler.New [])
             (examples.afterEmit operation.Pop []) 0);
      [split; [cbn; lia | reflexivity] | reflexivity].
  - apply (emit_then_isEmitted operation.Pop operation.Pop [] (compiler.New [])
             (examples.afterEmit operation.Pop []) 0);
      [split; [cbn; lia | reflexivity] | reflexivity].
Defined.

Lemma preventPop_undoes_emit_witness :
  compiler.preventPop (examples.afterEmit operation.Pop []) = Ok (tt, compiler.New []).
Proof.
  apply (preventPop_undoes_emit operation.Pop [] (compiler.New [])
           (examples.afterEmit operation.Pop []) 0);
    [split; [cbn; lia | reflexivity] | reflexivity].
Defined.

Lemma changeOperand_is_emit_with_operand_witness :
  (let* pos := compiler.emit operation.Jump [9999] in
   compiler.changeOperand pos 7 >> ret pos) (compiler.New []) =
  compiler.emit operation.Jump [7] (compiler.New []).
Proof.
  apply changeOperand_is_emit_with_operand;
    [split; [cbn; lia | reflexivity] | reflexivity | lia | lia].
Defined.

Lemma changeEmittedTo_is_emit_of_opcode_witness :
  (let* pos := compiler.emit operation.Pop [] in
   compiler.changeEmittedTo operation.ReturnValue >> ret pos) (compiler.New []) =
  compiler.emit operation.ReturnValue [] (compiler.New []).
Proof.
  apply changeEmittedTo_is_emit_of_opcode;
    [split; [cbn; lia | reflexivity] | reflexivity | reflexivity].
Defined.

Lemma unknown_operator_after_operands_witness :
  compiler.CompileExpression examples.render
    (ast.InfixExpression (ast.IntegerLiteral 1) "%" (ast.IntegerLiteral 2))
    (compiler.New []) =
    Err (Errorf "unknown operator %s" [ArgStr "%"]) /\
  compiler.CompileExpression examples.render
    (ast.InfixExpression (ast.Identifier "x") "%" (ast.IntegerLiteral 1))
    (compiler.New []) =
    Err (Errorf "Variable %s is undefined" [ArgStr "x"]) /\
  compiler.CompileExpression examples.render
    (ast.PrefixExpression "~" (ast.IntegerLiteral 1)) (compiler.New []) =
    Err (Errorf "unknown operator %s" [ArgStr "~"]).
Proof.
  split; [| split].
  - etransitivity.
    + apply (proj1 (unknown_operator_after_operands examples.render "%"
                      (ast.IntegerLiteral 1) (ast.IntegerLiteral 2) (compiler.New [])
                      (fun _ => ""))).
      intros H. not_in_list H.
    + vm_compute. reflexivity.
  - etransitivity.
    + apply (proj1 (unknown_operator_after_operands examples.render "%"
                      (ast.Identifier "x") (ast.IntegerLiteral 1) (compiler.New [])
                      (fun _ => ""))).
      intros H. not_in_list H.
    + vm_compute. reflexivity.
  - etransitivity.
    + apply (proj1 (proj2 (unknown_operator_after_operands examples.render "~"
                             (ast.IntegerLiteral 1) (ast.IntegerLiteral 1) (compiler.New [])
                             (fun _ => "")))).
      intros H. not_in_list H.
    + vm_compute. reflexivity.
Defined.

Lemma literal_is_loaded_from_constants_witness :
  compiler.constantLoaded (data.Integer 5) (compiler.New [])
    (examples.compiled (ast.IntegerLiteral 5)) /\
  compiler.constantLoaded (data.String_ "a") (compiler.New [])
    (examples.compiled (ast.StringLiteral "a")).
Proof.
  split.
  - apply (proj1 (literal_is_loaded_from_constants examples.render (compiler.New [])
                    (examples.compiled (ast.IntegerLiteral 5))
                    (New_innermost [])) 5).
    reflexivity.
  - apply (proj2 (literal_is_loaded_from_constants examples.render (compiler.New [])
                    (examples.compiled (ast.StringLiteral "a"))
                    (New_innermost [])) "a").
    reflexivity.
Defined.

Lemma Compile_appends_constants_witness :
  exists added,
    compiler.constants (examples.compiled examples.returnFive) =
      compiler.constants (compiler.New []) ++ added.
Proof.
  apply (Compile_appends_constants examples.render (ast.Expr examples.returnFive)
           (compiler.New []) (examples.compiled examples.returnFive)).
  vm_compute. reflexivity.
Defined.

Lemma expression_appends_instructions_witness :
  compiler.wf (examples.compiled examples.ifTrueTen) /\
  compiler.currentScope (examples.compiled examples.ifTrueTen) = 0 /\
  compiler.outer (examples.compiled examples.ifTrueTen) = [] /\
  (exists added, added <> [] /\
     compiler.code (examples.compiled examples.ifTrueTen) = [] ++ added) /\
  compiler.isEmitted operation.Pop (examples.compiled examples.ifTrueTen) =
    Ok (false, examples.compiled examples.ifTrueTen).
Proof.
  apply (expression_appends_instructions examples.render examples.ifTrueTen
           (compiler.New []) (examples.compiled examples.ifTrueTen) (New_wf [])).
  vm_compute. reflexivity.
Defined.

Lemma statement_appends_instructions_witness :
  exists added,
    compiler.code (examples.compiledStatement (ast.ExpressionStatement (ast.IntegerLiteral 5)))
      = [] ++ added /\
    exists mid, mid <> [] /\ added = mid ++ [operation.Pop].
Proof.
  apply (statement_appends_instructions examples.render
           (ast.ExpressionStatement (ast.IntegerLiteral 5))
           (compiler.New [])
           (examples.compiledStatement (ast.ExpressionStatement (ast.IntegerLiteral 5)))
           (New_wf [])).
  vm_compute. reflexivity.
Defined.

Lemma identifier_in_new_compiler_witness :
  compiler.compileNew examples.render ["len"; "puts"]
    (ast.Program [ast.ExpressionStatement (ast.Identifier "x")]) =
    Err (Errorf "Variable %s is undefined" [ArgStr "x"]) /\
  compiler.compileNew examples.render ["len"; "puts"]
    (ast.Program [ast.ExpressionStatement (ast.Identifier "puts")]) =
    Ok {| compiler.Instructions := [operation.GetBuiltin; x01; operation.Pop];
          compiler.Constants := [] |}.
Proof.
  split.
  - apply (proj1 (identifier_in_new_compiler examples.render ["len"; "puts"] "x"
                    (fun _ => ""))).
    intros H. not_in_list H.
  - apply (proj1 (proj2 (identifier_in_new_compiler examples.render ["len"; "puts"] "puts"
                           (fun _ => ""))) 1%nat).
    + repeat constructor; intros H; not_in_list H.
    + reflexivity.
    + lia.
Defined.

Lemma HashLiteral_distinct_keys_witness :
  compiler.CompileExpression examples.render (ast.HashLiteral examples.twoKeys)
    (compiler.New []) =
  compiler.CompileExpression examples.render (ast.HashLiteral examples.twoKeys')
    (compiler.New []).
Proof.
  apply HashLiteral_distinct_keys.
  - apply perm_swap.
  - repeat constructor; intros H; not_in_list H.
Defined.

Lemma next_here (ins : list byte) : vm.next (examples.mainFrame ins) ins.
Proof. exists [], []. rewrite app_nil_r. split; reflexivity. Qed.

Lemma constant_is_pushed_witness :
  vm.step (examples.machine [operation.Constant; x00; x01]
             [data.Integer 7; data.Integer 8] []) =
    Ok (tt, vm.setStack {| vm.Stack.items := [Some (data.Integer 8); None; None; None];
                           vm.Stack.pointer := 1 |}
              (vm.setFrameItems
                 [vm.withPointer 2 (examples.mainFrame [operation.Constant; x00; x01])]
                 (examples.machine [operation.Constant; x00; x01]
                    [data.Integer 7; data.Integer 8] []))) /\
  vm.step (examples.machine [operation.Constant; x00; x02]
             [data.Integer 7; data.Integer 8] []) = Panic IndexOutOfRange.
Proof.
  split.
  - apply (proj1 (constant_is_pushed
                    (examples.machine [operation.Constant; x00; x01]
                       [data.Integer 7; data.Integer 8] [])
                    (examples.mainFrame [operation.Constant; x00; x01]) [] x00 x01
                    eq_refl (next_here _)) (data.Integer 8) eq_refl).
    split; [vm_compute; discriminate | vm_compute; reflexivity].
  - apply (proj1 (proj2 (constant_is_pushed
                    (examples.machine [operation.Constant; x00; x02]
                       [data.Integer 7; data.Integer 8] [])
                    (examples.mainFrame [operation.Constant; x00; x02]) [] x00 x02
                    eq_refl (next_here _))) eq_refl).
Defined.

Lemma global_is_read_back_witness :
  exists m1 m2,
    vm.step (examples.machine
               [operation.SetGlobal; x00; x02; operation.GetGlobal; x00; x02] []
               [Some (data.Integer 7)]) = Ok (tt, m1) /\
    vm.step m1 = Ok (tt, m2) /\
    index (vm.globals m2) 2 = Some (Some (data.Integer 7)) /\
    vm.stack m2 = vm.stack (examples.machine
               [operation.SetGlobal; x00; x02; operation.GetGlobal; x00; x02] []
               [Some (data.Integer 7)]).
Proof.
  destruct (proj1 (global_is_read_back
              (examples.machine
                 [operation.SetGlobal; x00; x02; operation.GetGlobal; x00; x02] []
                 [Some (data.Integer 7)])
              (examples.mainFrame
                 [operation.SetGlobal; x00; x02; operation.GetGlobal; x00; x02]) []
              x00 x02 (Some (data.Integer 7)) eq_refl (next_here _) eq_refl))
    as (m1 & m2 & H1 & H2 & _ & Hg & Hs & _).
  - vm_compute. reflexivity.
  - exists m1, m2. repeat split; assumption.
Defined.

Lemma local_is_read_back_witness :
  exists m1 m2,
    vm.step (examples.machine [operation.SetLocal; x01; operation.GetLocal; x01] []
               [None; None; Some (data.Integer 7)]) = Ok (tt, m1) /\
    vm.step m1 = Ok (tt, m2) /\
    index (vm.Stack.items (vm.stack m2)) 1 = Some (Some (data.Integer 7)) /\
    vm.Stack.pointer (vm.stack m2) = 3.
Proof.
  destruct (proj1 (local_is_read_back
              (examples.machine [operation.SetLocal; x01; operation.GetLocal; x01] []
                 [None; None; Some (data.Integer 7)])
              (examples.mainFrame [operation.SetLocal; x01; operation.GetLocal; x01]) []
              x01 (Some (data.Integer 7)) eq_refl (next_here _) eq_refl))
    as (m1 & m2 & H1 & H2 & _ & Hi & Hp & _).
  - split; [vm_compute; discriminate | vm_compute; reflexivity].
  - exists m1, m2. repeat split; assumption.
Defined.

Lemma return_leaves_the_value_below_the_frame_witness :
  vm.step (examples.called examples.returnsTop 1 [operation.Call; x00; operation.Pop] []
             [Some (data.Fn examples.returnsTop); Some (data.Integer 7)]) =
    Ok (tt, vm.setStack
              {| vm.Stack.items :=
                   [Some (data.Integer 7); Some (data.Integer 7); None; None; None; None];
                 vm.Stack.pointer := 1 |}
              (vm.setFrameItems [examples.mainFrame [operation.Call; x00; operation.Pop]]
                 (examples.called examples.returnsTop 1
                    [operation.Call; x00; operation.Pop] []
                    [Some (data.Fn examples.returnsTop); Some (data.Integer 7)]))) /\
  vm.step (examples.called examples.returnsAtOnce 1 [operation.Call; x00; operation.Pop] []
             [Some (data.Fn examples.returnsAtOnce)]) =
    Ok (tt, vm.setStack
              {| vm.Stack.items := [Some vm.NULL; None; None; None; None];
                 vm.Stack.pointer := 1 |}
              (vm.setFrameItems [examples.mainFrame [operation.Call; x00; operation.Pop]]
                 (examples.called examples.returnsAtOnce 1
                    [operation.Call; x00; operation.Pop] []
                    [Some (data.Fn examples.returnsAtOnce)]))).
Proof.
  split.
  - refine (proj1 (return_leaves_the_value_below_the_frame
                     (examples.called examples.returnsTop 1
                        [operation.Call; x00; operation.Pop] []
                        [Some (data.Fn examples.returnsTop); Some (data.Integer 7)])
                     (vm.NewFrame examples.returnsTop 1)
                     (examples.mainFrame [operation.Call; x00; operation.Pop]) []
                     eq_refl _) _ (Some (data.Integer 7)) eq_refl).
    + split; vm_compute; discriminate.
    + exists [], []. split; reflexivity.
  - refine (proj2 (return_leaves_the_value_below_the_frame
                     (examples.called examples.returnsAtOnce 1
                        [operation.Call; x00; operation.Pop] []
                        [Some (data.Fn examples.returnsAtOnce)])
                     (vm.NewFrame examples.returnsAtOnce 1)
                     (examples.mainFrame [operation.Call; x00; operation.Pop]) []
                     eq_refl _) _).
    + split; vm_compute; discriminate.
    + exists [], []. split; reflexivity.
Defined.

Lemma call_then_return_witness :
  exists m1 m2,
    vm.step (examples.machine [operation.Call; x00] []
               [Some (data.Fn examples.returnsAtOnce)]) = Ok (tt, m1) /\
    vm.step m1 = Ok (tt, m2) /\
    vm.Stack.pointer (vm.stack m2) = 1 /\
    vm.Stack.items (vm.stack m2) = [Some vm.NULL; None; None; None; None].
Proof.
  destruct (call_then_return
              (examples.machine [operation.Call; x00] []
                 [Some (data.Fn examples.returnsAtOnce)])
              (examples.mainFrame [operation.Call; x00]) [] x00
              examples.returnsAtOnce [] eq_refl (next_here _) eq_refl eq_refl eq_refl)
    as (m1 & m2 & H1 & H2 & _ & Hp & Hi & _).
  exists m1, m2. repeat split; assumption.
Defined.

Lemma integer_arithmetic_wraps_witness :
  vm.step (examples.machine [operation.Mul] []
             [Some (data.Integer (2 ^ 62)); Some (data.Integer 4)]) =
    Ok (tt,
        vm.setStack
          {| vm.Stack.items :=
               [Some (data.Integer 0); Some (data.Integer 4); None; None; None; None];
             vm.Stack.pointer := 1 |}
          (vm.setFrameItems [vm.withPointer 0 (examples.mainFrame [operation.Mul])]
             (examples.machine [operation.Mul] []
                [Some (data.Integer (2 ^ 62)); Some (data.Integer 4)]))).
Proof.
  apply (proj1 (integer_arithmetic_wraps
                  (examples.machine [operation.Mul] []
                     [Some (data.Integer (2 ^ 62)); Some (data.Integer 4)])
                  (examples.mainFrame [operation.Mul]) [] operation.Mul (2 ^ 62) 4
                  (2 ^ 62 * 4) eq_refl eq_refl eq_refl eq_refl
                  (or_intror (or_intror (conj eq_refl eq_refl))))).
Defined.

Lemma arithmetic_on_literals_runs_witness :
  exists bytecode,
    compiler.compileNew examples.render []
      (ast.Program
         [ast.ExpressionStatement
            (ast.InfixExpression (ast.IntegerLiteral 2) "-" (ast.IntegerLiteral 5))])
      = Ok bytecode /\
    vm.outcome
      (vm.Run 4 (vm.New (compiler.Instructions bytecode) (compiler.Constants bytecode)))
      = Some (0, Some (data.Integer (-3))).
Proof.
  apply (arithmetic_on_literals_runs examples.render [] 2 5 "-" (2 - 5)).
  right. left. split; reflexivity.
Defined.

Lemma infix_operands_then_operator_witness :
  exists first second opcode c1 c2,
    ((("<" : string) = "<" /\ first = ast.IntegerLiteral 2 /\ second = ast.IntegerLiteral 1 /\
      opcode = operation.GreaterThan) \/
     (first = ast.IntegerLiteral 1 /\ second = ast.IntegerLiteral 2 /\
      (("<" : string), opcode) ∈
        [("+", operation.Add); ("-", operation.Sub); ("*", operation.Mul);
         ("/", operation.Div); (">", operation.GreaterThan);
         ("==", operation.Equal); ("!=", operation.NotEqual)])) /\
    compiler.CompileExpression examples.render first (compiler.New []) = Ok (tt, c1) /\
    compiler.CompileExpression examples.render second c1 = Ok (tt, c2) /\
    compiler.code
      (examples.compiled
         (ast.InfixExpression (ast.IntegerLiteral 1) "<" (ast.IntegerLiteral 2))) =
      compiler.code c2 ++ [opcode] /\
    compiler.constants
      (examples.compiled
         (ast.InfixExpression (ast.IntegerLiteral 1) "<" (ast.IntegerLiteral 2))) =
      compiler.constants c2.
Proof.
  apply (proj1 (infix_operands_then_operator examples.render
                  (ast.IntegerLiteral 1) (ast.IntegerLiteral 2) "<" (compiler.New [])
                  (examples.compiled
                     (ast.InfixExpression (ast.IntegerLiteral 1) "<" (ast.IntegerLiteral 2)))
                  (New_wf []) eq_refl)).
Defined.

